(** * Giallarhorn: the one-shot voice controller (OneShotAudio)

    A shallow embedding of [OneShotAudio] (init, getPolicy, getActiveCount,
    play, _ensureCapacity) together with the parts of [AudioItem] and
    [SpatialAudio] that the controller drives (gain automation, play, stop,
    disconnect, setPosition), the filter chain of an [AudioItem] (connect,
    disconnect, setFilters), and parts of [AudioManager] (has, get, the
    naming of loaded files), of [AudioListenerController] (getTimeDelta,
    getEndTime, setFilter, removeFilter) and of [AudioVisibilityManager]
    (createEmptySrc).

    Conventions of the embedding.
    - A JavaScript number is a rational ([Q]) standing for the double
      nearest to it.  The rate limiter of [play] subtracts and compares as
      doubles do ([JS.sub], [JS.double]); elsewhere arithmetic is exact.  NaN
      and the infinities are outside the model.  The one infinity the
      controller itself produces ([-Infinity] for a track that was never
      started) is an absent entry of [lastStartAt].
    - Objects compared by identity (voices, [Set]s) are addresses: a voice is
      the index of its acceptance, a [Set] is an index into a store of sets.
      A [Set] is kept as the list of its members in insertion order.
    - [trackPolicies] is a finite map.  [manager.buffers] is the set of the
      names stored in it; it is read through [lookupBuffer], which also
      finds the keys that a plain object inherits.
    - Calls into the platform (AudioParam scheduling, source start/stop,
      connect/disconnect) are taken to succeed; what they were asked to do is
      recorded on the node.  The exception is the audio graph of the
      listener and of an item's filter chain, where disconnecting a
      connection that does not exist throws. *)

From Stdlib Require Import QArith Lqa.
From stdpp Require Import gmap strings list fin_maps sorting.
From Stdlib Require Import Ascii.


(** ** JavaScript values *)

Module JS.

(** A property of an object literal: missing, written with the value
    [undefined], or written with a value.  Reading the property gives
    [undefined] in the first two cases; object spread copies the last two. *)
Inductive prop (A : Type) : Type :=
| Absent
| Undefined
| Val (a : A).
Arguments Absent {A}.
Arguments Undefined {A}.
Arguments Val {A} a.

(** [o.k]: [None] is [undefined]. *)
Definition read {A} (p : prop A) : option A :=
  match p with
  | Val a => Some a
  | _ => None
  end.

(** [a ?? b] *)
Definition nullish {A} (a b : option A) : option A :=
  match a with
  | Some x => Some x
  | None => b
  end.

(** The property [k] of [{ k: base, ...o }]. *)
Definition spread {A} (base : A) (p : prop A) : option A :=
  match p with
  | Absent => Some base
  | Undefined => None
  | Val a => Some a
  end.

(** [a < b] on numbers. *)
Definition lt (a b : Q) : bool := negb (Qle_bool b a).

(** [a >= b] on numbers. *)
Definition ge (a b : Q) : bool := Qle_bool b a.

(** [a >= b] where [b] may be [undefined] (then the comparison is false). *)
Definition ge_opt (a : Q) (b : option Q) : bool :=
  match b with
  | Some y => ge a y
  | None => false
  end.

(** [Math.max(a, b)] *)
Definition max (a b : Q) : Q := if Qle_bool a b then b else a.

(** [floor (log2 q)] for a positive [q]. *)
Definition ilog2 (q : Q) : Z :=
  let l := (Z.log2 (Qnum q) - Z.log2 (Zpos (Qden q)))%Z in
  if Qle_bool (2 ^ l) q then l else (l - 1)%Z.

(** The integer nearest to [x], the even one of two at the same distance. *)
Definition roundHalfEven (x : Q) : Z :=
  let f := (Qnum x / Zpos (Qden x))%Z in
  match (x - inject_Z f ?= 1 # 2)%Q with
  | Lt => f
  | Gt => (f + 1)%Z
  | Eq => if Z.even f then f else (f + 1)%Z
  end.

(** The double (IEEE 754 binary64) nearest to [q], ties to the even
    significand: doubles are spaced [2 ^ u] apart around [q], where [u] is
    52 below the binary exponent of [q] and never below -1074.  This is the
    number a JavaScript value holds for the real [q]; a [q] of magnitude
    [2 ^ 1024] or more, which rounds to an infinity, is outside the model. *)
Definition double (q : Q) : Q :=
  if Qeq_bool q 0 then 0 else
  let a := if Qle_bool 0 q then q else (- q)%Q in
  let u := Z.max (ilog2 a - 52) (-1074) in
  let m := roundHalfEven (a / 2 ^ u) in
  ((if Qle_bool 0 q then 1 else -1) * inject_Z m * 2 ^ u)%Q.

(** [a - b] on numbers: the exact difference of the two doubles, rounded. *)
Definition sub (a b : Q) : Q := double (double a - double b).

(** [x || 0] on a number. *)
Definition or_zero (x : Q) : Q := if Qeq_bool x 0 then 0%Q else x.

End JS.

(** ** Policies and configuration *)

(** Spatial parameters ([OneShotSpatialOptions]); each may be left out. *)
Record OneShotSpatialOptions := {
  sp_position : option (Q * Q * Q);
  sp_refDistance : option Q;
  sp_maxDistance : option Q;
  sp_rolloffFactor : option Q;
  sp_coneInnerAngle : option Q;
  sp_coneOuterAngle : option Q;
  sp_coneOuterGain : option Q
}.

(** A policy as the caller writes it ([OneShotPolicy], every field optional). *)
Record OneShotPolicy := {
  maxVoices : JS.prop Q;
  minInterval : JS.prop Q;
  priority : JS.prop Q;
  stealStrategy : JS.prop string;
  stealFadeMs : JS.prop Q;
  spatialDefaults : JS.prop OneShotSpatialOptions
}.

(** [{}] *)
Definition emptyPolicy : OneShotPolicy :=
  {| maxVoices := JS.Absent; minInterval := JS.Absent; priority := JS.Absent;
     stealStrategy := JS.Absent; stealFadeMs := JS.Absent;
     spatialDefaults := JS.Absent |}.

(** [this.global.defaultPolicy] as [init] leaves it. *)
Record DefaultPolicy := {
  d_maxVoices : option Q;
  d_minInterval : option Q;
  d_priority : option Q;
  d_stealStrategy : option string;
  d_stealFadeMs : option Q
}.

(** The object [getPolicy] returns. *)
Record Policy := {
  pol_maxVoices : option Q;
  pol_minInterval : option Q;
  pol_priority : option Q;
  pol_stealStrategy : option string;
  pol_stealFadeMs : Q;
  pol_spatialDefaults : option OneShotSpatialOptions
}.

(** The [global] argument of [init]. *)
Record OneShotGlobalConfig := {
  cfg_maxGlobalVoices : option Q;
  cfg_defaultPolicy : option OneShotPolicy
}.

(** The argument of [init] (the audio manager is the world's buffer store). *)
Record OneShotInitConfig := {
  cfg_global : OneShotGlobalConfig;
  cfg_tracks : gmap string OneShotPolicy
}.

(** The [options] argument of [play]. *)
Record OneShotOptions := {
  opt_volume : option Q;
  opt_playbackRate : option Q;
  opt_detune : option Q;
  opt_spatial : option OneShotSpatialOptions;
  opt_priority : option Q;
  opt_minIntervalOverride : option Q;
  opt_duration : option Q
}.

Definition noOptions : OneShotOptions :=
  {| opt_volume := None; opt_playbackRate := None; opt_detune := None;
     opt_spatial := None; opt_priority := None;
     opt_minIntervalOverride := None; opt_duration := None |}.

(** ** Playback nodes (AudioItem, SpatialAudio) *)

(** Who listens to the [ended] notification of a source. *)
Inductive Handler :=
| ItemOnEnded      (* AudioItem.onEnded, installed by AudioItem.play *)
| HandleEnd        (* the closure [handleEnd] of OneShotAudio.play *)
| Cleanup.         (* the closure [cleanup] of _ensureCapacity *)

(** Requests made to an AudioParam. *)
Inductive ParamEvent :=
| SetTargetAtTime (target startTime timeConstant : Q)
| SetValueAtTime (value time : Q)
| LinearRampToValueAtTime (value endTime : Q).

Definition eventTime (e : ParamEvent) : Q :=
  match e with
  | SetTargetAtTime _ t _ => t
  | SetValueAtTime _ t => t
  | LinearRampToValueAtTime _ t => t
  end.

(** [gain.gain]: the value the platform currently reports and the timeline
    of scheduled changes. *)
Record AudioParam := {
  value : Q;
  events : list ParamEvent
}.

(** [cancelScheduledValues(t)] drops every change scheduled at or after [t]. *)
Definition cancelScheduledValues (t : Q) (g : AudioParam) : AudioParam :=
  {| value := value g;
     events := filter (fun e => JS.lt (eventTime e) t = true) (events g) |}.

Definition schedule (e : ParamEvent) (g : AudioParam) : AudioParam :=
  {| value := value g; events := events g ++ [e] |}.

(** An AudioBufferSourceNode. *)
Record Source := {
  startTime : Q;
  stopTime : option Q;
  onended : option Handler
}.

Record Panner := {
  refDistance : option Q;
  maxDistance : option Q;
  rolloffFactor : option Q;
  cone : option (Q * Q * Q);
  position : option (Q * Q * Q)
}.

(** An AudioItem; [panner] is present exactly for a SpatialAudio. *)
Record AudioItem := {
  gain : AudioParam;
  detune : Q;
  playbackRate : Q;
  isPlaying : bool;
  hasPlaybackControl : bool;
  source : option Source;
  _progress : Q;
  _startedAt : Q;
  _connected : bool;
  panner : option Panner
}.

Module Item.

(** [new AudioItem(listener)] / [new SpatialAudio(listener)] followed by
    [setBuffer(buffer)] (autoplay is off, so only the buffer is stored). *)
Definition create (spatial : bool) : AudioItem :=
  {| gain := {| value := 1; events := [] |};
     detune := 0; playbackRate := 1; isPlaying := false;
     hasPlaybackControl := true; source := None;
     _progress := 0; _startedAt := 0; _connected := false;
     panner := if spatial
               then Some {| refDistance := None; maxDistance := None;
                            rolloffFactor := None; cone := None;
                            position := None |}
               else None |}.

Definition with_gain (g : AudioParam) (n : AudioItem) : AudioItem :=
  {| gain := g; detune := detune n; playbackRate := playbackRate n;
     isPlaying := isPlaying n; hasPlaybackControl := hasPlaybackControl n;
     source := source n; _progress := _progress n;
     _startedAt := _startedAt n; _connected := _connected n;
     panner := panner n |}.

Definition with_source (s : option Source) (n : AudioItem) : AudioItem :=
  {| gain := gain n; detune := detune n; playbackRate := playbackRate n;
     isPlaying := isPlaying n; hasPlaybackControl := hasPlaybackControl n;
     source := s; _progress := _progress n;
     _startedAt := _startedAt n; _connected := _connected n;
     panner := panner n |}.

Definition with_panner (p : option Panner) (n : AudioItem) : AudioItem :=
  {| gain := gain n; detune := detune n; playbackRate := playbackRate n;
     isPlaying := isPlaying n; hasPlaybackControl := hasPlaybackControl n;
     source := source n; _progress := _progress n;
     _startedAt := _startedAt n; _connected := _connected n;
     panner := p |}.

(** [get volume] *)
Definition volume (n : AudioItem) : Q := value (gain n).

(** [set volume(v)] at clock time [now] *)
Definition set_volume (now v : Q) (n : AudioItem) : AudioItem :=
  with_gain (schedule (SetTargetAtTime v now (1 # 100)%Q) (gain n)) n.

(** [setPlaybackRate(v)]; the AudioParam of a running source is not tracked. *)
Definition setPlaybackRate (v : Q) (n : AudioItem) : AudioItem :=
  if hasPlaybackControl n then
    {| gain := gain n; detune := detune n; playbackRate := v;
       isPlaying := isPlaying n; hasPlaybackControl := hasPlaybackControl n;
       source := source n; _progress := _progress n;
       _startedAt := _startedAt n; _connected := _connected n;
       panner := panner n |}
  else n.

(** [setDetune(v)] *)
Definition setDetune (v : Q) (n : AudioItem) : AudioItem :=
  {| gain := gain n; detune := v; playbackRate := playbackRate n;
     isPlaying := isPlaying n; hasPlaybackControl := hasPlaybackControl n;
     source := source n; _progress := _progress n;
     _startedAt := _startedAt n; _connected := _connected n;
     panner := panner n |}.

(** [play()] with no delay at clock time [now]. *)
Definition play (now : Q) (n : AudioItem) : AudioItem :=
  if isPlaying n then n
  else if negb (hasPlaybackControl n) then n
  else
    {| gain := gain n; detune := detune n; playbackRate := playbackRate n;
       isPlaying := true; hasPlaybackControl := hasPlaybackControl n;
       source := Some {| startTime := (now + 0)%Q; stopTime := None;
                         onended := Some ItemOnEnded |};
       _progress := _progress n; _startedAt := (now + 0)%Q; _connected := true;
       panner := panner n |}.

(** [source.onended = h], guarded by [if (node.source)]. *)
Definition set_onended (h : option Handler) (n : AudioItem) : AudioItem :=
  match source n with
  | Some s => with_source (Some {| startTime := startTime s;
                                   stopTime := stopTime s;
                                   onended := h |}) n
  | None => n
  end.

(** [source.stop(when)], guarded by [if (node.source)]. *)
Definition source_stop (when : Q) (n : AudioItem) : AudioItem :=
  match source n with
  | Some s => with_source (Some {| startTime := startTime s;
                                   stopTime := Some when;
                                   onended := onended s |}) n
  | None => n
  end.

(** [stop(delay)] at clock time [now]. *)
Definition stop (now delay : Q) (n : AudioItem) : AudioItem :=
  if negb (hasPlaybackControl n) then n
  else
    {| gain := gain n; detune := detune n; playbackRate := playbackRate n;
       isPlaying := false; hasPlaybackControl := hasPlaybackControl n;
       source := match source n with
                 | Some s => Some {| startTime := startTime s;
                                     stopTime := Some (now + delay)%Q;
                                     onended := None |}
                 | None => None
                 end;
       _progress := 0; _startedAt := _startedAt n;
       _connected := _connected n; panner := panner n |}.

(** [disconnect()] *)
Definition disconnect (n : AudioItem) : AudioItem :=
  {| gain := gain n; detune := detune n; playbackRate := playbackRate n;
     isPlaying := isPlaying n; hasPlaybackControl := hasPlaybackControl n;
     source := source n; _progress := _progress n;
     _startedAt := _startedAt n; _connected := false;
     panner := panner n |}.

(** [onEnded()] *)
Definition onEnded (n : AudioItem) : AudioItem :=
  {| gain := gain n; detune := detune n; playbackRate := playbackRate n;
     isPlaying := false; hasPlaybackControl := hasPlaybackControl n;
     source := source n; _progress := 0;
     _startedAt := _startedAt n; _connected := _connected n;
     panner := panner n |}.

(** The distance and cone parameters of one [OneShotSpatialOptions] applied
    to a panner, as OneShotAudio.play does for the policy defaults and then
    for the per-call options. *)
Definition configure (o : OneShotSpatialOptions) (p : Panner) : Panner :=
  {| refDistance := JS.nullish (sp_refDistance o) (refDistance p);
     maxDistance := JS.nullish (sp_maxDistance o) (maxDistance p);
     rolloffFactor := JS.nullish (sp_rolloffFactor o) (rolloffFactor p);
     cone :=
       match sp_coneInnerAngle o, sp_coneOuterAngle o, sp_coneOuterGain o with
       | None, None, None => cone p
       | i, a, g => Some (default 360%Q i, default 360%Q a, default 0%Q g)
       end;
     position := position p |}.

(** [setPosition(pos)] of SpatialAudio: ignored while a controllable node
    is not playing. *)
Definition setPosition (pos : Q * Q * Q) (n : AudioItem) : AudioItem :=
  if hasPlaybackControl n && negb (isPlaying n) then n
  else
    match panner n with
    | Some p => with_panner (Some {| refDistance := refDistance p;
                                     maxDistance := maxDistance p;
                                     rolloffFactor := rolloffFactor p;
                                     cone := cone p;
                                     position := Some pos |}) n
    | None => n
    end.

End Item.

(** ** The controller state *)

(** A voice is identified by the index of its acceptance; a [Set] by its
    index in the store of sets. *)
Abbreviation VoiceId := nat.
Abbreviation SetId := nat.

(** The voice object [{ name, node, priority }], with the [Set] its
    [handleEnd] closure captured as [trackSet]. *)
Record Voice := {
  v_name : string;
  v_node : AudioItem;
  v_priority : option Q;
  v_trackSet : SetId
}.

(** What a completed call hands back: a value, or a thrown exception. *)
Inductive Completion (A : Type) : Type :=
| Return (a : A)
| Throw.
Arguments Return {A} a.
Arguments Throw {A}.

Record World := {
  (* the platform and the audio manager *)
  buffers : gset string;                (* names under which [loadAll] stored a buffer *)
  currentTime : Q;                      (* [context.currentTime] *)
  (* static fields of OneShotAudio *)
  manager : bool;                       (* [false]: [OneShotAudio.manager] is still null *)
  maxGlobalVoices : Q;                  (* [global.maxGlobalVoices] *)
  defaultPolicy : DefaultPolicy;        (* [global.defaultPolicy] *)
  trackPolicies : gmap string OneShotPolicy;
  active : list VoiceId;                (* a Set, in insertion order *)
  activeByTrack : gmap string SetId;    (* a Map from names to Set objects *)
  lastStartAt : gmap string Q;
  (* the objects allocated so far *)
  sets : gmap SetId (list VoiceId);
  voices : gmap VoiceId Voice;
  nextSet : SetId;
  nextVoice : VoiceId
}.

(** *** The buffers of the audio manager *)

(** [manager.buffers] is a plain object, so reading [buffers[name]] also
    finds what the object inherits.  These are the keys of
    [Object.prototype]; each holds a function, or for [__proto__] the
    prototype object itself. *)
Definition objectPrototypeKeys : list string :=
  ["constructor"; "hasOwnProperty"; "isPrototypeOf"; "propertyIsEnumerable";
   "toLocaleString"; "toString"; "valueOf"; "__proto__";
   "__defineGetter__"; "__defineSetter__"; "__lookupGetter__";
   "__lookupSetter__"]%string.

(** The assignment [buffers['__proto__'] = buffer] makes the buffer the
    prototype of [manager.buffers] instead of storing a property; reading
    [buffers[name]] then also reaches the properties of an AudioBuffer.  Its
    four attributes are read-only accessors that refuse a receiver which is
    not itself an AudioBuffer: reading one through [manager.buffers] throws.
    Its three methods are plain functions. *)
Definition audioBufferAttributes : list string :=
  ["sampleRate"; "length"; "duration"; "numberOfChannels"]%string.

Definition audioBufferMethods : list string :=
  ["getChannelData"; "copyFromChannel"; "copyToChannel"]%string.

(** How the expression [manager.buffers[name]] ends. *)
Inductive BufferLookup :=
| NoValue            (* [undefined] *)
| DecodedBuffer      (* an AudioBuffer that [loadAll] stored *)
| OtherValue         (* an inherited value, truthy but not an AudioBuffer *)
| Faults.            (* the read throws *)

Definition lookupBuffer (w : World) (name : string) : BufferLookup :=
  if decide (name ∈ buffers w) then DecodedBuffer
  else if decide (name ∈ objectPrototypeKeys) then OtherValue
  else if decide ("__proto__"%string ∈ buffers w) then
    if decide (name ∈ audioBufferAttributes) then Faults
    else if decide (name ∈ audioBufferMethods) then OtherValue
    else NoValue
  else NoValue.

(** Whether reading [manager.buffers[name]] throws. *)
Definition readFaults (w : World) (name : string) : bool :=
  match lookupBuffer w name with
  | Faults => true
  | _ => false
  end.

(** [!!manager.buffers[name]], where the read returns. *)
Definition hasValue (w : World) (name : string) : bool :=
  match lookupBuffer w name with
  | DecodedBuffer | OtherValue => true
  | NoValue | Faults => false
  end.

(** *** Sets in insertion order *)

(** [s.add(v)] *)
Definition set_add (v : VoiceId) (s : list VoiceId) : list VoiceId :=
  if decide (v ∈ s) then s else s ++ [v].

(** [s.delete(v)] *)
Definition set_delete (v : VoiceId) (s : list VoiceId) : list VoiceId :=
  filter (fun x => x ≠ v) s.

(** [s.values().next().value] *)
Definition set_first (s : list VoiceId) : option VoiceId := head s.

(** The members of the Set object [s]; a Set that was never written is empty. *)
Definition set_at (w : World) (s : SetId) : list VoiceId :=
  default [] (sets w !! s).

(** *** The platform *)

(** A world before the first [init]: no voice and no Set exists yet. *)
Definition boot (bufs : gset string) (t0 : Q) : World :=
  {| buffers := bufs; currentTime := t0; manager := false;
     maxGlobalVoices := 32;
     defaultPolicy := {| d_maxVoices := None; d_minInterval := None;
                         d_priority := None; d_stealStrategy := None;
                         d_stealFadeMs := None |};
     trackPolicies := ∅; active := []; activeByTrack := ∅; lastStartAt := ∅;
     sets := ∅; voices := ∅; nextSet := 0; nextVoice := 0 |}.

Definition with_voice (v : VoiceId) (vo : Voice) (w : World) : World :=
  {| buffers := buffers w; currentTime := currentTime w; manager := manager w;
     maxGlobalVoices := maxGlobalVoices w; defaultPolicy := defaultPolicy w;
     trackPolicies := trackPolicies w; active := active w;
     activeByTrack := activeByTrack w; lastStartAt := lastStartAt w;
     sets := sets w; voices := <[v := vo]> (voices w);
     nextSet := nextSet w; nextVoice := nextVoice w |}.

Definition with_node (n : AudioItem) (vo : Voice) : Voice :=
  {| v_name := v_name vo; v_node := n; v_priority := v_priority vo;
     v_trackSet := v_trackSet vo |}.

(** * OneShotAudio *)

(** [OneShotAudio.init({ audioManager, global, tracks })].  The registry is
    replaced; objects created under an earlier registry stay where they are. *)
Definition init (cfg : OneShotInitConfig) (w : World) : World :=
  let dp := default emptyPolicy (cfg_defaultPolicy (cfg_global cfg)) in
  {| buffers := buffers w; currentTime := currentTime w; manager := true;
     maxGlobalVoices := default 32%Q (cfg_maxGlobalVoices (cfg_global cfg));
     defaultPolicy :=
       {| d_maxVoices := JS.spread 8%Q (maxVoices dp);
          d_minInterval := JS.spread (2 # 100)%Q (minInterval dp);
          d_priority := JS.spread 0%Q (priority dp);
          d_stealStrategy := JS.spread "ignore"%string (stealStrategy dp);
          d_stealFadeMs := JS.spread 120%Q (stealFadeMs dp) |};
     trackPolicies := cfg_tracks cfg;
     active := []; activeByTrack := ∅; lastStartAt := ∅;
     sets := sets w; voices := voices w;
     nextSet := nextSet w; nextVoice := nextVoice w |}.

(** [OneShotAudio.getPolicy(name)].  A key that [trackPolicies] inherits
    holds a function or the prototype object, which has none of the policy
    fields: it reads as the empty policy does. *)
Definition getPolicy (w : World) (name : string) : Policy :=
  let p := default emptyPolicy (trackPolicies w !! name) in
  let d := defaultPolicy w in
  {| pol_maxVoices := JS.nullish (JS.read (maxVoices p)) (d_maxVoices d);
     pol_minInterval := JS.nullish (JS.read (minInterval p)) (d_minInterval d);
     pol_priority := JS.nullish (JS.read (priority p)) (d_priority d);
     pol_stealStrategy :=
       JS.nullish (JS.read (stealStrategy p)) (d_stealStrategy d);
     pol_stealFadeMs :=
       default 120%Q (JS.nullish (JS.read (stealFadeMs p)) (d_stealFadeMs d));
     pol_spatialDefaults := JS.read (spatialDefaults p) |}.

(** [OneShotAudio.getActiveCount(name)]; [None] is a call without argument.
    The test [!name] also holds for the empty string. *)
Definition getActiveCount (w : World) (name : option string) : nat :=
  match name with
  | None => length (active w)
  | Some n =>
      if decide (n = EmptyString) then length (active w)
      else match activeByTrack w !! n with
           | Some s => length (set_at w s)
           | None => 0
           end
  end.

(** [v.priority ?? 0] and [v.node.volume ?? 1] of a member of a Set. *)
Definition priorityOf (w : World) (v : VoiceId) : Q :=
  default 0%Q (vo ← voices w !! v; v_priority vo).

Definition volumeOf (w : World) (v : VoiceId) : Q :=
  default 1%Q (Item.volume ∘ v_node <$> voices w !! v).

(** [pr * -1000 + vol] *)
Definition score (w : World) (v : VoiceId) : Q :=
  (priorityOf w v * -1000 + volumeOf w v)%Q.

(** The loop of the 'stealQuietest' branch; [minScore = None] is [Infinity]. *)
Fixpoint quietest (w : World) (vs : list VoiceId)
    (minScore : option Q) (victim : option VoiceId) : option VoiceId :=
  match vs with
  | [] => victim
  | v :: rest =>
      let sc := score w v in
      if match minScore with
         | None => true
         | Some m => JS.lt sc m
         end
      then quietest w rest (Some sc) (Some v)
      else quietest w rest minScore victim
  end.

(** The closure [pickVictim] of [_ensureCapacity]. *)
Definition pickVictim (w : World) (strategy : option string)
    (trackSet : SetId) : option VoiceId :=
  if decide (strategy = Some "stealOldest"%string) then
    match set_first (set_at w trackSet) with
    | Some v => Some v
    | None => set_first (active w)
    end
  else if decide (strategy = Some "stealQuietest"%string) then
    quietest w (active w) None None
  else None.

(** The registry once [victim] (a voice named [n]) is deleted from [active]
    and from the Set registered under its name. *)
Definition unregister (victim : VoiceId) (n : string) (w : World)
    : list VoiceId * gmap string SetId * gmap SetId (list VoiceId) :=
  let act := set_delete victim (active w) in
  match activeByTrack w !! n with
  | Some vs =>
      let members := set_delete victim (set_at w vs) in
      (act,
       if decide (length members = 0) then delete n (activeByTrack w)
       else activeByTrack w,
       <[vs := members]> (sets w))
  | None => (act, activeByTrack w, sets w)
  end.

(** The fade of the victim's gain: from its current value at [t] to zero at
    [stopAt]. *)
Definition fadeOut (t stopAt : Q) (n : AudioItem) : AudioItem :=
  let g := cancelScheduledValues t (gain n) in
  let g := schedule (SetValueAtTime (value g) t) g in
  let g := schedule (LinearRampToValueAtTime 0 stopAt) g in
  Item.with_gain g n.

(** [Math.max(0, policy.stealFadeMs || 0)] *)
Definition fadeMs (policy : Policy) : Q :=
  JS.max 0 (JS.or_zero (pol_stealFadeMs policy)).

(** [stopAt = t + fadeMs / 1000] at clock time [t]. *)
Definition stopAt (t : Q) (policy : Policy) : Q := (t + fadeMs policy / 1000)%Q.

(** What the eviction does to the victim's node at clock time [t]: the fade,
    then [onended = cleanup] and [stop(stopAt - t > 0 ? stopAt - t : 0)]. *)
Definition evictedNode (t : Q) (policy : Policy) (n : AudioItem) : AudioItem :=
  let n1 := fadeOut t (stopAt t policy) n in
  let n2 := Item.set_onended (Some Cleanup) n1 in
  let delay :=
    if JS.lt 0 (stopAt t policy - t) then (stopAt t policy - t)%Q else 0%Q in
  Item.stop t delay n2.

(** The eviction that ends [_ensureCapacity]: fade the victim, free its slot
    in both registries, then stop its node at the end of the fade. *)
Definition evict (w : World) (policy : Policy) (victim : VoiceId) (vo : Voice)
    : World :=
  let '(act, byTrack, ss) := unregister victim (v_name vo) w in
  {| buffers := buffers w; currentTime := currentTime w; manager := manager w;
     maxGlobalVoices := maxGlobalVoices w; defaultPolicy := defaultPolicy w;
     trackPolicies := trackPolicies w;
     active := act; activeByTrack := byTrack; lastStartAt := lastStartAt w;
     sets := ss;
     voices :=
       <[victim := with_node (evictedNode (currentTime w) policy (v_node vo))
                             vo]> (voices w);
     nextSet := nextSet w; nextVoice := nextVoice w |}.

(** [this.active.size >= this.global.maxGlobalVoices] *)
Definition globalFull (w : World) : bool :=
  JS.ge (inject_Z (Z.of_nat (length (active w)))) (maxGlobalVoices w).

(** [trackSet.size >= policy.maxVoices] *)
Definition trackFull (w : World) (policy : Policy) (trackSet : SetId) : bool :=
  JS.ge_opt (inject_Z (Z.of_nat (length (set_at w trackSet))))
            (pol_maxVoices policy).

(** [OneShotAudio._ensureCapacity(policy, trackSet, newPriority)] *)
Definition _ensureCapacity (w : World) (policy : Policy) (trackSet : SetId)
    (newPriority : option Q) : bool * World :=
  if negb (globalFull w) && negb (trackFull w policy trackSet) then (true, w)
  else
  let strategy := pol_stealStrategy policy in
  if decide (strategy = Some "ignore"%string) then (false, w) else
  match pickVictim w strategy trackSet with
  | None => (false, w)
  | Some victim =>
      if JS.lt (default 0%Q newPriority) (priorityOf w victim) then (false, w)
      else
        match voices w !! victim with
        | None => (false, w)  (* no Set holds anything but a voice object *)
        | Some vo => (true, evict w policy victim vo)
        end
  end.

(** The closure [handleEnd] that [play] creates for voice [v]: it holds the
    voice, its node, its name and the Set [trackSet] that [play] looked up. *)
Definition handleEnd (v : VoiceId) (w : World) : World :=
  match voices w !! v with
  | None => w
  | Some vo =>
      let n1 := Item.disconnect (v_node vo) in
      let act := set_delete v (active w) in
      let members := set_delete v (set_at w (v_trackSet vo)) in
      let byTrack :=
        if decide (length members = 0) then delete (v_name vo) (activeByTrack w)
        else activeByTrack w in
      let n2 := Item.set_onended None n1 in
      {| buffers := buffers w; currentTime := currentTime w;
         manager := manager w;
         maxGlobalVoices := maxGlobalVoices w;
         defaultPolicy := defaultPolicy w; trackPolicies := trackPolicies w;
         active := act; activeByTrack := byTrack;
         lastStartAt := lastStartAt w;
         sets := <[v_trackSet vo := members]> (sets w);
         voices := <[v := with_node n2 vo]> (voices w);
         nextSet := nextSet w; nextVoice := nextVoice w |}
  end.

(** The closure [cleanup] that [_ensureCapacity] creates for a victim. *)
Definition cleanup (v : VoiceId) (w : World) : World :=
  match voices w !! v with
  | None => w
  | Some vo =>
      with_voice v
        (with_node (Item.set_onended None (Item.disconnect (v_node vo))) vo) w
  end.

(** [now - last < minInt], where [last] is [-Infinity] for a track that has
    no entry and [minInt] may be [undefined].  The difference is the one the
    code computes, in doubles: here the rounding of a difference of two
    clock readings decides whether a call is accepted. *)
Definition tooSoon (now : Q) (last minInt : option Q) : bool :=
  match last, minInt with
  | Some l, Some m => JS.lt (JS.sub now l) (JS.double m)
  | _, _ => false
  end.

(** The node [play] builds and starts, up to the registration of the voice. *)
Definition startNode (now : Q) (policy : Policy) (options : OneShotOptions)
    : AudioItem :=
  let isSpatial := bool_decide (is_Some (opt_spatial options)) in
  let n := Item.create isSpatial in
  let n := from_option (fun x => Item.set_volume now x n) n (opt_volume options) in
  let n := from_option (fun x => Item.setPlaybackRate x n) n
             (opt_playbackRate options) in
  let n := from_option (fun x => Item.setDetune x n) n (opt_detune options) in
  let n :=
    match opt_spatial options, panner n with
    | Some sp, Some p =>
        let p := from_option (fun sd => Item.configure sd p) p
                   (pol_spatialDefaults policy) in
        Item.with_panner (Some (Item.configure sp p)) n
    | _, _ => n
    end in
  let desiredPosition := sp ← opt_spatial options; sp_position sp in
  let n := Item.play now n in
  from_option (fun pos => Item.setPosition pos n) n desiredPosition.

(** The tail of [play] once capacity is granted: build and start the node,
    stamp [lastStartAt], register the voice and hook [handleEnd]. *)
Definition registerVoice (w : World) (name : string) (options : OneShotOptions)
    (policy : Policy) (now : Q) (trackSet : SetId) : VoiceId * World :=
  let n := startNode now policy options in
  let voice := nextVoice w in
  let n := Item.set_onended (Some HandleEnd) n in
  let n :=
    from_option
      (fun d => Item.source_stop (currentTime w + JS.max 0 d)%Q n) n
      (opt_duration options) in
  (voice,
   {| buffers := buffers w; currentTime := currentTime w; manager := manager w;
      maxGlobalVoices := maxGlobalVoices w;
      defaultPolicy := defaultPolicy w; trackPolicies := trackPolicies w;
      active := set_add voice (active w);
      activeByTrack := <[name := trackSet]> (activeByTrack w);
      lastStartAt := <[name := now]> (lastStartAt w);
      sets := <[trackSet := set_add voice (set_at w trackSet)]> (sets w);
      voices :=
        <[voice := {| v_name := name; v_node := n;
                      v_priority :=
                        JS.nullish (opt_priority options) (pol_priority policy);
                      v_trackSet := trackSet |}]> (voices w);
      nextSet := Nat.max (nextSet w) (S trackSet);
      nextVoice := S voice |}).

(** [activeByTrack.get(name) || new Set()]: a new Set takes the next address
    and enters the store when it is first written. *)
Definition trackSetOf (w : World) (name : string) : SetId :=
  default (nextSet w) (activeByTrack w !! name).

(** [options.priority ?? policy.priority] *)
Definition resolvedPriority (w : World) (name : string)
    (options : OneShotOptions) : option Q :=
  JS.nullish (opt_priority options) (pol_priority (getPolicy w name)).

(** [options.minIntervalOverride ?? policy.minInterval] *)
Definition effectiveMinInterval (w : World) (name : string)
    (options : OneShotOptions) : option Q :=
  JS.nullish (opt_minIntervalOverride options)
             (pol_minInterval (getPolicy w name)).

(** [OneShotAudio.play(name, options)] *)
Definition play (w : World) (name : string) (options : OneShotOptions)
    : Completion (option VoiceId) * World :=
  if negb (manager w) then (Throw, w) else
  if readFaults w name then (Throw, w) else
  if negb (hasValue w name) then (Return None, w) else
  let policy := getPolicy w name in
  let now := currentTime w in
  let last := lastStartAt w !! name in
  let minInt := effectiveMinInterval w name options in
  if tooSoon now last minInt then (Return None, w) else
  let trackSet := trackSetOf w name in
  match
    _ensureCapacity w policy trackSet (resolvedPriority w name options)
  with
  | (false, w1) => (Return None, w1)
  | (true, w1) =>
      if bool_decide (name ∈ buffers w) then
        let '(voice, w2) :=
          registerVoice w1 name options policy now trackSet in
        (Return (Some voice), w2)
      else
        (* [source.buffer = this.buffer] in AudioItem.play refuses a value
           that is not an AudioBuffer: a TypeError leaves [play] before the
           voice is registered *)
        (Throw, w1)
  end.

(** ** Runs *)

(** What can happen to the controller: calls of its methods, and the
    platform advancing the clock, reporting a gain value, storing a decoded
    buffer or delivering the [ended] notification of a voice's source. *)
Inductive Event :=
| EInit (cfg : OneShotInitConfig)
| EPlay (name : string) (options : OneShotOptions)
| EEnded (v : VoiceId)
| ETick (t : Q)
| EGain (v : VoiceId) (x : Q)
| ELoad (name : string).

(** The [ended] notification of [v]'s source runs whatever [onended] holds. *)
Definition ended (v : VoiceId) (w : World) : World :=
  match voices w !! v with
  | None => w
  | Some vo =>
      match source (v_node vo) with
      | None => w
      | Some s =>
          match onended s with
          | None => w
          | Some HandleEnd => handleEnd v w
          | Some Cleanup => cleanup v w
          | Some ItemOnEnded => with_voice v (with_node (Item.onEnded (v_node vo)) vo) w
          end
      end
  end.

Definition tick (t : Q) (w : World) : World :=
  {| buffers := buffers w;
     currentTime := if Qle_bool (currentTime w) t then t else currentTime w;
     manager := manager w;
     maxGlobalVoices := maxGlobalVoices w; defaultPolicy := defaultPolicy w;
     trackPolicies := trackPolicies w; active := active w;
     activeByTrack := activeByTrack w; lastStartAt := lastStartAt w;
     sets := sets w; voices := voices w;
     nextSet := nextSet w; nextVoice := nextVoice w |}.

Definition reportGain (v : VoiceId) (x : Q) (w : World) : World :=
  match voices w !! v with
  | None => w
  | Some vo =>
      with_voice v
        (with_node (Item.with_gain {| value := x;
                                      events := events (gain (v_node vo)) |}
                                   (v_node vo)) vo) w
  end.

(** [this.buffers[name] = buffer] in [loadAll].  The assignment to a
    read-only attribute that [manager.buffers] inherits throws and stores
    nothing. *)
Definition load (name : string) (w : World) : World :=
  {| buffers :=
       if decide ("__proto__"%string ∈ buffers w ∧ (name ∉ buffers w) ∧
                  name ∈ audioBufferAttributes)
       then buffers w else {[name]} ∪ buffers w;
     currentTime := currentTime w;
     manager := manager w;
     maxGlobalVoices := maxGlobalVoices w; defaultPolicy := defaultPolicy w;
     trackPolicies := trackPolicies w; active := active w;
     activeByTrack := activeByTrack w; lastStartAt := lastStartAt w;
     sets := sets w; voices := voices w;
     nextSet := nextSet w; nextVoice := nextVoice w |}.

Definition step (w : World) (e : Event) : World :=
  match e with
  | EInit cfg => init cfg w
  | EPlay name options => snd (play w name options)
  | EEnded v => ended v w
  | ETick t => tick t w
  | EGain v x => reportGain v x w
  | ELoad name => load name w
  end.

Definition run (w : World) (es : list Event) : World := foldl step w es.

Definition isInit (e : Event) : bool :=
  match e with
  | EInit _ => true
  | _ => false
  end.

(** A world reached under one registry: [init] once on a fresh platform,
    then any events but another [init]. *)
Definition reachable (w : World) : Prop :=
  ∃ bufs t0 cfg es,
    forallb (fun e => negb (isInit e)) es = true ∧
    w = run (init cfg (boot bufs t0)) es.

(** A world reached by any events at all, re-initialisation included. *)
Definition reachable_reinit (w : World) : Prop :=
  ∃ bufs t0 es, w = run (boot bufs t0) es.

(** ** The registry invariant *)

(** [v.name] of an allocated voice. *)
Definition nameOf (w : World) (v : VoiceId) : option string :=
  v_name <$> voices w !! v.

(** The state of the registry under one [init]: the two registries list the
    same voices, each under the Set its [handleEnd] closure holds, in order of
    acceptance; a voice whose source still reports to [handleEnd] is
    registered. *)
Record Inv (w : World) : Prop := {
  inv_ready : manager w = true;
  inv_active_sorted : StronglySorted lt (active w);
  inv_active : ∀ v, v ∈ active w →
    ∃ vo, voices w !! v = Some vo ∧
          activeByTrack w !! v_name vo = Some (v_trackSet vo) ∧
          v ∈ set_at w (v_trackSet vo);
  inv_track : ∀ n s, activeByTrack w !! n = Some s →
    s < nextSet w ∧ set_at w s ≠ [] ∧ StronglySorted lt (set_at w s) ∧
    ∀ v, v ∈ set_at w s → v ∈ active w ∧ nameOf w v = Some n;
  inv_voices : ∀ v vo, voices w !! v = Some vo →
    v < nextVoice w ∧ hasPlaybackControl (v_node vo) = true ∧
    ∃ s, source (v_node vo) = Some s ∧
         (onended s = Some HandleEnd → v ∈ active w);
  inv_sets : ∀ s : SetId, nextSet w ≤ s → sets w !! s = None
}.

(** The world once voice [v] (with record [vo]) has left both registries and
    its node has become [n]; [handleEnd] and [evict] both end here. *)
Definition removed (w : World) (v : VoiceId) (vo : Voice) (n : AudioItem)
    : World :=
  let members := set_delete v (set_at w (v_trackSet vo)) in
  {| buffers := buffers w; currentTime := currentTime w; manager := manager w;
     maxGlobalVoices := maxGlobalVoices w; defaultPolicy := defaultPolicy w;
     trackPolicies := trackPolicies w;
     active := set_delete v (active w);
     activeByTrack :=
       if decide (length members = 0) then delete (v_name vo) (activeByTrack w)
       else activeByTrack w;
     lastStartAt := lastStartAt w;
     sets := <[v_trackSet vo := members]> (sets w);
     voices := <[v := with_node n vo]> (voices w);
     nextSet := nextSet w; nextVoice := nextVoice w |}.

(** The Set [ts] that [play] holds for track [name] between its lookup and
    the registration: either the Set registered under [name], or an empty
    Set that no track is registered with. *)
Definition Slot (w : World) (name : string) (ts : SetId) : Prop :=
  activeByTrack w !! name = Some ts ∨
  (activeByTrack w !! name = None ∧ set_at w ts = [] ∧ ts ≤ nextSet w ∧
   ∀ n, activeByTrack w !! n ≠ Some ts).

(** The sum of the sizes of the per-track Sets. *)
Definition trackTotal (w : World) : nat :=
  sum_list ((fun p => length (set_at w p.2)) <$> map_to_list (activeByTrack w)).

(** The tracks that have a registered Set. *)
Definition activeTracks (w : World) : list string :=
  (map_to_list (activeByTrack w)).*1.

(** The sum of [getActiveCount(t)] over those tracks. *)
Definition countTotal (w : World) : nat :=
  sum_list ((fun n => getActiveCount w (Some n)) <$> activeTracks w).

(** ** Auxiliary notions for the statements *)

(** Two worlds with the same platform readings and the same configuration. *)
Definition sameSetup (w w' : World) : Prop :=
  buffers w' = buffers w ∧ currentTime w' = currentTime w ∧
  manager w' = manager w ∧ maxGlobalVoices w' = maxGlobalVoices w ∧
  defaultPolicy w' = defaultPolicy w ∧ trackPolicies w' = trackPolicies w.

(** The merge of one field as the specification words it: the track's value
    when present, else the default policy's value, else the fallback. *)
Definition mergeField {A} (track global : JS.prop A) (fallback : A) : A :=
  match JS.read track with
  | Some x => x
  | None =>
      match JS.read global with
      | Some y => y
      | None => fallback
      end
  end.


(** ** Example configurations and runs *)

(** [init({ audioManager })] *)
Definition plainConfig : OneShotInitConfig :=
  {| cfg_global := {| cfg_maxGlobalVoices := None; cfg_defaultPolicy := None |};
     cfg_tracks := ∅ |}.

(** [{ priority: q }] as the options of a [play]. *)
Definition withPriority (q : Q) : OneShotOptions :=
  {| opt_volume := None; opt_playbackRate := None; opt_detune := None;
     opt_spatial := None; opt_priority := Some q;
     opt_minIntervalOverride := None; opt_duration := None |}.

(** [init({ audioManager, global: { maxGlobalVoices: n, defaultPolicy:
    { minInterval: 0, stealStrategy: strategy } } })] *)
Definition stealingConfig (n : Q) (strategy : string) : OneShotInitConfig :=
  {| cfg_global :=
       {| cfg_maxGlobalVoices := Some n;
          cfg_defaultPolicy :=
            Some {| maxVoices := JS.Absent; minInterval := JS.Val 0%Q;
                    priority := JS.Absent; stealStrategy := JS.Val strategy;
                    stealFadeMs := JS.Absent;
                    spatialDefaults := JS.Absent |} |};
     cfg_tracks := ∅ |}.

(** Three voices of track "a" with priorities 2, 2, 1 whose gains have
    settled at 0.9, 0.1 and 1.0, under 'stealQuietest' with the global limit
    of three reached. *)
Definition threeVoices : World :=
  run (init (stealingConfig 3 "stealQuietest") (boot {["a"%string]} 0))
      [EPlay "a" (withPriority 2); EPlay "a" (withPriority 2);
       EPlay "a" (withPriority 1);
       EGain 0 (9 # 10); EGain 1 (1 # 10); EGain 2 1].

(** Two voices of track "a" with priority 2 and gains 0.9 and 0.1, under
    'stealQuietest' with the global limit of two reached. *)
Definition twoVoices : World :=
  run (init (stealingConfig 2 "stealQuietest") (boot {["a"%string]} 0))
      [EPlay "a" (withPriority 2); EPlay "a" (withPriority 2);
       EGain 0 (9 # 10); EGain 1 (1 # 10)].

(** A buffer stored under the empty name (as [loadAll] does for the file
    ".mp3") and one under "a", each played once. *)
Definition emptyNameRun : World :=
  run (init plainConfig (boot {[EmptyString; "a"%string]} 0))
      [EPlay EmptyString noOptions; EPlay "a" noOptions].

(** A voice of an earlier registry ends after the controller was initialised
    again and track "a" was played under the new registry. *)
Definition reinitRun : World :=
  run (boot {["a"%string]} 0)
      [EInit plainConfig; EPlay "a" noOptions;
       EInit plainConfig; EPlay "a" noOptions; EEnded 0].

(** As [reinitRun] under 'stealOldest' with the global limit of two, and
    track "a" played once more: voice 1, accepted under the new registry
    before voice 0 ended, and voice 2, accepted after. *)
Definition reinitStealRun : World :=
  run (boot {["a"%string]} 0)
      [EInit (stealingConfig 2 "stealOldest"); EPlay "a" noOptions;
       EInit (stealingConfig 2 "stealOldest"); EPlay "a" noOptions;
       EEnded 0; EPlay "a" noOptions].

(** [init({ audioManager, global: { defaultPolicy: { maxVoices: undefined } } })] *)
Definition undefinedMaxVoices : OneShotInitConfig :=
  {| cfg_global :=
       {| cfg_maxGlobalVoices := None;
          cfg_defaultPolicy :=
            Some {| maxVoices := JS.Undefined; minInterval := JS.Absent;
                    priority := JS.Absent; stealStrategy := JS.Absent;
                    stealFadeMs := JS.Absent;
                    spatialDefaults := JS.Absent |} |};
     cfg_tracks := ∅ |}.

(** Track "a" limited to one voice under 'stealQuietest', track "b" under
    the defaults; "b" is played, then "a". *)
Definition crossTrackConfig : OneShotInitConfig :=
  {| cfg_global := {| cfg_maxGlobalVoices := None; cfg_defaultPolicy := None |};
     cfg_tracks :=
       {[ "a"%string :=
            {| maxVoices := JS.Val 1%Q; minInterval := JS.Val 0%Q;
               priority := JS.Absent;
               stealStrategy := JS.Val "stealQuietest"%string;
               stealFadeMs := JS.Absent; spatialDefaults := JS.Absent |} ]} |}.

Definition crossTrackRun : World :=
  run (init crossTrackConfig (boot {["a"%string; "b"%string]} 0))
      [EPlay "b" noOptions; EPlay "a" noOptions].

(** Two voices of track "a" under 'stealOldest' with the global limit of two
    reached. *)
Definition oldestRun : World :=
  run (init (stealingConfig 2 "stealOldest") (boot {["a"%string]} 0))
      [EPlay "a" noOptions; EPlay "a" noOptions].

(** Track "a" limited to two voices under the default strategy 'ignore'. *)
Definition ignoreConfig : OneShotInitConfig :=
  {| cfg_global := {| cfg_maxGlobalVoices := None; cfg_defaultPolicy := None |};
     cfg_tracks :=
       {[ "a"%string :=
            {| maxVoices := JS.Val 2%Q; minInterval := JS.Absent;
               priority := JS.Absent; stealStrategy := JS.Absent;
               stealFadeMs := JS.Absent; spatialDefaults := JS.Absent |} ]} |}.




(** Track "a" limited to two voices under 'stealOldest'; three calls, one
    second apart. *)
Definition oldestTrackConfig : OneShotInitConfig :=
  {| cfg_global := {| cfg_maxGlobalVoices := None; cfg_defaultPolicy := None |};
     cfg_tracks :=
       {[ "a"%string :=
            {| maxVoices := JS.Val 2%Q; minInterval := JS.Absent;
               priority := JS.Absent;
               stealStrategy := JS.Val "stealOldest"%string;
               stealFadeMs := JS.Absent; spatialDefaults := JS.Absent |} ]} |}.

Definition oldestTrackRun : World :=
  run (init oldestTrackConfig (boot {["a"%string]} 0))
      [EPlay "a" noOptions; ETick 1; EPlay "a" noOptions; ETick 2;
       EPlay "a" noOptions].

(** Track "a" with a cone of 30/60 degrees and outer gain 0.5 among its
    spatial defaults, and a call that names a position and the inner angle 45
    only. *)
Definition coneConfig : OneShotInitConfig :=
  {| cfg_global := {| cfg_maxGlobalVoices := None; cfg_defaultPolicy := None |};
     cfg_tracks :=
       {[ "a"%string :=
            {| maxVoices := JS.Absent; minInterval := JS.Absent;
               priority := JS.Absent; stealStrategy := JS.Absent;
               stealFadeMs := JS.Absent;
               spatialDefaults :=
                 JS.Val {| sp_position := None; sp_refDistance := Some 20%Q;
                           sp_maxDistance := None; sp_rolloffFactor := None;
                           sp_coneInnerAngle := Some 30%Q;
                           sp_coneOuterAngle := Some 60%Q;
                           sp_coneOuterGain := Some (1 # 2)%Q |} |} ]} |}.

Definition innerAngleOnly : OneShotSpatialOptions :=
  {| sp_position := Some (1, 2, 3)%Q; sp_refDistance := None;
     sp_maxDistance := None; sp_rolloffFactor := None;
     sp_coneInnerAngle := Some 45%Q; sp_coneOuterAngle := None;
     sp_coneOuterGain := None |}.

Definition coneCall : OneShotOptions :=
  {| opt_volume := None; opt_playbackRate := None; opt_detune := None;
     opt_spatial := Some innerAngleOnly; opt_priority := None;
     opt_minIntervalOverride := None; opt_duration := None |}.

(** ** Further notions *)

(** The size of the Set [play] would look up for [name]. *)
Definition trackCount (w : World) (name : string) : nat :=
  length (set_at w (trackSetOf w name)).

(** The active voices whose [name] is [n], in the order of the global set. *)
Definition namedActive (w : World) (n : string) : list VoiceId :=
  filter (fun v => nameOf w v = Some n) (active w).

(** The nodes of the registered voices: connected, their source reporting to
    [handleEnd]. *)
Definition Live (w : World) : Prop :=
  ∀ v vo, voices w !! v = Some vo → v ∈ active w →
    _connected (v_node vo) = true ∧
    ∃ s, source (v_node vo) = Some s ∧ onended s = Some HandleEnd.

(** A voice that is out of the global set while its node is still connected
    and its source has no [ended] handler. *)
Definition Stolen (w : World) (v : VoiceId) : Prop :=
  (v ∉ active w) ∧
  ∃ vo s, voices w !! v = Some vo ∧ _connected (v_node vo) = true ∧
          source (v_node vo) = Some s ∧ onended s = None.

(** [voice.node.stop(delay)] called by the holder of the voice object that
    [play] returned. *)
Definition stopVoice (v : VoiceId) (delay : Q) (w : World) : World :=
  match voices w !! v with
  | None => w
  | Some vo =>
      with_voice v
        (with_node (Item.stop (currentTime w) delay (v_node vo)) vo) w
  end.

(** The source of voice [v] has no [ended] handler. *)
Definition NoHandler (w : World) (v : VoiceId) : Prop :=
  ∃ vo s, voices w !! v = Some vo ∧ source (v_node vo) = Some s ∧
          onended s = None.

Definition isPlay (e : Event) : bool :=
  match e with
  | EPlay _ _ => true
  | _ => false
  end.

(** * AudioManager *)

(** The [config] argument of [AudioManager.get]. *)
Record AudioConfig := {
  c_loop : option bool;
  c_volume : option Q;
  c_playbackRate : option Q;
  c_refDistance : option Q;
  c_rolloffFactor : option Q;
  c_distanceModel : option string;
  c_position : option (Q * Q * Q)
}.

(** A configuration that names a position, as in the example of the
    class. *)
Definition positionedConfig : AudioConfig :=
  {| c_loop := None; c_volume := None; c_playbackRate := None;
     c_refDistance := Some 20%Q; c_rolloffFactor := Some 1%Q;
     c_distanceModel := Some "inverse"%string;
     c_position := Some (0, 0, -10)%Q |}.

Module Manager.

(** [has(name)] *)
Definition has (w : World) (name : string) : Completion bool :=
  if readFaults w name then Throw else Return (hasValue w name).

(** [get(name, config, spatial)] at the clock reading of [w]; [None] is
    null.  The node record carries neither the [loop] flag nor the distance
    model, which no method modelled here reads, nor the buffer: for a name
    that [manager.buffers] only inherits the node holds a value that is no
    AudioBuffer, and its [play()] throws and leaves the node as it is. *)
Definition get (w : World) (name : string) (config : AudioConfig)
    (spatial : bool) : Completion (option AudioItem) :=
  if readFaults w name then Throw else
  if negb (hasValue w name) then Return None else
  let n := Item.create spatial in
  let n := from_option (fun v => Item.set_volume (currentTime w) v n) n
             (c_volume config) in
  let n :=
    from_option
      (fun r =>
         {| gain := gain n; detune := detune n; playbackRate := r;
            isPlaying := isPlaying n;
            hasPlaybackControl := hasPlaybackControl n;
            source := source n; _progress := _progress n;
            _startedAt := _startedAt n; _connected := _connected n;
            panner := panner n |}) n (c_playbackRate config) in
  if spatial then
    let n :=
      match panner n with
      | Some p =>
          Item.with_panner
            (Some {| refDistance :=
                       JS.nullish (c_refDistance config) (refDistance p);
                     maxDistance := maxDistance p;
                     rolloffFactor :=
                       JS.nullish (c_rolloffFactor config) (rolloffFactor p);
                     cone := cone p; position := position p |}) n
      | None => n
      end in
    Return
      (Some (from_option (fun pos => Item.setPosition pos n) n
                         (c_position config)))
  else Return (Some n).

(** Whether [s] holds no dot. *)
Fixpoint dotFree (s : string) : bool :=
  match s with
  | EmptyString => true
  | String c rest => negb (Ascii.eqb c "."%char) && dotFree rest
  end.

Fixpoint slashFree (s : string) : bool :=
  match s with
  | EmptyString => true
  | String c rest => negb (Ascii.eqb c "/"%char) && slashFree rest
  end.

(** Whether the pattern [\.[^.]+$] matches the string [String c rest] at
    its first character: a dot, then one or more characters other than a dot
    up to the end. *)
Definition extensionAt (c : ascii) (rest : string) : bool :=
  Ascii.eqb c "."%char &&
  match rest with
  | EmptyString => false
  | _ => dotFree rest
  end.

(** [file.replace(/\.[^.]+$/, '')]: the leftmost match, if any, is cut. *)
Fixpoint stripExtension (file : string) : string :=
  match file with
  | EmptyString => EmptyString
  | String c rest =>
      if extensionAt c rest then EmptyString
      else String c (stripExtension rest)
  end.

(** [pathname.split('/').pop()] *)
Fixpoint lastSegment (pathname : string) : string :=
  match pathname with
  | EmptyString => EmptyString
  | String c rest =>
      if slashFree rest
      then (if Ascii.eqb c "/"%char then rest else pathname)
      else lastSegment rest
  end.

(** The name [loadAll] stores a buffer under, from the path of its URL. *)
Definition nameOfPath (pathname : string) : string :=
  stripExtension (lastSegment pathname).

(** [this.buffers[name] = buffer] on the object as a map from names to
    buffers (the entry of '__proto__' being the prototype that was assigned);
    [None] when the assignment throws, as it does for a read-only attribute
    that [this.buffers] inherits. *)
Definition assign (name : string) (buffer : nat) (bufs : gmap string nat)
    : option (gmap string nat) :=
  if decide (is_Some (bufs !! "__proto__"%string) ∧ bufs !! name = None ∧
             name ∈ audioBufferAttributes)
  then None else Some (<[name := buffer]> bufs).

(** The [forEach] of [loadAll] over the loaded files, each given by the
    path of its URL and its decoded buffer.  [None] when an assignment
    throws in the [try] block: the [catch] block then takes the name from
    the URL string, which is not carried here. *)
Definition storeResults (results : list (string * nat))
    (bufs : gmap string nat) : option (gmap string nat) :=
  foldl (fun b r => b ≫= assign (nameOfPath r.1) r.2) (Some bufs) results.

End Manager.

(** * The audio graph *)

(** The nodes that the library wires: the gain of the listener and the
    destination of the context; the filter nodes handed to [setFilter] or
    [setFilters]; the source of an AudioItem and its output node. *)
Inductive GraphNode :=
| MasterGain
| Destination
| FilterNode (id : nat)
| SourceNode (id : nat)
| OutputNode.

#[global] Instance GraphNode_eq_dec : EqDecision GraphNode.
Proof. solve_decision. Defined.

Module Graph.

(** [a.connect(b)]: connecting twice makes one connection. *)
Definition connect (e : GraphNode * GraphNode)
    (edges : list (GraphNode * GraphNode)) : list (GraphNode * GraphNode) :=
  if decide (e ∈ edges) then edges else edges ++ [e].

(** [a.disconnect(b)]: throws ([None]) when [a] is not connected to [b]. *)
Definition disconnect (e : GraphNode * GraphNode)
    (edges : list (GraphNode * GraphNode))
    : option (list (GraphNode * GraphNode)) :=
  if decide (e ∈ edges) then Some (filter (fun x => x ≠ e) edges) else None.

(** The [connect] calls for [links], in order. *)
Fixpoint connectAll (links edges : list (GraphNode * GraphNode))
    : list (GraphNode * GraphNode) :=
  match links with
  | [] => edges
  | l :: rest => connectAll rest (connect l edges)
  end.

(** The [disconnect] calls for [links], in order, up to the first throw. *)
Fixpoint disconnectAll (links edges : list (GraphNode * GraphNode))
    : option (list (GraphNode * GraphNode)) :=
  match links with
  | [] => Some edges
  | l :: rest => e ← disconnect l edges; disconnectAll rest e
  end.

End Graph.

(** * AudioItem: the chain from the source to the output *)

(** The part of an AudioItem that [connect], [disconnect] and [setFilters]
    work on, with the connections made so far. *)
Record ItemGraph := {
  ig_source : option nat;
  ig_filters : list nat;
  ig_connected : bool;
  ig_edges : list (GraphNode * GraphNode)
}.

Module Chain.

(** The connections between neighbours of the filter list. *)
Fixpoint pairs (fs : list nat) : list (GraphNode * GraphNode) :=
  match fs with
  | a :: (b :: _) as rest => (FilterNode a, FilterNode b) :: pairs rest
  | _ => []
  end.

(** The connections [connect()] asks for, in the order of its calls:
    source to first filter, filter to filter, last filter to output; or
    source to output when there is no filter. *)
Definition links (s : nat) (fs : list nat) : list (GraphNode * GraphNode) :=
  match fs with
  | [] => [(SourceNode s, OutputNode)]
  | f0 :: _ =>
      (SourceNode s, FilterNode f0) :: pairs fs ++
      [(FilterNode (List.last fs f0), OutputNode)]
  end.

Definition with_filters (fs : list nat) (g : ItemGraph) : ItemGraph :=
  {| ig_source := ig_source g; ig_filters := fs;
     ig_connected := ig_connected g; ig_edges := ig_edges g |}.

(** [connect()]; [this.source] being null is a TypeError ([None]). *)
Definition connect (g : ItemGraph) : option ItemGraph :=
  match ig_source g with
  | None => None
  | Some s =>
      Some {| ig_source := ig_source g; ig_filters := ig_filters g;
              ig_connected := true;
              ig_edges :=
                Graph.connectAll (links s (ig_filters g)) (ig_edges g) |}
  end.

(** [disconnect()] *)
Definition disconnect (g : ItemGraph) : option ItemGraph :=
  if negb (ig_connected g) then Some g else
  match ig_source g with
  | None => None
  | Some s =>
      e ← Graph.disconnectAll (links s (ig_filters g)) (ig_edges g);
      Some {| ig_source := ig_source g; ig_filters := ig_filters g;
              ig_connected := false; ig_edges := e |}
  end.

(** [setFilters(value)] *)
Definition setFilters (value : list nat) (g : ItemGraph) : option ItemGraph :=
  if ig_connected g then
    g1 ← disconnect g;
    connect (with_filters value g1)
  else Some (with_filters value g).

End Chain.

(** * AudioListenerController *)

(** The controller: its filter, the connections it has made, and the two
    time fields. *)
Record ListenerController := {
  lc_filter : option nat;
  lc_edges : list (GraphNode * GraphNode);
  lc_timeDelta : Q;
  lc_lastTime : Q
}.

(** The calls that rewire the graph. *)
Inductive ListenerOp :=
| SetFilter (value : nat)
| RemoveFilter.

Module Listener.

(** [new AudioListenerController()] at clock reading [now]. *)
Definition create (now : Q) : ListenerController :=
  {| lc_filter := None; lc_edges := Graph.connect (MasterGain, Destination) [];
     lc_timeDelta := 0; lc_lastTime := now |}.

(** [Math.min(a, b)] *)
Definition min (a b : Q) : Q := if Qle_bool a b then a else b.

(** [getTimeDelta()] at clock reading [now]. *)
Definition getTimeDelta (now : Q) (l : ListenerController)
    : Q * ListenerController :=
  (min (now - lc_lastTime l) (1 # 10),
   {| lc_filter := lc_filter l; lc_edges := lc_edges l;
      lc_timeDelta := lc_timeDelta l; lc_lastTime := now |}).

(** [getEndTime()] at clock reading [now]. *)
Definition getEndTime (now : Q) (l : ListenerController)
    : Q * ListenerController :=
  let '(delta, l1) := getTimeDelta now l in
  ((now + delta)%Q,
   {| lc_filter := lc_filter l1; lc_edges := lc_edges l1;
      lc_timeDelta := delta; lc_lastTime := lc_lastTime l1 |}).

Definition with_wiring (f : option nat) (edges : list (GraphNode * GraphNode))
    (l : ListenerController) : ListenerController :=
  {| lc_filter := f; lc_edges := edges;
     lc_timeDelta := lc_timeDelta l; lc_lastTime := lc_lastTime l |}.

(** [removeFilter()] *)
Definition removeFilter (l : ListenerController) : option ListenerController :=
  match lc_filter l with
  | Some f =>
      e1 ← Graph.disconnect (MasterGain, FilterNode f) (lc_edges l);
      e2 ← Graph.disconnect (FilterNode f, Destination) e1;
      Some (with_wiring None (Graph.connect (MasterGain, Destination) e2) l)
  | None => Some l
  end.

(** [setFilter(value)] *)
Definition setFilter (value : nat) (l : ListenerController)
    : option ListenerController :=
  e ← match lc_filter l with
      | Some f =>
          e1 ← Graph.disconnect (MasterGain, FilterNode f) (lc_edges l);
          Graph.disconnect (FilterNode f, Destination) e1
      | None => Graph.disconnect (MasterGain, Destination) (lc_edges l)
      end;
  Some (with_wiring (Some value)
          (Graph.connect (FilterNode value, Destination)
             (Graph.connect (MasterGain, FilterNode value) e)) l).

Definition apply (op : ListenerOp) (l : ListenerController)
    : option ListenerController :=
  match op with
  | SetFilter value => setFilter value l
  | RemoveFilter => removeFilter l
  end.

(** The calls of [ops] one after the other; [None] once a call has thrown. *)
Definition applyAll (ops : list ListenerOp) (l : ListenerController)
    : option ListenerController :=
  foldl (fun r op => r ≫= apply op) (Some l) ops.

(** The connections the controller should hold for its current filter. *)
Definition wiring (f : option nat) : list (GraphNode * GraphNode) :=
  match f with
  | None => [(MasterGain, Destination)]
  | Some f => [(MasterGain, FilterNode f); (FilterNode f, Destination)]
  end.

End Listener.

(** * AudioVisibilityManager *)

Module VisibilityManager.

(** Byte [k] of the little-endian form of [v]. *)
Definition byteOf (k : nat) (v : Z) : Z := (v / 256 ^ Z.of_nat k) mod 256.
Arguments byteOf : simpl never.

(** The bytes of the buffer behind the DataView, and the write offset [o]. *)
Definition View : Type := list Z * nat.

(** [view.setUint8(o++, v)] *)
Definition setUint8 (v : Z) (st : View) : View :=
  (<[st.2 := byteOf 0 v]> st.1, S st.2).

(** [wStr(s)]: the character codes of [s], one byte each. *)
Definition wStr (s : string) (st : View) : View :=
  foldl (fun st c => setUint8 (Z.of_nat (nat_of_ascii c)) st) st
        (String.list_ascii_of_string s).

(** [w16(v)]: [view.setUint16(o, v, true); o += 2] *)
Definition w16 (v : Z) (st : View) : View :=
  (<[S st.2 := byteOf 1 v]> (<[st.2 := byteOf 0 v]> st.1), st.2 + 2).

(** [w32(v)]: [view.setUint32(o, v, true); o += 4] *)
Definition w32 (v : Z) (st : View) : View :=
  (<[S (S (S st.2)) := byteOf 3 v]>
     (<[S (S st.2) := byteOf 2 v]>
        (<[S st.2 := byteOf 1 v]> (<[st.2 := byteOf 0 v]> st.1))),
   st.2 + 4).

Definition sampleRate : Z := 44100.

(** [createEmptySrc(seconds)] for a whole number of seconds, up to the
    array [bytes]; the data URI is its base64 form. *)
Definition createEmptySrc (seconds : nat) : list Z :=
  let numSamples := (sampleRate * Z.of_nat seconds)%Z in
  let st : View := (replicate (44 + Z.to_nat (numSamples * 2)) 0%Z, 0) in
  let st := wStr "RIFF" st in
  let st := w32 (36 + numSamples * 2) st in
  let st := wStr "WAVE" st in
  let st := wStr "fmt " st in
  let st := w32 16 st in
  let st := w16 1 st in
  let st := w16 1 st in
  let st := w32 sampleRate st in
  let st := w32 (sampleRate * 2) st in
  let st := w16 2 st in
  let st := w16 16 st in
  let st := wStr "data" st in
  let st := w32 (numSamples * 2) st in
  st.1.

(** The four bytes [setUint32(o, v, true)] writes. *)
Definition bytes32 (v : Z) : list Z :=
  [byteOf 0 v; byteOf 1 v; byteOf 2 v; byteOf 3 v].

(** The number a little-endian field of four bytes stands for. *)
Definition le32 (l : list Z) : Z :=
  match l with
  | [a; b; c; d] => (a + 256 * b + 65536 * c + 16777216 * d)%Z
  | _ => 0%Z
  end.

(** [numSamples * 2], the size of the sample data in bytes. *)
Definition dataSize (seconds : nat) : Z :=
  (sampleRate * Z.of_nat seconds * 2)%Z.

End VisibilityManager.

(** * Properties *)

(** ** Comparisons *)

Lemma lt_spec (a b : Q) : JS.lt a b = true ↔ (a < b)%Q.
Proof.
  unfold JS.lt. rewrite negb_true_iff.
  destruct (Qle_bool b a) eqn:E.
  - apply Qle_bool_iff in E. split; [discriminate | intros H; lra].
  - split; [intros _ | reflexivity].
    destruct (Qlt_le_dec a b) as [H | H]; [exact H |].
    apply Qle_bool_iff in H. congruence.
Qed.

Lemma ge_spec (a b : Q) : JS.ge a b = true ↔ (b <= a)%Q.
Proof. unfold JS.ge. apply Qle_bool_iff. Qed.

Lemma lt_false (a b : Q) : JS.lt a b = false ↔ (b <= a)%Q.
Proof.
  rewrite <- not_true_iff_false, lt_spec. split; intros H; lra.
Qed.


(** ** Sets in insertion order *)

Lemma elem_of_set_delete (u v : VoiceId) (s : list VoiceId) :
  u ∈ set_delete v s ↔ u ∈ s ∧ u ≠ v.
Proof. unfold set_delete. rewrite list_elem_of_filter. tauto. Qed.

Lemma set_delete_sorted (v : VoiceId) (s : list VoiceId) :
  StronglySorted lt s → StronglySorted lt (set_delete v s).
Proof.
  unfold set_delete. induction 1 as [| x l Hl IH Hx]; [constructor |].
  rewrite filter_cons. case_decide; [| exact IH].
  constructor; [exact IH |].
  apply Forall_forall. intros y Hy%list_elem_of_filter.
  rewrite Forall_forall in Hx. apply Hx. tauto.
Qed.

Lemma set_delete_absent (v : VoiceId) (s : list VoiceId) :
  v ∉ s → set_delete v s = s.
Proof.
  unfold set_delete. induction s as [| x l IH]; [reflexivity |].
  intros H. rewrite not_elem_of_cons in H. destruct H as [H1 H2].
  rewrite filter_cons. case_decide; [| congruence].
  f_equal. auto.
Qed.

Lemma sorted_NoDup (s : list VoiceId) : StronglySorted lt s → NoDup s.
Proof.
  induction 1 as [| x l Hl IH Hx]; constructor; [| exact IH].
  intros Hin. rewrite Forall_forall in Hx. specialize (Hx _ Hin). lia.
Qed.

Lemma set_delete_length (v : VoiceId) (s : list VoiceId) :
  NoDup s → v ∈ s → S (length (set_delete v s)) = length s.
Proof.
  unfold set_delete. induction 1 as [| x l Hx Hl IH]; [by inversion 1 |].
  intros Hin. rewrite filter_cons. case_decide as Hne.
  - simpl. f_equal. apply IH. apply elem_of_cons in Hin as [-> | Hin]; done.
  - subst x. simpl. f_equal.
    fold (set_delete v l). rewrite set_delete_absent; done.
Qed.

Lemma set_add_fresh (v : VoiceId) (s : list VoiceId) :
  (∀ u, u ∈ s → u < v) → set_add v s = s ++ [v].
Proof.
  intros H. unfold set_add. case_decide as Hin; [| reflexivity].
  specialize (H _ Hin). lia.
Qed.

Lemma sorted_snoc (v : VoiceId) (s : list VoiceId) :
  StronglySorted lt s → (∀ u, u ∈ s → u < v) → StronglySorted lt (s ++ [v]).
Proof.
  intros Hs Hlt. apply StronglySorted_app_2; [| exact Hs | repeat constructor].
  intros x y Hx Hy. apply list_elem_of_singleton in Hy as ->. auto.
Qed.

Lemma sorted_head_least (v : VoiceId) (s : list VoiceId) :
  StronglySorted lt s → set_first s = Some v →
  v ∈ s ∧ ∀ u, u ∈ s → u ≠ v → v < u.
Proof.
  intros Hs Hh. destruct s as [| x l]; [discriminate |].
  simpl in Hh. injection Hh as ->. split; [left |].
  intros u Hu Hne. apply StronglySorted_inv in Hs as [_ Hx].
  rewrite Forall_forall in Hx.
  apply elem_of_cons in Hu as [-> | Hu]; [done | auto].
Qed.

(** ** The invariant holds along every run under one registry *)

Lemma Inv_init (cfg : OneShotInitConfig) (bufs : gset string) (t0 : Q) :
  Inv (init cfg (boot bufs t0)).
Proof.
  split; simpl; try done.
  - constructor.
  - intros v Hv. by apply elem_of_nil in Hv.
Qed.

(** The invariant reads the registries and the object stores only. *)
Lemma Inv_ext (w w' : World) :
  manager w' = manager w → active w' = active w →
  activeByTrack w' = activeByTrack w → sets w' = sets w →
  voices w' = voices w → nextSet w' = nextSet w →
  nextVoice w' = nextVoice w → Inv w → Inv w'.
Proof.
  intros E1 E2 E3 E4 E5 E6 E7 [H1 H2 H3 H4 H5 H6].
  split; unfold set_at, nameOf in *;
    rewrite ?E1, ?E2, ?E3, ?E4, ?E5, ?E6, ?E7; assumption.
Qed.

Lemma quietest_elem (w : World) (vs : list VoiceId) (m : option Q)
    (vic : option VoiceId) (v : VoiceId) :
  quietest w vs m vic = Some v → v ∈ vs ∨ vic = Some v.
Proof.
  revert m vic. induction vs as [| x l IH]; simpl; intros m vic H; [by right |].
  destruct (match m with None => true | Some m0 => JS.lt (score w x) m0 end).
  - destruct (IH _ _ H) as [Hin | [= ->]]; left; [by right | by left].
  - destruct (IH _ _ H) as [Hin | Hv]; [left; by right | by right].
Qed.

(** *** Consequences of the invariant *)

Section UnderInv.

Context (w : World) (HI : Inv w).

Lemma Inv_active_lt (v : VoiceId) : v ∈ active w → v < nextVoice w.
Proof.
  intros Hv. destruct (inv_active w HI v Hv) as (vo & Hvo & _).
  by destruct (inv_voices w HI v vo Hvo).
Qed.

(** No Set is registered under two names. *)
Lemma Inv_track_inj (n1 n2 : string) (s : SetId) :
  activeByTrack w !! n1 = Some s → activeByTrack w !! n2 = Some s → n1 = n2.
Proof.
  intros H1 H2.
  destruct (inv_track w HI n1 s H1) as (_ & Hne & _ & Hm1).
  destruct (inv_track w HI n2 s H2) as (_ & _ & _ & Hm2).
  destruct (set_at w s) as [| v l] eqn:E; [done |].
  assert (Hv : v ∈ v :: l) by left.
  destruct (Hm1 v Hv) as [_ Hn1]. destruct (Hm2 v Hv) as [_ Hn2]. congruence.
Qed.

Lemma Slot_trackSetOf (name : string) : Slot w name (trackSetOf w name).
Proof.
  unfold Slot, trackSetOf.
  destruct (activeByTrack w !! name) as [s |] eqn:E; simpl; [by left | right].
  split; [done |]. split; [| split; [done |]].
  - unfold set_at. by rewrite (inv_sets w HI).
  - intros n Hn. destruct (inv_track w HI _ _ Hn) as (Hlt & _). lia.
Qed.

Lemma Slot_members_lt (name : string) (ts : SetId) (u : VoiceId) :
  Slot w name ts → u ∈ set_at w ts → u ∈ active w ∧ u < nextVoice w.
Proof.
  intros [Hm | (_ & Hnil & _)] Hu.
  - destruct (inv_track w HI _ _ Hm) as (_ & _ & _ & Hmem).
    destruct (Hmem u Hu) as [Ha _]. eauto using Inv_active_lt.
  - rewrite Hnil in Hu. by apply elem_of_nil in Hu.
Qed.

(** Whatever [pickVictim] returns is an active voice. *)
Lemma pickVictim_active (name : string) (ts : SetId)
    (strategy : option string) (v : VoiceId) :
  Slot w name ts → pickVictim w strategy ts = Some v → v ∈ active w.
Proof.
  intros HS. unfold pickVictim, set_first.
  case_decide as E1; [| case_decide as E2; [| done]].
  - destruct (set_at w ts) as [| x l] eqn:Es; simpl.
    + intros H. by apply head_Some_elem_of in H.
    + intros [= ->]. destruct HS as [Hm | (_ & Hnil & _)]; [| congruence].
      destruct (inv_track w HI _ _ Hm) as (_ & _ & _ & Hmem).
      apply Hmem. rewrite Es. by left.
  - intros H. apply quietest_elem in H as [H | H]; done.
Qed.

End UnderInv.

(** A change to the node of one voice that keeps its source, and does not
    hand the source to [handleEnd], keeps the invariant. *)
Lemma Inv_node (w : World) (v : VoiceId) (vo : Voice) (n : AudioItem) :
  Inv w → voices w !! v = Some vo →
  hasPlaybackControl n = true →
  (∃ s, source n = Some s ∧
        (onended s = Some HandleEnd →
         ∃ s0, source (v_node vo) = Some s0 ∧ onended s0 = Some HandleEnd)) →
  Inv (with_voice v (with_node n vo) w).
Proof.
  intros [H1 H2 H3 H4 H5 H6] Hvo Hc (s & Hs & Hh).
  split; simpl; try assumption.
  - intros u Hu. destruct (H3 u Hu) as (uo & Huo & Hm & Hin).
    destruct (decide (u = v)) as [-> | Hne].
    + rewrite lookup_insert_eq. exists (with_node n vo).
      assert (uo = vo) by congruence. subst uo. done.
    + rewrite lookup_insert_ne by done. eauto.
  - intros m t Hm. destruct (H4 m t Hm) as (Hlt & Hne & Hso & Hmem).
    repeat split; try assumption.
    + by apply Hmem.
    + destruct (Hmem v0 H) as [_ Hn]. unfold nameOf in *. simpl.
      destruct (decide (v0 = v)) as [-> | Hne'].
      * rewrite lookup_insert_eq. rewrite Hvo in Hn. done.
      * by rewrite lookup_insert_ne.
  - intros u uo. destruct (decide (u = v)) as [-> | Hne].
    + rewrite lookup_insert_eq. intros [= <-]. simpl.
      destruct (H5 v vo Hvo) as (Hlt & _ & s0 & Hs0 & Hact).
      repeat split; try assumption.
      exists s. split; [done |]. intros Hend.
      destruct (Hh Hend) as (s1 & Hs1 & He1).
      apply Hact. congruence.
    + rewrite lookup_insert_ne by done. apply H5.
Qed.

Lemma set_at_removed (w : World) (v : VoiceId) (vo : Voice) (n : AudioItem)
    (s : SetId) :
  set_at (removed w v vo n) s =
    if decide (s = v_trackSet vo) then set_delete v (set_at w s) else set_at w s.
Proof.
  unfold set_at at 1. simpl. case_decide as E.
  - subst s. by rewrite lookup_insert_eq.
  - rewrite lookup_insert_ne by done. reflexivity.
Qed.

Lemma activeByTrack_removed (w : World) (v : VoiceId) (vo : Voice)
    (n : AudioItem) (m : string) (s : SetId) :
  activeByTrack (removed w v vo n) !! m = Some s →
  activeByTrack w !! m = Some s.
Proof.
  simpl. case_decide; [| done]. rewrite lookup_delete_Some. tauto.
Qed.

(** Deregistering a registered voice keeps the invariant, provided its
    source no longer reports to [handleEnd]. *)
Lemma Inv_removed (w : World) (v : VoiceId) (vo : Voice) (n : AudioItem) :
  Inv w → v ∈ active w → voices w !! v = Some vo →
  hasPlaybackControl n = true →
  (∃ s, source n = Some s ∧ onended s ≠ Some HandleEnd) →
  Inv (removed w v vo n).
Proof.
  intros HI Hv Hvo Hc (sn & Hsn & Hend).
  pose proof HI as [H1 H2 H3 H4 H5 H6].
  destruct (H3 v Hv) as (vo' & Hvo' & Hm & Hin).
  assert (vo' = vo) by congruence. subst vo'.
  split.
  - exact H1.
  - simpl. by apply set_delete_sorted.
  - intros u Hu. simpl in Hu. apply elem_of_set_delete in Hu as [Hu Hne].
    destruct (H3 u Hu) as (uo & Huo & Hmu & Hinu).
    exists uo. split; [simpl; by rewrite lookup_insert_ne |].
    assert (Hkeep : v_trackSet uo = v_trackSet vo →
                    u ∈ set_delete v (set_at w (v_trackSet vo))).
    { intros E. apply elem_of_set_delete. by rewrite <- E. }
    split.
    + simpl. case_decide as El; [| done].
      rewrite lookup_delete_ne; [done |]. intros En.
      assert (E : v_trackSet uo = v_trackSet vo) by congruence.
      specialize (Hkeep E).
      destruct (set_delete v (set_at w (v_trackSet vo))); [| done].
      by apply elem_of_nil in Hkeep.
    + rewrite set_at_removed. case_decide as E; [| done].
      rewrite E. auto.
  - intros m s Hms. pose proof (activeByTrack_removed _ _ _ _ _ _ Hms) as Hold.
    destruct (H4 m s Hold) as (Hlt & Hne & Hso & Hmem).
    rewrite set_at_removed. split; [exact Hlt |].
    case_decide as E.
    + subst s. assert (m = v_name vo) by eauto using Inv_track_inj. subst m.
      split; [| split].
      * simpl in Hms. case_decide as El.
        -- by rewrite lookup_delete_eq in Hms.
        -- intros Hnil. by rewrite Hnil in El.
      * by apply set_delete_sorted.
      * intros u Hu. apply elem_of_set_delete in Hu as [Hu Hneq].
        destruct (Hmem u Hu) as [Ha Hn]. split.
        -- simpl. by apply elem_of_set_delete.
        -- unfold nameOf in *. simpl. by rewrite lookup_insert_ne.
    + split; [exact Hne | split; [exact Hso |]].
      intros u Hu. destruct (Hmem u Hu) as [Ha Hn].
      assert (u ≠ v).
      { intros ->. unfold nameOf in Hn. rewrite Hvo in Hn. simpl in Hn.
        injection Hn as <-. congruence. }
      split.
      * simpl. by apply elem_of_set_delete.
      * unfold nameOf in *. simpl. by rewrite lookup_insert_ne.
  - intros u uo. simpl. destruct (decide (u = v)) as [-> | Hne].
    + rewrite lookup_insert_eq. intros [= <-]. simpl.
      destruct (H5 v vo Hvo) as (Hlt & _).
      split; [exact Hlt | split; [exact Hc |]].
      exists sn. split; [exact Hsn | done].
    + rewrite lookup_insert_ne by done. intros Huo.
      destruct (H5 u uo Huo) as (Hlt & Hcu & s & Hs & Hact).
      split; [exact Hlt | split; [exact Hcu |]].
      exists s. split; [exact Hs |]. intros He.
      apply elem_of_set_delete. auto.
  - intros s Hs. simpl in *. destruct (H4 _ _ Hm) as (Hlt & _).
    rewrite lookup_insert_ne by lia. auto.
Qed.

Lemma evictedNode_control (t : Q) (policy : Policy) (n : AudioItem) :
  hasPlaybackControl (evictedNode t policy n) = hasPlaybackControl n.
Proof.
  unfold evictedNode, Item.stop, Item.set_onended, fadeOut. simpl.
  destruct (source n); simpl; destruct (hasPlaybackControl n) eqn:E;
    simpl; done.
Qed.

Lemma evictedNode_source (t : Q) (policy : Policy) (n : AudioItem) (s : Source) :
  hasPlaybackControl n = true → source n = Some s →
  source (evictedNode t policy n) =
    Some {| startTime := startTime s;
            stopTime :=
              Some (t + (if JS.lt 0 (stopAt t policy - t)
                         then stopAt t policy - t else 0))%Q;
            onended := None |}.
Proof.
  intros Hc Hs.
  unfold evictedNode, Item.stop, Item.set_onended, fadeOut. simpl.
  rewrite Hs. simpl. rewrite Hc. simpl. reflexivity.
Qed.

Lemma evict_removed (w : World) (policy : Policy) (v : VoiceId) (vo : Voice) :
  activeByTrack w !! v_name vo = Some (v_trackSet vo) →
  evict w policy v vo =
    removed w v vo (evictedNode (currentTime w) policy (v_node vo)).
Proof. intros Hm. unfold evict, unregister. rewrite Hm. reflexivity. Qed.

(** The gates of [play], taken one after the other; [tac] closes the case
    in which a gate ends the call. *)
Ltac through_gates tac :=
  destruct (negb (manager _)); [tac |];
  destruct (readFaults _ _); [tac |];
  destruct (negb (hasValue _ _)); [tac |];
  destruct (tooSoon _ _ _); [tac |].

(** The three ways [_ensureCapacity] ends. *)
Lemma ensureCapacity_cases (w : World) (policy : Policy) (ts : SetId)
    (np : option Q) :
  _ensureCapacity w policy ts np = (true, w) ∨
  _ensureCapacity w policy ts np = (false, w) ∨
  ∃ victim vo,
    (globalFull w = true ∨ trackFull w policy ts = true) ∧
    pickVictim w (pol_stealStrategy policy) ts = Some victim ∧
    JS.lt (default 0%Q np) (priorityOf w victim) = false ∧
    voices w !! victim = Some vo ∧
    _ensureCapacity w policy ts np = (true, evict w policy victim vo).
Proof.
  unfold _ensureCapacity.
  destruct (negb (globalFull w) && negb (trackFull w policy ts)) eqn:Efull;
    [by left |].
  case_decide; [right; by left |].
  destruct (pickVictim w (pol_stealStrategy policy) ts) as [victim |] eqn:Ev;
    [| right; by left].
  destruct (JS.lt (default 0%Q np) (priorityOf w victim)) eqn:Ep;
    [right; by left |].
  destruct (voices w !! victim) as [vo |] eqn:Evo; [| right; by left].
  right; right. exists victim, vo. repeat split; try done.
  destruct (globalFull w); [by left |].
  destruct (trackFull w policy ts); [by right | discriminate].
Qed.

Lemma ensureCapacity_false (w w1 : World) (policy : Policy) (ts : SetId)
    (np : option Q) :
  _ensureCapacity w policy ts np = (false, w1) → w1 = w.
Proof.
  destruct (ensureCapacity_cases w policy ts np)
    as [H | [H | (victim & vo & _ & _ & _ & _ & H)]];
    rewrite H; congruence.
Qed.

Lemma Slot_removed (w : World) (name : string) (ts : SetId) (v : VoiceId)
    (vo : Voice) (n : AudioItem) :
  Inv w → Slot w name ts →
  activeByTrack w !! v_name vo = Some (v_trackSet vo) →
  Slot (removed w v vo n) name ts.
Proof.
  intros HI HS Hm. unfold Slot. rewrite set_at_removed.
  destruct HS as [Hn | (Hn & Hnil & Hle & Hno)].
  - simpl. case_decide as El; [| by left].
    destruct (decide (name = v_name vo)) as [-> | Hne].
    + right. rewrite lookup_delete_eq.
      assert (ts = v_trackSet vo) by congruence. subst ts.
      rewrite decide_True by done.
      split; [done |]. split; [by apply nil_length_inv |].
      split; [destruct (inv_track w HI _ _ Hm); lia |].
      intros m Hms. apply lookup_delete_Some in Hms as [Hne Hms].
      apply Hne. symmetry. eauto using Inv_track_inj.
    + left. by rewrite lookup_delete_ne.
  - right. assert (ts ≠ v_trackSet vo) by (intros ->; by apply (Hno (v_name vo))).
    rewrite decide_False by done. split; [| split; [done | split; [done |]]].
    + simpl. case_decide; [| done].
      destruct (decide (v_name vo = name)) as [-> | Hne];
        [by rewrite lookup_delete_eq | by rewrite lookup_delete_ne].
    + intros m Hms. apply activeByTrack_removed in Hms. by apply (Hno m).
Qed.

(** [_ensureCapacity] keeps the invariant, and the Set [play] looked up for
    the track is still the one to register the new voice in. *)
Lemma ensureCapacity_Inv (w w1 : World) (policy : Policy) (name : string)
    (ts : SetId) (np : option Q) (b : bool) :
  Inv w → Slot w name ts →
  _ensureCapacity w policy ts np = (b, w1) →
  Inv w1 ∧ Slot w1 name ts.
Proof.
  intros HI HS.
  destruct (ensureCapacity_cases w policy ts np)
    as [H | [H | (victim & vo & _ & Hpick & _ & Hvo & H)]];
    rewrite H; intros [= <- <-]; [done | done |].
  pose proof (pickVictim_active _ HI _ _ _ _ HS Hpick) as Hact.
  destruct (inv_active w HI _ Hact) as (vo' & Hvo' & Hm & _).
  assert (vo' = vo) by congruence. subst vo'.
  destruct (inv_voices w HI _ _ Hvo) as (_ & Hc & s & Hs & _).
  rewrite evict_removed by done. split.
  - apply Inv_removed; try done.
    + by rewrite evictedNode_control.
    + eexists. split; [by apply evictedNode_source | done].
  - by apply Slot_removed.
Qed.

Lemma startNode_started (now : Q) (policy : Policy) (options : OneShotOptions) :
  hasPlaybackControl (startNode now policy options) = true ∧
  ∃ s, source (startNode now policy options) = Some s.
Proof.
  unfold startNode.
  destruct options as [vol rate det sp pr mi du]; simpl.
  destruct vol, rate, det, sp as [[[pos|] ? ? ? ? ? ?]|];
    simpl; try destruct (pol_spatialDefaults policy); simpl; eauto.
Qed.

Lemma registered_node (now t : Q) (policy : Policy) (options : OneShotOptions) :
  let n := Item.set_onended (Some HandleEnd) (startNode now policy options) in
  let n' := from_option (fun d => Item.source_stop (t + JS.max 0 d)%Q n) n
              (opt_duration options) in
  hasPlaybackControl n' = true ∧
  ∃ s, source n' = Some s ∧ onended s = Some HandleEnd.
Proof.
  destruct (startNode_started now policy options) as (Hc & s & Hs).
  unfold Item.set_onended, Item.source_stop. rewrite Hs.
  destruct (opt_duration options); simpl; eauto.
Qed.

Lemma set_at_registerVoice (w : World) (name : string) (options : OneShotOptions)
    (policy : Policy) (now : Q) (ts s : SetId) :
  set_at (registerVoice w name options policy now ts).2 s =
    if decide (s = ts) then set_add (nextVoice w) (set_at w ts) else set_at w s.
Proof.
  unfold set_at at 1. simpl. case_decide as E.
  - subst s. by rewrite lookup_insert_eq.
  - rewrite lookup_insert_ne by done. reflexivity.
Qed.

(** Registering the new voice keeps the invariant. *)
Lemma Inv_registerVoice (w : World) (name : string) (options : OneShotOptions)
    (policy : Policy) (now : Q) (ts : SetId) :
  Inv w → Slot w name ts →
  Inv (registerVoice w name options policy now ts).2.
Proof.
  intros HI HS. pose proof HI as [H1 H2 H3 H4 H5 H6].
  assert (Hact : ∀ u, u ∈ active w → u < nextVoice w)
    by eauto using Inv_active_lt.
  assert (Hset : ∀ u, u ∈ set_at w ts → u < nextVoice w).
  { intros u Hu. by destruct (Slot_members_lt _ HI _ _ _ HS Hu). }
  assert (Hother : ∀ m s, m ≠ name → activeByTrack w !! m = Some s → s ≠ ts).
  { intros m s Hne Hms ->. destruct HS as [Hn | (_ & _ & _ & Hno)].
    - apply Hne. eauto using Inv_track_inj.
    - by apply (Hno m). }
  assert (Hts : ts ≤ nextSet w).
  { destruct HS as [Hn | (_ & _ & Hle & _)]; [| done].
    destruct (H4 _ _ Hn). lia. }
  assert (Hsorted : StronglySorted lt (set_at w ts)).
  { destruct HS as [Hn | (_ & Hnil & _)].
    - by destruct (H4 _ _ Hn) as (_ & _ & ? & _).
    - rewrite Hnil. constructor. }
  split.
  - exact H1.
  - simpl. rewrite set_add_fresh by done. by apply sorted_snoc.
  - intros u Hu. simpl in Hu. rewrite set_add_fresh in Hu by done.
    apply elem_of_app in Hu as [Hu | Hu%list_elem_of_singleton].
    + destruct (H3 u Hu) as (uo & Huo & Hmu & Hinu).
      specialize (Hact u Hu). exists uo.
      rewrite set_at_registerVoice, (set_add_fresh _ (set_at w ts)) by done. simpl.
      split; [rewrite lookup_insert_ne by lia; done |].
      destruct (decide (v_name uo = name)) as [En | Hne].
      * rewrite En, lookup_insert_eq.
        assert (v_trackSet uo = ts) as Ets.
        { destruct HS as [Hn | (Hn & _)]; congruence. }
        rewrite Ets, decide_True by done.
        split; [done |]. apply elem_of_app. left. congruence.
      * rewrite lookup_insert_ne by done. split; [done |].
        rewrite decide_False by eauto. done.
    + subst u. eexists.
      rewrite set_at_registerVoice, (set_add_fresh _ (set_at w ts)) by done. simpl.
      rewrite lookup_insert_eq.
      split; [reflexivity |]. simpl. rewrite lookup_insert_eq.
      split; [done |]. rewrite decide_True by done.
      apply elem_of_app. right. by left.
  - intros m s Hms. simpl in Hms.
    rewrite set_at_registerVoice, (set_add_fresh _ (set_at w ts)) by done.
    destruct (decide (m = name)) as [-> | Hne].
    + rewrite lookup_insert_eq in Hms. injection Hms as <-.
      rewrite decide_True by done. simpl.
      split; [lia |]. split; [by destruct (set_at w ts) |].
      split; [by apply sorted_snoc |].
      intros u Hu. rewrite set_add_fresh by done.
      apply elem_of_app in Hu as [Hu | Hu%list_elem_of_singleton].
      * pose proof (Hset u Hu).
        split; [apply elem_of_app; left;
                by destruct (Slot_members_lt _ HI _ _ _ HS Hu) |].
        unfold nameOf. simpl. rewrite lookup_insert_ne by lia.
        destruct HS as [Hn | (_ & Hnil & _)].
        -- destruct (H4 _ _ Hn) as (_ & _ & _ & Hmem). by apply Hmem.
        -- rewrite Hnil in Hu. by apply elem_of_nil in Hu.
      * subst u. split; [apply elem_of_app; right; by left |].
        unfold nameOf. simpl. by rewrite lookup_insert_eq.
    + rewrite lookup_insert_ne in Hms by done.
      rewrite decide_False by eauto.
      destruct (H4 _ _ Hms) as (Hlt & Hnn & Hso & Hmem). simpl.
      split; [lia |]. split; [done |]. split; [done |].
      intros u Hu. destruct (Hmem u Hu) as [Ha Hn].
      rewrite set_add_fresh by done. split; [apply elem_of_app; by left |].
      unfold nameOf in *. simpl. specialize (Hact u Ha).
      by rewrite lookup_insert_ne by lia.
  - intros u uo. simpl. rewrite set_add_fresh by done.
    destruct (decide (u = nextVoice w)) as [-> | Hne].
    + rewrite lookup_insert_eq. intros [= <-]. simpl.
      destruct (registered_node now (currentTime w) policy options)
        as (Hc & s & Hs & He).
      split; [lia |]. split; [exact Hc |].
      exists s. split; [exact Hs |]. intros _. apply elem_of_app. right. by left.
    + rewrite lookup_insert_ne by done. intros Huo.
      destruct (H5 u uo Huo) as (Hlt & Hc & s & Hs & He).
      split; [lia |]. split; [exact Hc |].
      exists s. split; [exact Hs |]. intros Hh. apply elem_of_app. left. auto.
  - intros s Hs. simpl in *. rewrite lookup_insert_ne by lia. apply H6. lia.
Qed.

Lemma Inv_play (w : World) (name : string) (options : OneShotOptions) :
  Inv w → Inv (play w name options).2.
Proof.
  intros HI. unfold play.
  through_gates done.
  destruct (_ensureCapacity w (getPolicy w name) (trackSetOf w name)
              (resolvedPriority w name options)) as [b w1] eqn:E.
  destruct (ensureCapacity_Inv _ _ _ name _ _ _ HI (Slot_trackSetOf _ HI _) E)
    as [HI1 HS1].
  destruct b; [| done].
  destruct (bool_decide (name ∈ buffers w)); [| exact HI1].
  pose proof (Inv_registerVoice w1 name options (getPolicy w name) (currentTime w)
                (trackSetOf w name) HI1 HS1) as HA.
  destruct (registerVoice w1 name options (getPolicy w name) (currentTime w)
              (trackSetOf w name)) as [voice w2]. exact HA.
Qed.

Lemma Inv_ended (w : World) (v : VoiceId) : Inv w → Inv (ended v w).
Proof.
  intros HI. unfold ended.
  destruct (voices w !! v) as [vo |] eqn:Evo; [| done].
  destruct (inv_voices w HI _ _ Evo) as (_ & Hc & s & Hs & Hact).
  rewrite Hs. destruct (onended s) as [[| |] |] eqn:Eh; [| | | done].
  - apply Inv_node; try done. exists s. split; [done |]. congruence.
  - unfold handleEnd. rewrite Evo.
    apply (Inv_removed w v vo); try done; [by apply Hact | |];
      unfold Item.set_onended; simpl; rewrite Hs; simpl; eauto.
  - unfold cleanup. rewrite Evo.
    apply Inv_node; try done; unfold Item.set_onended; simpl; rewrite Hs;
      simpl; [done |].
    eexists. split; [reflexivity | done].
Qed.

Lemma Inv_step (w : World) (e : Event) :
  isInit e = false → Inv w → Inv (step w e).
Proof.
  intros He HI. destruct e as [cfg | name options | v | t | v x | name];
    simpl; [done | | | | |].
  - by apply Inv_play.
  - by apply Inv_ended.
  - by apply (Inv_ext w).
  - unfold reportGain. destruct (voices w !! v) as [vo |] eqn:Evo; [| done].
    destruct (inv_voices w HI _ _ Evo) as (_ & Hc & s & Hs & _).
    apply Inv_node; try done. exists s. split; [done |]. eauto.
  - by apply (Inv_ext w).
Qed.

Lemma Inv_run (w : World) (es : list Event) :
  forallb (fun e => negb (isInit e)) es = true → Inv w → Inv (run w es).
Proof.
  revert w. induction es as [| e es IH]; intros w Hes HI; [done |].
  simpl in Hes. apply andb_true_iff in Hes as [He Hes].
  apply negb_true_iff in He. simpl. apply IH; [done |]. by apply Inv_step.
Qed.

(** Every world reached under one registry satisfies the invariant. *)
Lemma reachable_Inv (w : World) : reachable w → Inv w.
Proof.
  intros (bufs & t0 & cfg & es & Hes & ->).
  apply Inv_run; [done | apply Inv_init].
Qed.

(** ** The two registries hold the same number of voices *)

Lemma length_bind_sets (w : World) (ps : list (string * SetId)) :
  length (ps ≫= fun p => set_at w p.2) =
  sum_list ((fun p => length (set_at w p.2)) <$> ps).
Proof.
  induction ps as [| p ps IH]; [reflexivity |].
  change (length (set_at w p.2 ++ (ps ≫= fun p => set_at w p.2)) =
          length (set_at w p.2) +
          sum_list ((fun p => length (set_at w p.2)) <$> ps)).
  by rewrite length_app, IH.
Qed.

Lemma NoDup_bind_sets (w : World) (ps : list (string * SetId)) :
  NoDup ps.*1 →
  (∀ n s, (n, s) ∈ ps →
     NoDup (set_at w s) ∧ ∀ v, v ∈ set_at w s → nameOf w v = Some n) →
  NoDup (ps ≫= fun p => set_at w p.2).
Proof.
  induction ps as [| [n s] ps IH]; intros Hnd Hps; [constructor |].
  change (NoDup (set_at w s ++ (ps ≫= fun p => set_at w p.2))).
  change (NoDup (n :: ps.*1)) in Hnd.
  apply NoDup_cons in Hnd as [Hn Hnd].
  destruct (Hps n s) as [Hs Hname]; [left |].
  apply NoDup_app. split; [exact Hs |]. split.
  - intros v Hv Hin. apply list_elem_of_bind in Hin as ([n' s'] & Hv' & Hp).
    simpl in Hv'. destruct (Hps n' s') as [_ Hname']; [by right |].
    assert (n' = n) by (specialize (Hname v Hv); specialize (Hname' v Hv');
                        congruence).
    subst n'. apply Hn. apply list_elem_of_fmap. by exists (n, s').
  - apply IH; [exact Hnd |]. intros n' s' Hp. apply Hps. by right.
Qed.

Lemma Inv_sizes (w : World) : Inv w → length (active w) = trackTotal w.
Proof.
  intros HI. unfold trackTotal. rewrite <- length_bind_sets.
  apply Permutation_length, NoDup_Permutation.
  - apply sorted_NoDup, (inv_active_sorted w HI).
  - apply NoDup_bind_sets; [apply NoDup_fst_map_to_list |].
    intros n s Hp%elem_of_map_to_list.
    destruct (inv_track w HI _ _ Hp) as (_ & _ & Hso & Hmem).
    split; [by apply sorted_NoDup |]. intros v Hv. by apply Hmem.
  - intros v. rewrite list_elem_of_bind. split.
    + intros Hv. destruct (inv_active w HI v Hv) as (vo & _ & Hm & Hin).
      exists (v_name vo, v_trackSet vo). split; [done |].
      by apply elem_of_map_to_list.
    + intros ([n s] & Hv & Hp%elem_of_map_to_list). simpl in Hv.
      destruct (inv_track w HI _ _ Hp) as (_ & _ & _ & Hmem). by apply Hmem.
Qed.

Lemma countTotal_trackTotal (w : World) :
  EmptyString ∉ activeTracks w → countTotal w = trackTotal w.
Proof.
  unfold countTotal, trackTotal, activeTracks. intros Hne. f_equal.
  rewrite <- list_fmap_compose. apply list_fmap_ext.
  intros i [n s] Hi. simpl.
  assert (Hp : (n, s) ∈ map_to_list (activeByTrack w))
    by (apply list_elem_of_lookup; eauto).
  rewrite decide_False.
  - apply elem_of_map_to_list in Hp. by rewrite Hp.
  - intros ->. apply Hne. apply list_elem_of_fmap. by exists (EmptyString, s).
Qed.

Lemma reachable_run (bufs : gset string) (t0 : Q) (cfg : OneShotInitConfig)
    (es : list Event) :
  forallb (fun e => negb (isInit e)) es = true →
  reachable (run (init cfg (boot bufs t0)) es).
Proof. intros H. by exists bufs, t0, cfg, es. Qed.

Lemma elem_of_activeTracks (w : World) (n : string) :
  n ∈ activeTracks w ↔ ∃ s, activeByTrack w !! n = Some s.
Proof.
  unfold activeTracks. rewrite list_elem_of_fmap. split.
  - intros ([n' s] & -> & Hp%elem_of_map_to_list). by exists s.
  - intros (s & Hs). exists (n, s). split; [done |].
    by apply elem_of_map_to_list.
Qed.

(** C2 (as amended).  In every world reached under one registry the global
    set has as many voices as the per-track Sets together; the registered
    tracks are exactly the tracks with an active voice; and, when none of
    them has the empty name, [getActiveCount()] is the sum of
    [getActiveCount(t)] over them. *)
Theorem registry_sizes_agree (w : World) :
  reachable w →
  length (active w) = trackTotal w ∧
  (∀ n, n ∈ activeTracks w ↔ ∃ v, v ∈ active w ∧ nameOf w v = Some n) ∧
  (EmptyString ∉ activeTracks w → getActiveCount w None = countTotal w).
Proof.
  intros HI%reachable_Inv. split; [by apply Inv_sizes |]. split.
  - intros n. rewrite elem_of_activeTracks. split.
    + intros (s & Hs).
      destruct (inv_track w HI _ _ Hs) as (_ & Hne & _ & Hmem).
      destruct (set_at w s) as [| v l] eqn:E; [done |].
      exists v. apply Hmem. by left.
    + intros (v & Hv & Hn).
      destruct (inv_active w HI v Hv) as (vo & Hvo & Hm & _).
      unfold nameOf in Hn. rewrite Hvo in Hn. injection Hn as <-. eauto.
  - intros Hne. rewrite countTotal_trackTotal by done. simpl.
    by apply Inv_sizes.
Qed.

Lemma registry_sizes_agree_witness :
  length (active crossTrackRun) = trackTotal crossTrackRun ∧
  getActiveCount crossTrackRun None = countTotal crossTrackRun.
Proof.
  destruct (registry_sizes_agree crossTrackRun) as (H1 & _ & H2).
  - apply reachable_run. reflexivity.
  - split; [exact H1 |]. apply H2.
    apply (bool_decide_unpack _). vm_compute. reflexivity.
Defined.

(** C2 as stated fails: with one voice on the track named by the empty
    string and one on track "a", [getActiveCount()] is 2 while the
    per-track counts add up to 3, because [getActiveCount('')] answers with
    the global count. *)
Lemma emptyName_counts_disagree :
  reachable emptyNameRun ∧
  getActiveCount emptyNameRun None = 2 ∧
  getActiveCount emptyNameRun (Some EmptyString) = 2 ∧
  getActiveCount emptyNameRun (Some "a"%string) = 1 ∧
  getActiveCount emptyNameRun None ≠ countTotal emptyNameRun.
Proof.
  split; [apply reachable_run; reflexivity |].
  vm_compute. repeat split; discriminate.
Qed.

(** Outside C2's runs: a voice accepted under an earlier registry still
    carries its [handleEnd]; when it ends after a second [init], the closure
    empties its own old Set and deletes the new registry's entry for the
    track, so the global set keeps the new voice while no track lists it. *)
Remark reinit_breaks_sizes :
  reachable_reinit reinitRun ∧
  active reinitRun = [1] ∧ activeByTrack reinitRun = ∅ ∧
  length (active reinitRun) ≠ trackTotal reinitRun.
Proof.
  split; [unfold reachable_reinit, reinitRun; by eexists _, _, _ |].
  split; [by vm_compute |]. split; [by vm_compute |].
  vm_compute. discriminate.
Qed.

(** ** Victim selection under 'stealQuietest' *)

Lemma quietest_min (w : World) (vs : list VoiceId) (m : option Q)
    (vic : option VoiceId) (v : VoiceId) :
  (∀ v0, vic = Some v0 → m = Some (score w v0)) →
  quietest w vs m vic = Some v →
  (∀ u, u ∈ vs → (score w v <= score w u)%Q) ∧
  (∀ x, m = Some x → (score w v <= x)%Q).
Proof.
  revert m vic. induction vs as [| y l IH]; simpl; intros m vic Hacc H.
  - split; [intros u Hu; by apply elem_of_nil in Hu |].
    intros x Hx. rewrite (Hacc v H) in Hx. injection Hx as <-. lra.
  - destruct (match m with None => true | Some m0 => JS.lt (score w y) m0 end)
      eqn:Ec.
    + destruct (IH (Some (score w y)) (Some y)) as [Hl Hm]; [congruence | done |].
      specialize (Hm _ eq_refl). split.
      * intros u Hu. apply elem_of_cons in Hu as [-> | Hu]; auto.
      * intros x ->. apply lt_spec in Ec. lra.
    + destruct m as [x |]; [| discriminate]. apply lt_false in Ec.
      destruct (IH (Some x) vic Hacc H) as [Hl Hm].
      specialize (Hm _ eq_refl). split.
      * intros u Hu. apply elem_of_cons in Hu as [-> | Hu]; [lra | auto].
      * intros x' [= <-]. done.
Qed.

(** The 'stealQuietest' branch of [pickVictim] returns an active voice of
    least score. *)
Lemma stealQuietest_least_score (w : World) (ts : SetId) (v : VoiceId) :
  pickVictim w (Some "stealQuietest"%string) ts = Some v →
  v ∈ active w ∧ ∀ u, u ∈ active w → (score w v <= score w u)%Q.
Proof.
  unfold pickVictim. rewrite decide_False by done. rewrite decide_True by done.
  intros H. split.
  - apply quietest_elem in H as [H | H]; done.
  - by destruct (quietest_min w (active w) None None v).
Qed.

(** X11.  Since the score falls as the priority rises, the voice of least
    score is one of highest priority: no active voice whose gain is within [0,1]
    outranks a victim whose gain is within [0,1] by more than 0.001. *)
Lemma stealQuietest_victim_outranks (w : World) (ts : SetId) (v u : VoiceId) :
  pickVictim w (Some "stealQuietest"%string) ts = Some v →
  u ∈ active w →
  (0 <= volumeOf w v <= 1)%Q → (0 <= volumeOf w u <= 1)%Q →
  (priorityOf w u <= priorityOf w v + (1 # 1000))%Q.
Proof.
  intros H Hu Hv Hvu. destruct (stealQuietest_least_score w ts v H) as [_ Hmin].
  specialize (Hmin u Hu). unfold score in Hmin. lra.
Qed.

(** C1 (the code departs from it).  With priorities 2, 2, 1 and gains 0.9,
    0.1, 1.0 the scores are -1999.1, -1999.9 and -999; the least belongs to
    the second voice, of priority 2, and that one is picked.  A request of
    priority 2 evicts it and keeps the voice of priority 1; a request of
    priority 1 is turned away although a voice of priority 1 is playing. *)
Theorem stealQuietest_spares_lowest_priority :
  score threeVoices 0 = (-19991 # 10)%Q ∧
  score threeVoices 1 = (-19999 # 10)%Q ∧
  score threeVoices 2 = (-999)%Q ∧
  pickVictim threeVoices (Some "stealQuietest"%string)
             (trackSetOf threeVoices "a") = Some 1 ∧
  priorityOf threeVoices 1 = 2%Q ∧ priorityOf threeVoices 2 = 1%Q ∧
  (play threeVoices "a" (withPriority 2)).1 = Return (Some 3) ∧
  active (play threeVoices "a" (withPriority 2)).2 = [0; 2; 3] ∧
  (play threeVoices "a" (withPriority 1)).1 = Return None.
Proof. vm_compute. repeat split; reflexivity. Qed.

(** The part of C1 on equal priorities holds: with priorities 2, 2 and gains
    0.9, 0.1 the voice of gain 0.1 is picked and evicted. *)
Example stealQuietest_equal_priorities :
  pickVictim twoVoices (Some "stealQuietest"%string)
             (trackSetOf twoVoices "a") = Some 1 ∧
  volumeOf twoVoices 1 = (1 # 10)%Q ∧
  active (play twoVoices "a" (withPriority 2)).2 = [0; 2].
Proof. vm_compute. repeat split; reflexivity. Qed.

(** ** Policy resolution *)

(** C8 (the code departs from it).  A default policy that lists [maxVoices]
    with the value [undefined] overwrites the fallback 8 in [init], and
    [getPolicy] has no further fallback for that field: the resolved
    [maxVoices] is [undefined], and the track limit never applies.  For
    [stealFadeMs] the same configuration shape still resolves to 120. *)
Theorem undefined_default_defeats_fallback :
  let w := init undefinedMaxVoices (boot ∅ 0) in
  pol_maxVoices (getPolicy w "x") = None ∧
  pol_minInterval (getPolicy w "x") = Some (2 # 100)%Q ∧
  pol_priority (getPolicy w "x") = Some 0%Q ∧
  pol_stealStrategy (getPolicy w "x") = Some "ignore"%string ∧
  pol_stealFadeMs (getPolicy w "x") = 120%Q ∧
  ∀ (w' : World) (ts : SetId),
    pol_maxVoices (getPolicy w' "x") = None →
    trackFull w' (getPolicy w' "x") ts = false.
Proof.
  intros w. repeat split; try reflexivity.
  intros w' ts H. unfold trackFull. by rewrite H.
Qed.

(** X12.  Without an explicitly [undefined] entry in the default policy, the
    resolved fields are the merge the specification describes; [stealFadeMs]
    is that merge in every case. *)
Lemma getPolicy_merge (cfg : OneShotInitConfig) (w0 : World) (name : string) :
  let d := default emptyPolicy (cfg_defaultPolicy (cfg_global cfg)) in
  let p := default emptyPolicy (cfg_tracks cfg !! name) in
  let r := getPolicy (init cfg w0) name in
  (maxVoices d ≠ JS.Undefined →
   pol_maxVoices r = Some (mergeField (maxVoices p) (maxVoices d) 8%Q)) ∧
  (minInterval d ≠ JS.Undefined →
   pol_minInterval r =
     Some (mergeField (minInterval p) (minInterval d) (2 # 100)%Q)) ∧
  (priority d ≠ JS.Undefined →
   pol_priority r = Some (mergeField (priority p) (priority d) 0%Q)) ∧
  (stealStrategy d ≠ JS.Undefined →
   pol_stealStrategy r =
     Some (mergeField (stealStrategy p) (stealStrategy d) "ignore"%string)) ∧
  pol_stealFadeMs r = mergeField (stealFadeMs p) (stealFadeMs d) 120%Q.
Proof.
  intros d p r. subst r. unfold getPolicy, mergeField. simpl.
  fold d. fold p.
  repeat split.
  - intros H. destruct (maxVoices p), (maxVoices d); done.
  - intros H. destruct (minInterval p), (minInterval d); done.
  - intros H. destruct (priority p), (priority d); done.
  - intros H. destruct (stealStrategy p), (stealStrategy d); done.
  - destruct (stealFadeMs p), (stealFadeMs d); done.
Qed.


(** ** What a call of [play] leaves alone *)

Lemma evict_setup (w : World) (policy : Policy) (v : VoiceId) (vo : Voice) :
  sameSetup w (evict w policy v vo) ∧
  lastStartAt (evict w policy v vo) = lastStartAt w ∧
  nextVoice (evict w policy v vo) = nextVoice w ∧
  active (evict w policy v vo) = set_delete v (active w).
Proof.
  unfold sameSetup, evict, unregister.
  destruct (activeByTrack w !! v_name vo); simpl; done.
Qed.

Lemma ensureCapacity_setup (w w1 : World) (policy : Policy) (ts : SetId)
    (np : option Q) (b : bool) :
  _ensureCapacity w policy ts np = (b, w1) →
  sameSetup w w1 ∧ lastStartAt w1 = lastStartAt w ∧ nextVoice w1 = nextVoice w.
Proof.
  destruct (ensureCapacity_cases w policy ts np)
    as [H | [H | (victim & vo & _ & _ & _ & _ & H)]];
    rewrite H; intros [= <- <-]; [done | done |].
  destruct (evict_setup w policy victim vo) as (? & ? & ? & _). done.
Qed.

Lemma play_setup (w : World) (name : string) (options : OneShotOptions) :
  sameSetup w (play w name options).2.
Proof.
  unfold play.
  through_gates done.
  destruct (_ensureCapacity _ _ _ _) as [b w1] eqn:E.
  apply ensureCapacity_setup in E as [HS _].
  destruct b; [| done].
  destruct (bool_decide (name ∈ buffers w)); simpl; exact HS.
Qed.

Lemma elem_of_set_add (u v : VoiceId) (s : list VoiceId) :
  u ∈ set_add v s ↔ u = v ∨ u ∈ s.
Proof.
  unfold set_add. case_decide as Hin.
  - split; [by right | intros [-> | H]; done].
  - rewrite elem_of_app, list_elem_of_singleton. tauto.
Qed.

Lemma lookupBuffer_buffers (w : World) (name : string) :
  name ∈ buffers w → lookupBuffer w name = DecodedBuffer.
Proof. intros Hb. unfold lookupBuffer. by rewrite decide_True. Qed.

Lemma lookupBuffer_buffers_inv (w : World) (name : string) :
  lookupBuffer w name = DecodedBuffer → name ∈ buffers w.
Proof. unfold lookupBuffer. by repeat case_decide. Qed.

Lemma hasValue_buffers (w : World) (name : string) :
  name ∈ buffers w → hasValue w name = true.
Proof. intros Hb. unfold hasValue. by rewrite lookupBuffer_buffers. Qed.

Lemma readFaults_buffers (w : World) (name : string) :
  name ∈ buffers w → readFaults w name = false.
Proof. intros Hb. unfold readFaults. by rewrite lookupBuffer_buffers. Qed.

(** [play] spelled out past its three gates. *)
Lemma play_past_gates (w : World) (name : string) (options : OneShotOptions) :
  manager w = true → name ∈ buffers w →
  tooSoon (currentTime w) (lastStartAt w !! name)
          (effectiveMinInterval w name options) = false →
  play w name options =
    match _ensureCapacity w (getPolicy w name) (trackSetOf w name)
            (resolvedPriority w name options) with
    | (false, w1) => (Return None, w1)
    | (true, w1) =>
        (Return (Some (nextVoice w1)),
         (registerVoice w1 name options (getPolicy w name) (currentTime w)
                (trackSetOf w name)).2)
    end.
Proof.
  intros Hm Hb Ht. unfold play.
  rewrite Hm, Ht, readFaults_buffers, hasValue_buffers,
    bool_decide_eq_true_2 by done. simpl.
  destruct (_ensureCapacity _ _ _ _) as [[|] w1]; reflexivity.
Qed.

(** An accepting call of [play]: the capacity check succeeded, and the voice
    was registered in the world it handed back. *)
Lemma play_returns_voice (w w' : World) (name : string) (options : OneShotOptions)
    (nv : VoiceId) :
  play w name options = (Return (Some nv), w') →
  ∃ w1,
    _ensureCapacity w (getPolicy w name) (trackSetOf w name)
                    (resolvedPriority w name options) = (true, w1) ∧
    nv = nextVoice w1 ∧
    w' = (registerVoice w1 name options (getPolicy w name) (currentTime w)
                (trackSetOf w name)).2.
Proof.
  unfold play.
  through_gates discriminate.
  destruct (_ensureCapacity _ _ _ _) as [[|] w1]; [| discriminate].
  destruct (bool_decide (name ∈ buffers w)); [| discriminate].
  intros [= <- <-]. by exists w1.
Qed.

(** Only a stored buffer gets a voice. *)
Lemma play_returns_loaded (w w' : World) (name : string)
    (options : OneShotOptions) (nv : VoiceId) :
  play w name options = (Return (Some nv), w') → name ∈ buffers w.
Proof.
  unfold play.
  through_gates discriminate.
  destruct (_ensureCapacity _ _ _ _) as [[|] w1]; [| discriminate].
  destruct (bool_decide (name ∈ buffers w)) eqn:Eb; [| discriminate].
  intros _. by apply bool_decide_eq_true in Eb.
Qed.

(** A call of the initialised controller that throws: either the read of
    [manager.buffers[name]] threw and nothing changed, or the name passed
    the existence check without naming a stored buffer, the capacity check
    succeeded, and the world is the one that check handed back. *)
Lemma play_throws (w w' : World) (name : string) (options : OneShotOptions) :
  manager w = true → play w name options = (Throw, w') →
  (readFaults w name = true ∧ w' = w) ∨
  (lookupBuffer w name = OtherValue ∧
   _ensureCapacity w (getPolicy w name) (trackSetOf w name)
                   (resolvedPriority w name options) = (true, w')).
Proof.
  intros Hm. unfold play. rewrite Hm. cbn [negb].
  destruct (readFaults w name) eqn:Ef; [intros [= <-]; by left |].
  unfold hasValue, readFaults in *.
  destruct (lookupBuffer w name) eqn:El; cbn [negb]; try discriminate.
  - apply lookupBuffer_buffers_inv in El.
    destruct (tooSoon _ _ _); [discriminate |].
    destruct (_ensureCapacity _ _ _ _) as [[|] w1]; [| discriminate].
    rewrite bool_decide_eq_true_2 by done.
    destruct (registerVoice _ _ _ _ _ _). discriminate.
  - destruct (tooSoon _ _ _); [discriminate |].
    destruct (_ensureCapacity _ _ _ _) as [[|] w1]; [| discriminate].
    destruct (bool_decide (name ∈ buffers w)) eqn:Eb.
    + destruct (registerVoice _ _ _ _ _ _). discriminate.
    + intros [= <-]. by right.
Qed.

Lemma trackSetOf_registerVoice (w : World) (name : string) (options : OneShotOptions)
    (policy : Policy) (now : Q) (ts : SetId) :
  trackSetOf (registerVoice w name options policy now ts).2 name = ts.
Proof. unfold trackSetOf. simpl. by rewrite lookup_insert_eq. Qed.

(** ** Rejections *)

Lemma play_null_unchanged (w w' : World) (name : string)
    (options : OneShotOptions) :
  play w name options = (Return None, w') → w' = w.
Proof.
  unfold play.
  through_gates congruence.
  destruct (_ensureCapacity _ _ _ _) as [[|] w1] eqn:E.
  - destruct (bool_decide (name ∈ buffers w)); [| discriminate].
    destruct (registerVoice _ _ _ _ _ _). discriminate.
  - apply ensureCapacity_false in E. congruence.
Qed.

Lemma play_no_throw (w : World) (name : string) (options : OneShotOptions) :
  manager w = true → name ∈ buffers w → (play w name options).1 ≠ Throw.
Proof.
  intros Hm Hb Hthrow.
  destruct (play w name options) as [r w'] eqn:Hplay. simpl in Hthrow. subst r.
  destruct (play_throws w w' name options Hm Hplay) as [[Hf _] | [Ho _]].
  - by rewrite readFaults_buffers in Hf.
  - by rewrite lookupBuffer_buffers in Ho.
Qed.


Lemma readFaults_false (w : World) (name : string) :
  lookupBuffer w name ≠ Faults → readFaults w name = false.
Proof. unfold readFaults. by destruct (lookupBuffer w name). Qed.


Lemma play_tooSoon (w : World) (name : string) (options : OneShotOptions) :
  manager w = true → name ∈ buffers w →
  tooSoon (currentTime w) (lastStartAt w !! name)
          (effectiveMinInterval w name options) = true →
  play w name options = (Return None, w).
Proof.
  intros Hm Hb Ht. unfold play.
  by rewrite Hm, Ht, readFaults_buffers, hasValue_buffers.
Qed.

Lemma play_no_capacity (w : World) (name : string) (options : OneShotOptions) :
  manager w = true → name ∈ buffers w →
  tooSoon (currentTime w) (lastStartAt w !! name)
          (effectiveMinInterval w name options) = false →
  (_ensureCapacity w (getPolicy w name) (trackSetOf w name)
                   (resolvedPriority w name options)).1 = false →
  play w name options = (Return None, w).
Proof.
  intros Hm Hb Ht Hc. rewrite play_past_gates by done.
  destruct (_ensureCapacity _ _ _ _) as [[|] w1] eqn:E; [discriminate |].
  apply ensureCapacity_false in E. by subst.
Qed.

(** A call inside the minimum interval or with a failed capacity check,
    whatever the name: nothing changes and no voice is returned; the call
    returns null unless the read of [manager.buffers[name]] throws. *)
Lemma play_blocked (w : World) (name : string) (options : OneShotOptions) :
  manager w = true →
  tooSoon (currentTime w) (lastStartAt w !! name)
          (effectiveMinInterval w name options) = true ∨
  (_ensureCapacity w (getPolicy w name) (trackSetOf w name)
                   (resolvedPriority w name options)).1 = false →
  play w name options =
    (if readFaults w name then Throw else Return None, w).
Proof.
  intros Hm H. unfold play. rewrite Hm. cbn [negb].
  destruct (readFaults w name); [done |].
  destruct (hasValue w name); cbn [negb]; [| done].
  destruct (tooSoon _ _ _); [done |].
  destruct H as [H | H]; [done |].
  destruct (_ensureCapacity _ _ _ _) as [[|] w1] eqn:E; [discriminate |].
  apply ensureCapacity_false in E. by subst.
Qed.

(** What [play_blocked] gives, spelled out. *)
Lemma play_blocked_spec (w : World) (name : string) (options : OneShotOptions) :
  play w name options =
    (if readFaults w name then Throw else Return None, w) →
  (play w name options).2 = w ∧
  (∀ v, (play w name options).1 ≠ Return (Some v)) ∧
  (lookupBuffer w name ≠ Faults → play w name options = (Return None, w)).
Proof.
  intros ->. split; [done |]. split.
  - intros v. simpl. by destruct (readFaults w name).
  - intros Hno. by rewrite readFaults_false.
Qed.





(** ** The priority guard *)

(** C4.  A voice that leaves the global set during a call of [play] has a
    priority no greater than the priority resolved for the call; and when
    the victim picked (under any stealing strategy) has a strictly greater
    priority, [_ensureCapacity] fails and [play] returns null, handing back
    the world unchanged: the victim is still registered and its gain
    untouched. *)
Theorem higher_priority_is_never_evicted (w : World) (name : string)
    (options : OneShotOptions) :
  (∀ u, u ∈ active w → u ∉ active (play w name options).2 →
     (priorityOf w u <= default 0 (resolvedPriority w name options))%Q) ∧
  (∀ victim,
     manager w = true → name ∈ buffers w →
     tooSoon (currentTime w) (lastStartAt w !! name)
             (effectiveMinInterval w name options) = false →
     globalFull w = true ∨
       trackFull w (getPolicy w name) (trackSetOf w name) = true →
     pickVictim w (pol_stealStrategy (getPolicy w name)) (trackSetOf w name)
       = Some victim →
     (default 0 (resolvedPriority w name options) < priorityOf w victim)%Q →
     _ensureCapacity w (getPolicy w name) (trackSetOf w name)
                     (resolvedPriority w name options) = (false, w) ∧
     play w name options = (Return None, w)).
Proof.
  split.
  - intros u Hu Hgone. unfold play in Hgone.
    through_gates done.
    destruct (ensureCapacity_cases w (getPolicy w name) (trackSetOf w name)
                (resolvedPriority w name options))
      as [H | [H | (victim & vo & _ & _ & Hp & _ & H)]];
      rewrite H in Hgone; [| done |].
    + exfalso. apply Hgone.
      destruct (bool_decide (name ∈ buffers w)); simpl; [| done].
      apply elem_of_set_add. by right.
    + destruct (evict_setup w (getPolicy w name) victim vo)
        as (_ & _ & _ & Hact).
      destruct (decide (u = victim)) as [-> | Hne];
        [by apply lt_false in Hp |].
      exfalso. apply Hgone.
      destruct (bool_decide (name ∈ buffers w)); simpl;
        [apply elem_of_set_add; right |];
        rewrite Hact; by apply elem_of_set_delete.
  - intros victim Hm Hb Ht Hfull Hpick Hlt.
    assert (E : _ensureCapacity w (getPolicy w name) (trackSetOf w name)
                  (resolvedPriority w name options) = (false, w)).
    { unfold _ensureCapacity.
      replace (negb (globalFull w) &&
               negb (trackFull w (getPolicy w name) (trackSetOf w name)))
        with false by (destruct Hfull as [-> | ->];
                       [done | by rewrite andb_false_r]).
      case_decide; [done |]. rewrite Hpick.
      apply lt_spec in Hlt. by rewrite Hlt. }
    split; [exact E |]. rewrite play_past_gates by done. by rewrite E.
Qed.

Lemma higher_priority_is_never_evicted_witness :
  _ensureCapacity threeVoices (getPolicy threeVoices "a")
    (trackSetOf threeVoices "a")
    (resolvedPriority threeVoices "a" (withPriority 1)) = (false, threeVoices) ∧
  play threeVoices "a" (withPriority 1) = (Return None, threeVoices).
Proof.
  destruct (higher_priority_is_never_evicted threeVoices "a" (withPriority 1))
    as [_ H].
  apply (H 1); try reflexivity.
  left. vm_compute. reflexivity.
Defined.

(** ** The rate limiter *)

Lemma tooSoon_spec (now : Q) (last minInt : option Q) :
  tooSoon now last minInt = true ↔
  ∃ l m, last = Some l ∧ minInt = Some m ∧ (JS.sub now l < JS.double m)%Q.
Proof.
  unfold tooSoon. destruct last as [l |], minInt as [m |].
  - rewrite lt_spec.
    split; [by exists l, m | by intros (? & ? & [= ->] & [= ->] & ?)].
  - split; [discriminate | by intros (? & ? & _ & ? & _)].
  - split; [discriminate | by intros (? & ? & ? & _)].
  - split; [discriminate | by intros (? & ? & ? & _)].
Qed.

(** A reading minus itself is zero. *)
Lemma sub_same (x : Q) : JS.sub x x = 0%Q.
Proof.
  unfold JS.sub. generalize (JS.double x). intros y. unfold JS.double.
  replace (Qeq_bool (y - y) 0) with true; [done |].
  symmetry. apply Qeq_bool_iff. ring.
Qed.

(** The limiter at readings of a clock that advances by blocks of 128 frames
    at 96 kHz, with the interval 0.02: sixteen blocks less one block is not
    below the interval, twenty-two blocks less seven is. *)
Lemma tooSoon_at_block_readings :
  tooSoon (2048 # 96000) (Some (128 # 96000)) (Some (2 # 100)) = false ∧
  tooSoon (22 * 128 # 96000) (Some (7 * 128 # 96000)) (Some (2 # 100)) = true.
Proof. split; vm_compute; reflexivity. Qed.

(** C5.  On a loaded track, with the interval [options.minIntervalOverride]
    when it is given and the policy's [minInterval] otherwise, and with
    [now - lastStartAt[name]] the subtraction of the two readings as the
    platform's numbers carry it out: a call with that difference below the
    interval returns null and changes nothing; a call on a track never
    started, or with that difference at or above the interval, passes the
    limiter, its outcome being that of the capacity check; and an accepted
    call stamps [lastStartAt[name]] with its clock reading, after which a
    further call at the same reading under a positive interval, or at a
    later reading whose difference is below the interval, returns null. *)
Theorem rate_limit (w : World) (name : string) (options : OneShotOptions) :
  manager w = true → name ∈ buffers w →
  let interval (x : World) (o : OneShotOptions) : option Q :=
    match opt_minIntervalOverride o with
    | Some override => Some override
    | None => pol_minInterval (getPolicy x name)
    end in
  (∀ l m,
     lastStartAt w !! name = Some l →
     interval w options = Some m →
     (JS.sub (currentTime w) l < JS.double m)%Q →
     play w name options = (Return None, w)) ∧
  ((∀ l m,
      lastStartAt w !! name = Some l →
      interval w options = Some m →
      (JS.double m <= JS.sub (currentTime w) l)%Q) →
   play w name options =
     match _ensureCapacity w (getPolicy w name) (trackSetOf w name)
             (resolvedPriority w name options) with
     | (false, w1) => (Return None, w1)
     | (true, w1) =>
         (Return (Some (nextVoice w1)),
          (registerVoice w1 name options (getPolicy w name) (currentTime w)
                 (trackSetOf w name)).2)
     end) ∧
  (∀ v w',
     play w name options = (Return (Some v), w') →
     lastStartAt w' !! name = Some (currentTime w) ∧
     (∀ options' m,
        interval w' options' = Some m → (0 < JS.double m)%Q →
        play w' name options' = (Return None, w')) ∧
     (∀ t options' m,
        interval w' options' = Some m →
        (currentTime w <= t)%Q →
        (JS.sub t (currentTime w) < JS.double m)%Q →
        play (tick t w') name options' = (Return None, tick t w'))).
Proof.
  intros Hm Hb interval.
  assert (Hint : ∀ x o, interval x o = effectiveMinInterval x name o).
  { intros x o. unfold interval, effectiveMinInterval, JS.nullish.
    by destruct (opt_minIntervalOverride o). }
  split; [| split].
  - intros l m Hl He Hlt. apply play_tooSoon; [done | done |].
    apply tooSoon_spec. exists l, m. by rewrite <- Hint.
  - intros Hlate. apply play_past_gates; try done.
    apply not_true_iff_false. intros (l & m & Hl & He & Hlt)%tooSoon_spec.
    rewrite <- Hint in He. specialize (Hlate l m Hl He). lra.
  - intros v w' Hplay.
    pose proof (play_setup w name options) as HS. rewrite Hplay in HS.
    destruct HS as (Hbuf & Hnow & Hman & _). simpl in Hbuf, Hnow, Hman.
    assert (Hlast : lastStartAt w' !! name = Some (currentTime w)).
    { apply play_returns_voice in Hplay as (w1 & _ & _ & ->).
      simpl. by rewrite lookup_insert_eq. }
    split; [exact Hlast |]. split.
    + intros options' m He Hpos.
      apply play_tooSoon; [congruence | congruence |].
      apply tooSoon_spec. exists (currentTime w), m.
      split; [exact Hlast |]. split; [by rewrite <- Hint |].
      by rewrite Hnow, sub_same.
    + intros t options' m He Hle Hlt.
      apply play_tooSoon; [simpl; congruence | simpl; congruence |].
      apply tooSoon_spec. exists (currentTime w), m.
      split; [exact Hlast |]. split; [by rewrite <- Hint |].
      simpl. rewrite Hnow.
      replace (Qle_bool (currentTime w) t) with true
        by (symmetry; by apply Qle_bool_iff).
      exact Hlt.
Qed.

Lemma rate_limit_witness :
  play crossTrackRun "b" noOptions = (Return None, crossTrackRun).
Proof.
  destruct (rate_limit crossTrackRun "b" noOptions) as (H & _ & _);
    [reflexivity | reflexivity |].
  apply (H 0%Q (2 # 100)%Q); [reflexivity | reflexivity |].
  vm_compute. reflexivity.
Defined.

(** ** Victim selection under 'stealOldest' *)

(** C3.  In a world reached under one registry, for the Set [play] looks up
    for track [name]: if that Set is not empty, 'stealOldest' picks its
    member accepted first; if it is empty and some voice is active, the
    active voice accepted first.  Voices are numbered in the order of their
    acceptance and each registry lists them in that order: an accepted voice
    gets the next number and goes last, after all the voices already there.
    The voice a call of [play] evicts under 'stealOldest' is the one picked. *)
Theorem stealOldest_picks_earliest (w : World) (name : string) :
  reachable w →
  let ts := trackSetOf w name in
  (set_at w ts ≠ [] →
   ∃ v, pickVictim w (Some "stealOldest"%string) ts = Some v ∧
        v ∈ set_at w ts ∧ ∀ u, u ∈ set_at w ts → u ≠ v → v < u) ∧
  (set_at w ts = [] → active w ≠ [] →
   ∃ v, pickVictim w (Some "stealOldest"%string) ts = Some v ∧
        v ∈ active w ∧ ∀ u, u ∈ active w → u ≠ v → v < u) ∧
  (∀ options nv w',
     play w name options = (Return (Some nv), w') →
     nv = nextVoice w ∧ nextVoice w' = S nv ∧
     (∃ rest, active w' = rest ++ [nv] ∧ ∀ u, u ∈ rest → u ∈ active w ∧ u < nv) ∧
     (∃ rest, set_at w' (trackSetOf w' name) = rest ++ [nv] ∧
              ∀ u, u ∈ rest → u ∈ set_at w ts ∧ u < nv)) ∧
  (∀ options u,
     pol_stealStrategy (getPolicy w name) = Some "stealOldest"%string →
     u ∈ active w → u ∉ active (play w name options).2 →
     pickVictim w (Some "stealOldest"%string) ts = Some u).
Proof.
  intros HI%reachable_Inv ts.
  pose proof (Slot_trackSetOf w HI name) as HS. fold ts in HS.
  split; [| split; [| split]].
  - intros Hne. destruct (set_at w ts) as [| x l] eqn:E; [done |].
    exists x. unfold pickVictim. rewrite decide_True by done.
    rewrite E. simpl. split; [done |].
    apply sorted_head_least; [| done]. rewrite <- E.
    destruct HS as [Hm | (_ & Hnil & _)]; [| congruence].
    by destruct (inv_track w HI _ _ Hm) as (_ & _ & ? & _).
  - intros Hnil Hne. destruct (active w) as [| x l] eqn:E; [done |].
    exists x. unfold pickVictim. rewrite decide_True by done.
    rewrite Hnil, E. simpl. split; [done |].
    apply sorted_head_least; [| done]. rewrite <- E.
    apply (inv_active_sorted w HI).
  - intros options nv w' Hplay.
    apply play_returns_voice in Hplay as (w1 & E & -> & ->). fold ts in E |- *.
    destruct (ensureCapacity_Inv _ _ _ name _ _ _ HI HS E) as [HI1 HS1].
    pose proof (ensureCapacity_setup _ _ _ _ _ _ E) as (_ & _ & Hnv).
    split; [done |]. split; [done |].
    assert (Hsub : ∀ u, u ∈ active w1 → u ∈ active w).
    { destruct (ensureCapacity_cases w (getPolicy w name) ts
                  (resolvedPriority w name options))
        as [H | [H | (victim & vo & _ & _ & _ & _ & H)]];
        rewrite H in E; simplify_eq; try done.
      intros u. destruct (evict_setup w (getPolicy w name) victim vo)
        as (_ & _ & _ & ->).
      rewrite elem_of_set_delete. tauto. }
    assert (Hsubt : ∀ u, u ∈ set_at w1 ts → u ∈ set_at w ts).
    { destruct (ensureCapacity_cases w (getPolicy w name) ts
                  (resolvedPriority w name options))
        as [H | [H | (victim & vo & _ & Hpick & _ & Hvo & H)]];
        rewrite H in E; simplify_eq; try done.
      pose proof (pickVictim_active _ HI _ _ _ _ HS Hpick) as Hact.
      destruct (inv_active w HI _ Hact) as (vo' & Hvo' & Hm & _).
      assert (vo' = vo) by congruence. subst vo'.
      rewrite evict_removed by done. intros u.
      rewrite set_at_removed. case_decide; [| done].
      rewrite elem_of_set_delete. tauto. }
    split.
    + exists (active w1). simpl.
      rewrite set_add_fresh by eauto using Inv_active_lt.
      split; [done |]. intros u Hu. split; [auto |].
      eauto using Inv_active_lt.
    + exists (set_at w1 ts).
      rewrite trackSetOf_registerVoice, set_at_registerVoice, decide_True by done.
      rewrite set_add_fresh.
      * split; [done |]. intros u Hu. split; [auto |].
        by destruct (Slot_members_lt _ HI1 _ _ _ HS1 Hu).
      * intros u Hu. by destruct (Slot_members_lt _ HI1 _ _ _ HS1 Hu).
  - intros options u Hst Hu Hgone. unfold play in Hgone.
    through_gates done.
    destruct (ensureCapacity_cases w (getPolicy w name) (trackSetOf w name)
                (resolvedPriority w name options))
      as [H | [H | (victim & vo & _ & Hpick & _ & _ & H)]];
      rewrite H in Hgone; [| done |].
    + exfalso. apply Hgone.
      destruct (bool_decide (name ∈ buffers w)); simpl; [| done].
      apply elem_of_set_add. by right.
    + destruct (evict_setup w (getPolicy w name) victim vo)
        as (_ & _ & _ & Hact).
      rewrite Hst in Hpick.
      destruct (decide (u = victim)) as [-> | Hne]; [done |].
      exfalso. apply Hgone.
      destruct (bool_decide (name ∈ buffers w)); simpl;
        [apply elem_of_set_add; right |];
        rewrite Hact; by apply elem_of_set_delete.
Qed.

Lemma stealOldest_picks_earliest_witness :
  ∃ v, pickVictim oldestRun (Some "stealOldest"%string)
         (trackSetOf oldestRun "a") = Some v ∧
       v ∈ set_at oldestRun (trackSetOf oldestRun "a") ∧
       ∀ u, u ∈ set_at oldestRun (trackSetOf oldestRun "a") → u ≠ v → v < u.
Proof.
  destruct (stealOldest_picks_earliest oldestRun "a") as (H & _).
  - apply reachable_run. reflexivity.
  - apply H. vm_compute. discriminate.
Defined.

(** C3 as stated fails after a second [init]: the [handleEnd] of a voice of
    the earlier registry deletes the new registry's entry for track "a", so
    the next voice of "a" goes into a fresh Set.  With voices 1 and 2 of "a"
    active, the Set [play] looks up holds voice 2 alone, and 'stealOldest'
    evicts voice 2 while voice 1, accepted earlier on the same track, stays. *)
Lemma reinit_stealOldest_passes_over_earlier :
  reachable_reinit reinitStealRun ∧
  pol_stealStrategy (getPolicy reinitStealRun "a") = Some "stealOldest"%string ∧
  active reinitStealRun = [1; 2] ∧
  nameOf reinitStealRun 1 = Some "a"%string ∧
  nameOf reinitStealRun 2 = Some "a"%string ∧
  set_at reinitStealRun (trackSetOf reinitStealRun "a") = [2] ∧
  pickVictim reinitStealRun (Some "stealOldest"%string)
    (trackSetOf reinitStealRun "a") = Some 2 ∧
  (play reinitStealRun "a" noOptions).1 = Return (Some 3) ∧
  active (play reinitStealRun "a" noOptions).2 = [1; 3].
Proof.
  split; [unfold reachable_reinit, reinitStealRun; by eexists _, _, _ |].
  repeat split; by vm_compute.
Qed.

(** ** The limits under 'ignore' *)








(** ** Eviction *)






(** ** A steal across tracks *)

(** C10.  Track "a" is limited to one voice under 'stealQuietest' and has
    one; track "b" has one voice too, accepted earlier, with the same
    priority and gain.  A further [play('a')] picks the voice of "b" (the
    first of least score), evicts it and registers the new voice under "a",
    which then counts two voices against its limit of one. *)
Theorem stealQuietest_overfills_track :
  ∃ (w : World) (name : string) (options : OneShotOptions)
    (victim nv : VoiceId),
    reachable w ∧
    pol_stealStrategy (getPolicy w name) = Some "stealQuietest"%string ∧
    pol_maxVoices (getPolicy w name) = Some 1%Q ∧
    getActiveCount w (Some name) = 1 ∧
    trackFull w (getPolicy w name) (trackSetOf w name) = true ∧
    globalFull w = false ∧
    pickVictim w (pol_stealStrategy (getPolicy w name)) (trackSetOf w name)
      = Some victim ∧
    nameOf w victim = Some "b"%string ∧ name = "a"%string ∧
    (_ensureCapacity w (getPolicy w name) (trackSetOf w name)
                     (resolvedPriority w name options)).1 = true ∧
    (play w name options).1 = Return (Some nv) ∧
    active (play w name options).2 = [1; nv] ∧ victim = 0 ∧
    getActiveCount (play w name options).2 (Some "b"%string) = 0 ∧
    getActiveCount (play w name options).2 (Some name) = 2 ∧
    (1 < inject_Z (Z.of_nat
            (getActiveCount (play w name options).2 (Some name))))%Q.
Proof.
  exists crossTrackRun, "a"%string, noOptions, 0, 2.
  split; [apply reachable_run; reflexivity |].
  vm_compute. repeat split; reflexivity.
Qed.


(** * Further properties *)

(** ** Reasoning along a run *)

Lemma reachable_step (w : World) (e : Event) :
  reachable w → isInit e = false → reachable (step w e).
Proof.
  intros (bufs & t0 & cfg & es & Hes & ->) He.
  exists bufs, t0, cfg, (es ++ [e]). split.
  - rewrite forallb_app, Hes. simpl. by rewrite He.
  - unfold run. by rewrite foldl_snoc.
Qed.

(** Induction over the worlds reached under one registry. *)
Lemma reachable_ind (P : World → Prop) :
  (∀ bufs t0 cfg, P (init cfg (boot bufs t0))) →
  (∀ w e, reachable w → P w → isInit e = false → P (step w e)) →
  ∀ w, reachable w → P w.
Proof.
  intros Hinit Hstep w (bufs & t0 & cfg & es & Hes & ->).
  induction es as [| e es IH] using rev_ind; [apply Hinit |].
  rewrite forallb_app in Hes. apply andb_true_iff in Hes as [Hes He].
  simpl in He. rewrite andb_true_r in He. apply negb_true_iff in He.
  unfold run. rewrite foldl_snoc. apply Hstep; [| by apply IH | done].
  by apply reachable_run.
Qed.

Lemma step_setup (w : World) (e : Event) :
  isInit e = false →
  maxGlobalVoices (step w e) = maxGlobalVoices w ∧
  defaultPolicy (step w e) = defaultPolicy w ∧
  trackPolicies (step w e) = trackPolicies w.
Proof.
  intros He. destruct e as [cfg | name options | v | t | v x | name];
    simpl; try done.
  - by destruct (play_setup w name options) as (_ & _ & _ & ? & ? & ?).
  - unfold ended. destruct (voices w !! v) as [vo |]; [| done].
    destruct (source (v_node vo)) as [s |]; [| done].
    destruct (onended s) as [[| |] |]; try done.
    + unfold handleEnd. by destruct (voices w !! v).
    + unfold cleanup. by destruct (voices w !! v).
  - unfold reportGain. by destruct (voices w !! v).
Qed.

(** ** How a call of [play] changes the global count *)

Lemma evict_length (w : World) (policy : Policy) (v : VoiceId) (vo : Voice) :
  Inv w → v ∈ active w →
  S (length (active (evict w policy v vo))) = length (active w).
Proof.
  intros HI Hv. destruct (evict_setup w policy v vo) as (_ & _ & _ & ->).
  apply set_delete_length; [| done].
  apply sorted_NoDup, (inv_active_sorted w HI).
Qed.

Lemma registerVoice_length (w : World) (name : string)
    (options : OneShotOptions) (policy : Policy) (now : Q) (ts : SetId) :
  Inv w →
  length (active (registerVoice w name options policy now ts).2) =
  S (length (active w)).
Proof.
  intros HI. simpl. rewrite set_add_fresh by eauto using Inv_active_lt.
  rewrite length_app. simpl. lia.
Qed.

(** When [_ensureCapacity] returns true and hands back the very same world,
    no limit was reached. *)
Lemma ensureCapacity_true_same (w : World) (policy : Policy) (name : string)
    (ts : SetId) (np : option Q) :
  Inv w → Slot w name ts →
  _ensureCapacity w policy ts np = (true, w) →
  globalFull w = false ∧ trackFull w policy ts = false.
Proof.
  intros HI HS H.
  destruct (globalFull w) eqn:Eg, (trackFull w policy ts) eqn:Et;
    [exfalso | exfalso | exfalso | done];
    unfold _ensureCapacity in H; rewrite Eg, Et in H; simpl in H;
    (case_decide; [discriminate |]);
    (destruct (pickVictim _ _ _) as [v |] eqn:Ev; [| discriminate]);
    (destruct (JS.lt _ _); [discriminate |]);
    (destruct (voices w !! v) as [vo |] eqn:Evo; [| discriminate]);
    injection H as H;
    pose proof (pickVictim_active _ HI _ _ _ _ HS Ev) as Hact;
    pose proof (evict_length w policy v vo HI Hact) as Hlen;
    rewrite H in Hlen; lia.
Qed.

Lemma play_count_cases (w : World) (name : string) (options : OneShotOptions) :
  Inv w →
  match (play w name options).1 with
  | Return (Some _) =>
      (globalFull w = false ∧
       trackFull w (getPolicy w name) (trackSetOf w name) = false ∧
       length (active (play w name options).2) = S (length (active w))) ∨
      ((globalFull w = true ∨
        trackFull w (getPolicy w name) (trackSetOf w name) = true) ∧
       length (active (play w name options).2) = length (active w))
  | Return None => (play w name options).2 = w
  | Throw =>
      (play w name options).2 = w ∨
      ((globalFull w = true ∨
        trackFull w (getPolicy w name) (trackSetOf w name) = true) ∧
       S (length (active (play w name options).2)) = length (active w))
  end.
Proof.
  intros HI.
  destruct (play w name options) as [r w'] eqn:Hplay. simpl.
  destruct r as [[nv |] |].
  - apply play_returns_voice in Hplay as (w1 & E & -> & ->).
    pose proof (Slot_trackSetOf w HI name) as HS.
    destruct (ensureCapacity_Inv _ _ _ name _ _ _ HI HS E) as [HI1 _].
    rewrite registerVoice_length by done.
    destruct (ensureCapacity_cases w (getPolicy w name) (trackSetOf w name)
                (resolvedPriority w name options))
      as [H | [H | (victim & vo & Hfull & Hpick & _ & _ & H)]];
      rewrite H in E; simplify_eq.
    + left. destruct (ensureCapacity_true_same _ _ name _ _ HI HS H).
      done.
    + right. split; [done |].
      apply evict_length; [done |].
      by apply (pickVictim_active _ HI name _ _ _ HS Hpick).
  - by apply play_null_unchanged in Hplay.
  - apply (play_throws _ _ _ _ (inv_ready w HI)) in Hplay
      as [[_ ->] | [_ E]]; [by left |].
    pose proof (Slot_trackSetOf w HI name) as HS.
    destruct (ensureCapacity_cases w (getPolicy w name) (trackSetOf w name)
                (resolvedPriority w name options))
      as [H | [H | (victim & vo & Hfull & Hpick & _ & _ & H)]];
      rewrite H in E; simplify_eq.
    + by left.
    + right. split; [done |].
      apply evict_length; [done |].
      by apply (pickVictim_active _ HI name _ _ _ HS Hpick).
Qed.

(** X8.  A call of [play] that returns a voice adds one to the global count
    when no limit was reached, and leaves the count as it was when a limit
    was reached (one voice out, one in); a call that returns null changes
    nothing; and a call that throws changes nothing or, when a limit was
    reached, leaves the count one lower (one voice out, none in). *)
Theorem play_changes_count_by_one_or_none (w : World) (name : string)
    (options : OneShotOptions) :
  reachable w →
  match (play w name options).1 with
  | Return (Some _) =>
      (globalFull w = false ∧
       trackFull w (getPolicy w name) (trackSetOf w name) = false ∧
       length (active (play w name options).2) = S (length (active w))) ∨
      ((globalFull w = true ∨
        trackFull w (getPolicy w name) (trackSetOf w name) = true) ∧
       length (active (play w name options).2) = length (active w))
  | Return None => (play w name options).2 = w
  | Throw =>
      (play w name options).2 = w ∨
      ((globalFull w = true ∨
        trackFull w (getPolicy w name) (trackSetOf w name) = true) ∧
       S (length (active (play w name options).2)) = length (active w))
  end.
Proof. intros HI%reachable_Inv. by apply play_count_cases. Qed.

Lemma play_changes_count_by_one_or_none_witness :
  length (active (play crossTrackRun "a" noOptions).2) =
  length (active crossTrackRun).
Proof.
  pose proof (play_changes_count_by_one_or_none crossTrackRun "a" noOptions)
    as H.
  destruct H as [(Hg & Ht & _) | [_ H]].
  - apply reachable_run. reflexivity.
  - vm_compute in Ht. discriminate.
  - exact H.
Defined.


(** ** The global limit *)

Lemma ended_active (v : VoiceId) (w : World) :
  active (ended v w) = active w ∨ active (ended v w) = set_delete v (active w).
Proof.
  unfold ended. destruct (voices w !! v) as [vo |] eqn:Evo; [| by left].
  destruct (source (v_node vo)) as [s |]; [| by left].
  destruct (onended s) as [[| |] |]; try by left.
  - right. unfold handleEnd. by rewrite Evo.
  - left. unfold cleanup. by rewrite Evo.
Qed.

Lemma step_active_other (w : World) (e : Event) :
  match e with
  | EInit _ | EPlay _ _ | EEnded _ => True
  | _ => active (step w e) = active w
  end.
Proof.
  destruct e as [cfg | name options | v | t | v x | name]; simpl; try done.
  unfold reportGain. by destruct (voices w !! v).
Qed.

Lemma global_bound (w : World) :
  reachable w →
  active w = [] ∨
  (inject_Z (Z.of_nat (length (active w))) < maxGlobalVoices w + 1)%Q.
Proof.
  revert w. apply reachable_ind; [by left |].
  intros w e Hw%reachable_Inv IH He.
  destruct (step_setup w e He) as (Hmax & _). rewrite Hmax.
  destruct e as [cfg | name options | v | t | v x | name];
    [done | | | | |];
    try (pose proof (step_active_other w (ETick t)) as ->; exact IH);
    try (pose proof (step_active_other w (EGain v x)) as ->; exact IH);
    try (pose proof (step_active_other w (ELoad name)) as ->; exact IH).
  - simpl. pose proof (play_count_cases w name options Hw) as H.
    destruct (play w name options) as [[[nv |] |] w'] eqn:Hplay; simpl in *;
      [| by subst |].
    + destruct H as [(Hg & _ & Hlen) | (_ & Hlen)].
      * right. rewrite Hlen. unfold globalFull in Hg.
        apply not_true_iff_false in Hg. rewrite ge_spec in Hg.
        rewrite Nat2Z.inj_succ, <- Z.add_1_r, inject_Z_plus.
        change (inject_Z 1) with 1%Q. lra.
      * destruct IH as [Hnil | IH].
        -- left. apply nil_length_inv. by rewrite Hlen, Hnil.
        -- right. by rewrite Hlen.
    + destruct H as [-> | (_ & Hlen)]; [done |].
      destruct IH as [Hnil | IH]; [rewrite Hnil in Hlen; simpl in Hlen; lia |].
      right. eapply Qle_lt_trans; [| exact IH].
      rewrite <- Zle_Qle. lia.
  - simpl. destruct (ended_active v w) as [-> | ->]; [done |].
    destruct IH as [-> | IH]; [by left |]. right.
    pose proof (length_filter (fun x => x ≠ v) (active w)) as Hlen.
    fold (set_delete v (active w)) in Hlen.
    apply Nat2Z.inj_le in Hlen. rewrite Zle_Qle in Hlen. lra.
Qed.

(** X1.  Under one registry the global set never outgrows the global limit:
    it is empty, or its size is below [maxGlobalVoices + 1]; for a limit
    that is a whole number [n], [getActiveCount()] is at most [n]. *)
Theorem global_limit_is_kept (w : World) :
  reachable w →
  (active w = [] ∨
   (inject_Z (Z.of_nat (length (active w))) < maxGlobalVoices w + 1)%Q) ∧
  ∀ n : nat,
    (maxGlobalVoices w == inject_Z (Z.of_nat n))%Q →
    getActiveCount w None ≤ n.
Proof.
  intros Hw. pose proof (global_bound w Hw) as H. split; [exact H |].
  intros n Hn. simpl. destruct H as [-> | H]; [simpl; lia |].
  rewrite Hn in H. change 1%Q with (inject_Z 1) in H.
  rewrite <- inject_Z_plus, <- Zlt_Qlt in H. lia.
Qed.

Lemma global_limit_is_kept_witness : getActiveCount crossTrackRun None ≤ 32.
Proof.
  destruct (global_limit_is_kept crossTrackRun) as [_ H].
  - apply reachable_run. reflexivity.
  - apply H. reflexivity.
Defined.

(** X2.  With [maxGlobalVoices] at or below zero no voice is ever
    registered: under one registry every call of [play] changes nothing and
    returns no voice; it returns null, unless the read of
    [manager.buffers[name]] throws. *)
Theorem nonpositive_global_limit_blocks (w : World) :
  reachable w → (maxGlobalVoices w <= 0)%Q →
  active w = [] ∧
  ∀ name options,
    (play w name options).2 = w ∧
    (∀ v, (play w name options).1 ≠ Return (Some v)) ∧
    (lookupBuffer w name ≠ Faults → play w name options = (Return None, w)).
Proof.
  intros Hw Hmax. pose proof (reachable_Inv w Hw) as HI.
  assert (Hnil : active w = []).
  { destruct (global_bound w Hw) as [H | H]; [done |].
    apply nil_length_inv.
    assert (inject_Z (Z.of_nat (length (active w))) < inject_Z 1)%Q as Hlt
      by (change (inject_Z 1) with 1%Q; lra).
    rewrite <- Zlt_Qlt in Hlt. lia. }
  split; [exact Hnil |]. intros name options.
  apply play_blocked_spec, play_blocked; [apply (inv_ready w HI) |]. right.
  assert (Hpick : pickVictim w (pol_stealStrategy (getPolicy w name))
                    (trackSetOf w name) = None).
  { unfold pickVictim. rewrite Hnil.
    destruct (set_at w (trackSetOf w name)) as [| u l] eqn:Es.
    - by repeat case_decide.
    - destruct (Slot_members_lt w HI name (trackSetOf w name) u) as [Hu _].
      + by apply Slot_trackSetOf.
      + rewrite Es. by left.
      + rewrite Hnil in Hu. by apply elem_of_nil in Hu. }
  assert (Hfull : globalFull w = true).
  { unfold globalFull. rewrite Hnil. simpl. apply ge_spec.
    change (inject_Z 0) with 0%Q. done. }
  unfold _ensureCapacity. rewrite Hfull, Hpick. cbn [negb andb].
  by case_decide.
Qed.

Lemma nonpositive_global_limit_blocks_witness :
  let w := run (init (stealingConfig 0 "stealOldest") (boot {["a"%string]} 0))
               [] in
  play w "a" noOptions = (Return None, w).
Proof.
  intros w. destruct (nonpositive_global_limit_blocks w) as [_ H].
  - apply reachable_run. reflexivity.
  - vm_compute. discriminate.
  - apply H. vm_compute. discriminate.
Defined.

(** ** The time stamps of the rate limiter *)

Lemma play_lastStartAt (w : World) (name : string) (options : OneShotOptions) :
  currentTime (play w name options).2 = currentTime w ∧
  (lastStartAt (play w name options).2 = lastStartAt w ∨
   lastStartAt (play w name options).2 =
     <[name := currentTime w]> (lastStartAt w)).
Proof.
  destruct (play_setup w name options) as (_ & Hnow & _). split; [done |].
  destruct (play w name options) as [[[nv |] |] w'] eqn:Hplay; simpl.
  - right. apply play_returns_voice in Hplay as (w1 & E & _ & ->).
    apply ensureCapacity_setup in E as (_ & Hl & _). simpl. by rewrite Hl.
  - left. apply play_null_unchanged in Hplay. by subst.
  - left. unfold play in Hplay. through_gates congruence.
    destruct (_ensureCapacity _ _ _ _) as [[|] w0] eqn:E; [| discriminate].
    destruct (bool_decide (name ∈ buffers w));
      [destruct (registerVoice _ _ _ _ _ _); discriminate |].
    injection Hplay as <-.
    by apply ensureCapacity_setup in E as (_ & Hl & _).
Qed.

Lemma ended_clock (v : VoiceId) (w : World) :
  currentTime (ended v w) = currentTime w ∧
  lastStartAt (ended v w) = lastStartAt w.
Proof.
  unfold ended. destruct (voices w !! v) as [vo |] eqn:Evo; [| done].
  destruct (source (v_node vo)) as [s |]; [| done].
  destruct (onended s) as [[| |] |]; try done.
  - unfold handleEnd. by rewrite Evo.
  - unfold cleanup. by rewrite Evo.
Qed.

Lemma step_clock (w : World) (e : Event) :
  isInit e = false →
  (currentTime w <= currentTime (step w e))%Q ∧
  (lastStartAt (step w e) = lastStartAt w ∨
   ∃ name, lastStartAt (step w e) = <[name := currentTime w]> (lastStartAt w) ∧
           currentTime (step w e) = currentTime w).
Proof.
  intros He. destruct e as [cfg | name options | v | t | v x | name];
    [done | | | | |]; simpl.
  - destruct (play_lastStartAt w name options) as (-> & [H | H]).
    + split; [lra | by left].
    + split; [lra | right; by exists name].
  - destruct (ended_clock v w) as (-> & ->). split; [lra | by left].
  - split; [| by left].
    destruct (Qle_bool (currentTime w) t) eqn:E; [| lra].
    by apply Qle_bool_iff.
  - unfold reportGain. destruct (voices w !! v); simpl; (split; [lra | by left]).
  - split; [lra | by left].
Qed.

Lemma lastStartAt_bound (w : World) :
  reachable w →
  ∀ n l, lastStartAt w !! n = Some l → (l <= currentTime w)%Q.
Proof.
  revert w.
  apply (reachable_ind
           (fun w => ∀ n l, lastStartAt w !! n = Some l →
                            (l <= currentTime w)%Q));
    [intros ? ? ? n l H; done |].
  intros w e _ IH He n l.
  destruct (step_clock w e He) as (Hnow & [-> | (name & -> & Hsame)]).
  - intros H. specialize (IH n l H). lra.
  - rewrite Hsame. destruct (decide (name = n)) as [-> | Hne].
    + rewrite lookup_insert_eq. intros [= <-]. lra.
    + rewrite lookup_insert_ne by done. apply IH.
Qed.

(** X3.  Under one registry no entry of [lastStartAt] is ahead of the
    clock, and along every further step (the clock never running backwards)
    an entry stays and never decreases. *)
Theorem lastStartAt_never_decreases (w : World) :
  reachable w →
  (∀ n l, lastStartAt w !! n = Some l → (l <= currentTime w)%Q) ∧
  ∀ e, isInit e = false →
    ∀ n l, lastStartAt w !! n = Some l →
      ∃ l', lastStartAt (step w e) !! n = Some l' ∧ (l <= l')%Q.
Proof.
  intros Hw. pose proof (lastStartAt_bound w Hw) as Hb. split; [exact Hb |].
  intros e He n l Hl.
  destruct (step_clock w e He) as (_ & [-> | (name & -> & _)]).
  - exists l. split; [done | lra].
  - destruct (decide (name = n)) as [-> | Hne].
    + exists (currentTime w). rewrite lookup_insert_eq. split; [done |].
      by apply (Hb n).
    + exists l. rewrite lookup_insert_ne by done. split; [done | lra].
Qed.

Lemma lastStartAt_never_decreases_witness :
  ∃ l', lastStartAt (step crossTrackRun (ETick 5)) !! "a"%string = Some l' ∧
        (0 <= l')%Q.
Proof.
  destruct (lastStartAt_never_decreases crossTrackRun) as [_ H].
  - apply reachable_run. reflexivity.
  - apply (H (ETick 5) eq_refl "a"%string 0%Q). reflexivity.
Defined.

(** ** What [getActiveCount] counts *)

Lemma namedActive_registered (w : World) (n : string) (s : SetId) :
  Inv w → activeByTrack w !! n = Some s →
  ∀ v, v ∈ set_at w s ↔ v ∈ namedActive w n.
Proof.
  intros HI Hs v. unfold namedActive. rewrite list_elem_of_filter.
  destruct (inv_track w HI _ _ Hs) as (_ & _ & _ & Hmem). split.
  - intros Hv. destruct (Hmem v Hv). done.
  - intros [Hn Ha]. destruct (inv_active w HI v Ha) as (vo & Hvo & Hm & Hin).
    unfold nameOf in Hn. rewrite Hvo in Hn. injection Hn as <-.
    by replace s with (v_trackSet vo) by congruence.
Qed.

Lemma namedActive_unregistered (w : World) (n : string) :
  Inv w → activeByTrack w !! n = None → namedActive w n = [].
Proof.
  intros HI Hn. unfold namedActive.
  destruct (filter _ (active w)) as [| v l] eqn:E; [done |].
  assert (Hv : v ∈ filter (fun v => nameOf w v = Some n) (active w))
    by (rewrite E; left).
  apply list_elem_of_filter in Hv as [Hname Ha].
  destruct (inv_active w HI v Ha) as (vo & Hvo & Hm & _).
  unfold nameOf in Hname. rewrite Hvo in Hname. injection Hname as <-.
  congruence.
Qed.

(** X4.  Under one registry, for a non-empty track name [getActiveCount(n)]
    is the number of active voices named [n]; it is 0 for a track without
    active voice, known or not. *)
Theorem getActiveCount_counts_named (w : World) (n : string) :
  reachable w → n ≠ EmptyString →
  getActiveCount w (Some n) = length (namedActive w n) ∧
  ((∀ v, v ∈ active w → nameOf w v ≠ Some n) →
   getActiveCount w (Some n) = 0).
Proof.
  intros HI%reachable_Inv Hne.
  assert (Hcount : getActiveCount w (Some n) = length (namedActive w n)).
  { simpl. rewrite decide_False by done.
    destruct (activeByTrack w !! n) as [s |] eqn:Es.
    - apply Permutation_length, NoDup_Permutation.
      + destruct (inv_track w HI _ _ Es) as (_ & _ & Hso & _).
        by apply sorted_NoDup.
      + apply NoDup_filter, sorted_NoDup, (inv_active_sorted w HI).
      + by apply namedActive_registered.
    - by rewrite namedActive_unregistered. }
  split; [exact Hcount |].
  intros Hnone. rewrite Hcount. unfold namedActive.
  destruct (filter _ (active w)) as [| v l] eqn:E; [done |].
  assert (Hv : v ∈ filter (fun v => nameOf w v = Some n) (active w))
    by (rewrite E; left).
  apply list_elem_of_filter in Hv as [Hname Ha]. by destruct (Hnone v Ha).
Qed.

Lemma getActiveCount_counts_named_witness :
  getActiveCount crossTrackRun (Some "a"%string) =
  length (namedActive crossTrackRun "a").
Proof.
  destruct (getActiveCount_counts_named crossTrackRun "a") as [H _].
  - apply reachable_run. reflexivity.
  - discriminate.
  - exact H.
Defined.

(** ** A voice that ends by itself *)

Lemma set_delete_snoc (v : VoiceId) (s : list VoiceId) :
  v ∉ s → set_delete v (s ++ [v]) = s.
Proof.
  intros Hv. unfold set_delete. rewrite filter_app.
  fold (set_delete v s). rewrite set_delete_absent by done.
  rewrite filter_cons. rewrite decide_False by auto. simpl.
  by rewrite app_nil_r.
Qed.

Lemma ensureCapacity_room (w : World) (policy : Policy) (ts : SetId)
    (np : option Q) :
  globalFull w = false → trackFull w policy ts = false →
  _ensureCapacity w policy ts np = (true, w).
Proof. intros Hg Ht. unfold _ensureCapacity. by rewrite Hg, Ht. Qed.

Lemma handleEnd_removed (w : World) (v : VoiceId) (vo : Voice) :
  voices w !! v = Some vo →
  handleEnd v w =
    removed w v vo (Item.set_onended None (Item.disconnect (v_node vo))).
Proof. intros H. unfold handleEnd. by rewrite H. Qed.

Lemma removed_fields (w : World) (v : VoiceId) (vo : Voice) (n : AudioItem) :
  active (removed w v vo n) = set_delete v (active w) ∧
  activeByTrack (removed w v vo n) =
    (if decide (length (set_delete v (set_at w (v_trackSet vo))) = 0)
     then delete (v_name vo) (activeByTrack w) else activeByTrack w).
Proof. done. Qed.

Lemma registerVoice_fields (w : World) (name : string)
    (options : OneShotOptions) (policy : Policy) (now : Q) (ts : SetId) :
  let w1 := (registerVoice w name options policy now ts).2 in
  active w1 = set_add (nextVoice w) (active w) ∧
  activeByTrack w1 = <[name := ts]> (activeByTrack w) ∧
  ∃ vo, voices w1 !! nextVoice w = Some vo ∧
        v_name vo = name ∧ v_trackSet vo = ts ∧
        v_priority vo = JS.nullish (opt_priority options) (pol_priority policy) ∧
        hasPlaybackControl (v_node vo) = true ∧
        ∃ s, source (v_node vo) = Some s ∧ onended s = Some HandleEnd.
Proof.
  intros w1. split; [done |]. split; [done |].
  destruct (registered_node now (currentTime w) policy options)
    as (Hc & s & Hs & He).
  eexists. subst w1. simpl. rewrite lookup_insert_eq.
  split; [done |]. simpl. eauto 10.
Qed.

Lemma ended_registered (w : World) (name : string) (options : OneShotOptions)
    (policy : Policy) (now : Q) (ts : SetId) :
  let w1 := (registerVoice w name options policy now ts).2 in
  ∃ vo, voices w1 !! nextVoice w = Some vo ∧
        v_name vo = name ∧ v_trackSet vo = ts ∧
        ended (nextVoice w) w1 =
          removed w1 (nextVoice w) vo
            (Item.set_onended None (Item.disconnect (v_node vo))).
Proof.
  intros w1.
  destruct (registerVoice_fields w name options policy now ts)
    as (_ & _ & vo & Hvo & Hn & Hts & _ & _ & s & Hs & He).
  exists vo. fold w1 in Hvo. repeat split; try done.
  unfold ended. rewrite Hvo, Hs, He. by apply handleEnd_removed.
Qed.

(** X5.  Under one registry, when a call of [play] registers a voice
    without stealing and that voice then ends by itself, both registries
    are back as they were before the call: the global set, the map of track
    Sets, the members of every Set and every [getActiveCount]. *)
Theorem ended_undoes_registration (w w1 : World) (name : string)
    (options : OneShotOptions) (v : VoiceId) :
  reachable w →
  globalFull w = false →
  trackFull w (getPolicy w name) (trackSetOf w name) = false →
  play w name options = (Return (Some v), w1) →
  active (ended v w1) = active w ∧
  activeByTrack (ended v w1) = activeByTrack w ∧
  (∀ s, set_at (ended v w1) s = set_at w s) ∧
  ∀ n, getActiveCount (ended v w1) n = getActiveCount w n.
Proof.
  intros HI%reachable_Inv Hg Ht Hplay.
  apply play_returns_voice in Hplay as (w0 & E & -> & ->).
  rewrite ensureCapacity_room in E by done. injection E as <-.
  pose proof (Slot_trackSetOf w HI name) as HS.
  set (ts := trackSetOf w name) in *.
  destruct (ended_registered w name options (getPolicy w name)
              (currentTime w) ts) as (vo & Hvo & Hn & Hts & ->).
  set (w1 := (registerVoice w name options (getPolicy w name)
                (currentTime w) ts).2) in *.
  destruct (registerVoice_fields w name options (getPolicy w name)
              (currentTime w) ts) as (Hact1 & Hmap1 & _).
  fold w1 in Hact1, Hmap1.
  assert (Hmem : set_delete (nextVoice w) (set_at w1 ts) = set_at w ts).
  { unfold w1. rewrite set_at_registerVoice, decide_True by done.
    rewrite set_add_fresh.
    - apply set_delete_snoc. intros Hin.
      destruct (Slot_members_lt w HI name ts _ HS Hin). lia.
    - intros u Hu. by destruct (Slot_members_lt w HI name ts u HS Hu). }
  assert (Hact : active (removed w1 (nextVoice w) vo
                   (Item.set_onended None (Item.disconnect (v_node vo))))
                 = active w).
  { destruct (removed_fields w1 (nextVoice w) vo
                (Item.set_onended None (Item.disconnect (v_node vo))))
      as [-> _].
    rewrite Hact1, set_add_fresh by eauto using Inv_active_lt.
    apply set_delete_snoc. intros Hin.
    apply (Inv_active_lt w HI) in Hin. lia. }
  assert (Hmap : activeByTrack (removed w1 (nextVoice w) vo
                   (Item.set_onended None (Item.disconnect (v_node vo))))
                 = activeByTrack w).
  { destruct (removed_fields w1 (nextVoice w) vo
                (Item.set_onended None (Item.disconnect (v_node vo))))
      as [_ ->].
    rewrite Hts, Hn, Hmem, Hmap1.
    destruct HS as [Hs | (Hs & Hnil & _)].
    - destruct (inv_track w HI _ _ Hs) as (_ & Hne & _).
      rewrite decide_False by (by destruct (set_at w ts)).
      by apply insert_id.
    - rewrite Hnil. simpl. by apply delete_insert_id. }
  assert (Hsets : ∀ s, set_at (removed w1 (nextVoice w) vo
                   (Item.set_onended None (Item.disconnect (v_node vo)))) s
                 = set_at w s).
  { intros s. rewrite set_at_removed, Hts. case_decide as Es.
    - by subst s.
    - unfold w1. by rewrite set_at_registerVoice, decide_False. }
  split; [exact Hact |]. split; [exact Hmap |]. split; [exact Hsets |].
  intros [n |]; unfold getActiveCount.
  - rewrite Hact, Hmap. case_decide; [done |].
    destruct (activeByTrack w !! n) as [s |]; [| done]. by rewrite Hsets.
  - by rewrite Hact.
Qed.

Lemma ended_undoes_registration_witness :
  let w := run (init crossTrackConfig (boot {["a"%string; "b"%string]} 0))
               [EPlay "b" noOptions; EPlay "a" noOptions; ETick 1] in
  active (ended 2 (play w "b" noOptions).2) = active w.
Proof.
  intros w.
  destruct (ended_undoes_registration w (play w "b" noOptions).2 "b"
              noOptions 2) as (H & _).
  - apply reachable_run. reflexivity.
  - reflexivity.
  - reflexivity.
  - reflexivity.
  - exact H.
Defined.


(** ** The node of a stolen voice *)

Lemma reachable_run_from (w : World) (es : list Event) :
  reachable w → forallb (fun e => negb (isInit e)) es = true →
  reachable (run w es).
Proof.
  revert w. induction es as [| e es IH]; intros w Hw Hes; [done |].
  simpl in Hes. apply andb_true_iff in Hes as [He Hes].
  apply negb_true_iff in He. simpl. apply IH; [| done].
  by apply reachable_step.
Qed.

Lemma startNode_connected (now : Q) (policy : Policy)
    (options : OneShotOptions) :
  _connected (startNode now policy options) = true.
Proof.
  unfold startNode.
  destruct options as [vol rate det sp pr mi du]; simpl.
  destruct vol, rate, det, sp as [[[pos|] ? ? ? ? ? ?]|];
    simpl; try destruct (pol_spatialDefaults policy); simpl; eauto.
Qed.

Lemma registered_connected (w : World) (name : string)
    (options : OneShotOptions) (policy : Policy) (now : Q) (ts : SetId) :
  ∃ vo, voices (registerVoice w name options policy now ts).2 !! nextVoice w
          = Some vo ∧
        _connected (v_node vo) = true ∧
        ∃ s, source (v_node vo) = Some s ∧ onended s = Some HandleEnd.
Proof.
  destruct (startNode_started now policy options) as (_ & s & Hs).
  pose proof (startNode_connected now policy options) as Hc.
  eexists. simpl. rewrite lookup_insert_eq. split; [done |]. simpl.
  unfold Item.set_onended, Item.source_stop. rewrite Hs.
  destruct (opt_duration options); simpl; eauto.
Qed.

Lemma Live_removed (w : World) (v : VoiceId) (vo : Voice) (n : AudioItem) :
  Live w → Live (removed w v vo n).
Proof.
  intros HL u uo Huo Hu. simpl in Hu. apply elem_of_set_delete in Hu as [Hu Hne].
  simpl in Huo. rewrite lookup_insert_ne in Huo by done. by apply (HL _ _ Huo).
Qed.

Lemma Live_play (w : World) (name : string) (options : OneShotOptions) :
  Inv w → Live w → Live (play w name options).2.
Proof.
  intros HI HL.
  pose proof (Slot_trackSetOf w HI name) as HS.
  assert (Hcap : ∀ w1,
            _ensureCapacity w (getPolicy w name) (trackSetOf w name)
                            (resolvedPriority w name options) = (true, w1) →
            Live w1).
  { intros w1 E.
    destruct (ensureCapacity_cases w (getPolicy w name) (trackSetOf w name)
                (resolvedPriority w name options))
      as [H | [H | (victim & vo & _ & Hpick & _ & Hvo & H)]];
      rewrite H in E; simplify_eq; try done.
    pose proof (pickVictim_active _ HI _ _ _ _ HS Hpick) as Hact.
    destruct (inv_active w HI _ Hact) as (vo' & Hvo' & Hm & _).
    assert (vo' = vo) by congruence. subst vo'.
    rewrite evict_removed by done. by apply Live_removed. }
  destruct (play w name options) as [[[nv |] |] w'] eqn:Hplay; simpl.
  - apply play_returns_voice in Hplay as (w1 & E & -> & ->).
    destruct (ensureCapacity_Inv _ _ _ name _ _ _ HI HS E) as [HI1 _].
    pose proof (Hcap w1 E) as HL1.
    intros u uo Huo Hu.
    destruct (decide (u = nextVoice w1)) as [-> | Hne].
    + destruct (registered_connected w1 name options (getPolicy w name)
                  (currentTime w) (trackSetOf w name)) as (vo & Hvo & H).
      by replace uo with vo by congruence.
    + simpl in Huo, Hu. rewrite lookup_insert_ne in Huo by done.
      apply elem_of_set_add in Hu as [Hu | Hu]; [done |].
      by apply (HL1 _ _ Huo).
  - apply play_null_unchanged in Hplay. by subst.
  - apply (play_throws _ _ _ _ (inv_ready w HI)) in Hplay
      as [[_ ->] | [_ E]]; [done |].
    by apply Hcap.
Qed.

Lemma Live_step (w : World) (e : Event) :
  isInit e = false → Inv w → Live w → Live (step w e).
Proof.
  intros He HI HL. destruct e as [cfg | name options | v | t | v x | name];
    [done | | | | |]; simpl; try done.
  - by apply Live_play.
  - unfold ended. destruct (voices w !! v) as [vo |] eqn:Evo; [| done].
    destruct (source (v_node vo)) as [s |] eqn:Es; [| done].
    destruct (onended s) as [[| |] |] eqn:Eh; [| | | done].
    + intros u uo Huo Hu. simpl in Huo, Hu.
      destruct (decide (u = v)) as [-> | Hne].
      * destruct (HL v vo Evo Hu) as (_ & s' & Hs' & Hh'). congruence.
      * rewrite lookup_insert_ne in Huo by done. by apply (HL _ _ Huo).
    + rewrite (handleEnd_removed w v vo Evo). by apply Live_removed.
    + unfold cleanup. rewrite Evo.
      intros u uo Huo Hu. simpl in Huo, Hu.
      destruct (decide (u = v)) as [-> | Hne].
      * destruct (HL v vo Evo Hu) as (_ & s' & Hs' & Hh'). congruence.
      * rewrite lookup_insert_ne in Huo by done. by apply (HL _ _ Huo).
  - unfold reportGain. destruct (voices w !! v) as [vo |] eqn:Evo; [| done].
    intros u uo Huo Hu. simpl in Huo, Hu.
    destruct (decide (u = v)) as [-> | Hne].
    + rewrite lookup_insert_eq in Huo. injection Huo as <-. simpl.
      by apply (HL _ _ Evo).
    + rewrite lookup_insert_ne in Huo by done. by apply (HL _ _ Huo).
Qed.

Lemma reachable_Live (w : World) : reachable w → Live w.
Proof.
  revert w. apply reachable_ind.
  - intros bufs t0 cfg v vo _ Hv. by apply elem_of_nil in Hv.
  - intros w e Hw IH He. apply Live_step; [done | | done].
    by apply reachable_Inv.
Qed.

Lemma play_other_voice (w : World) (name : string) (options : OneShotOptions)
    (v : VoiceId) (vo : Voice) :
  Inv w → voices w !! v = Some vo → v ∉ active w →
  voices (play w name options).2 !! v = Some vo ∧
  v ∉ active (play w name options).2.
Proof.
  intros HI Hvo Hv.
  pose proof (Slot_trackSetOf w HI name) as HS.
  assert (Hcap : ∀ w1,
            _ensureCapacity w (getPolicy w name) (trackSetOf w name)
                            (resolvedPriority w name options) = (true, w1) →
            voices w1 !! v = Some vo ∧ v ∉ active w1).
  { intros w1 E.
    destruct (ensureCapacity_cases w (getPolicy w name) (trackSetOf w name)
                (resolvedPriority w name options))
      as [H | [H | (victim & vo' & _ & Hpick & _ & Hvo' & H)]];
      rewrite H in E; simplify_eq; try done.
    pose proof (pickVictim_active _ HI _ _ _ _ HS Hpick) as Hact.
    destruct (evict_setup w (getPolicy w name) victim vo')
      as (_ & _ & _ & Ha).
    split.
    - unfold evict. destruct (unregister _ _ _) as [[? ?] ?]. simpl.
      rewrite lookup_insert_ne; [done |]. intros ->. done.
    - rewrite Ha. rewrite elem_of_set_delete. tauto. }
  destruct (play w name options) as [[[nv |] |] w'] eqn:Hplay; simpl.
  - apply play_returns_voice in Hplay as (w1 & E & -> & ->).
    pose proof (ensureCapacity_setup _ _ _ _ _ _ E) as (_ & _ & Hnv).
    destruct (inv_voices w HI _ _ Hvo) as (Hlt & _).
    destruct (Hcap w1 E) as [Hvo1 Hv1]. simpl. split.
    + rewrite lookup_insert_ne by lia. done.
    + rewrite elem_of_set_add. intros [-> | Hin]; [lia | done].
  - apply play_null_unchanged in Hplay. by subst.
  - apply (play_throws _ _ _ _ (inv_ready w HI)) in Hplay
      as [[_ ->] | [_ E]]; [done |].
    by apply Hcap.
Qed.

Lemma ended_other_voice (w : World) (u v : VoiceId) :
  u ≠ v →
  voices (ended u w) !! v = voices w !! v ∧
  (v ∉ active w → v ∉ active (ended u w)).
Proof.
  intros Hne. split.
  - unfold ended. destruct (voices w !! u) as [uo |] eqn:Euo; [| done].
    destruct (source (v_node uo)) as [s |]; [| done].
    destruct (onended s) as [[| |] |]; try done.
    + simpl. by rewrite lookup_insert_ne.
    + unfold handleEnd. rewrite Euo. simpl. by rewrite lookup_insert_ne.
    + unfold cleanup. rewrite Euo. simpl. by rewrite lookup_insert_ne.
  - intros Hv. destruct (ended_active u w) as [-> | ->]; [done |].
    rewrite elem_of_set_delete. tauto.
Qed.

Lemma Stolen_step (w : World) (e : Event) (v : VoiceId) :
  Inv w → isInit e = false → Stolen w v → Stolen (step w e) v.
Proof.
  intros HI He (Hv & vo & s & Hvo & Hc & Hs & Hh).
  destruct e as [cfg | name options | u | t | u x | name];
    [done | | | | |]; simpl.
  - destruct (play_other_voice w name options v vo HI Hvo Hv) as [Hvo' Hv'].
    split; [done |]. by exists vo, s.
  - destruct (decide (u = v)) as [-> | Hne].
    + unfold ended. rewrite Hvo, Hs, Hh. split; [done |]. by exists vo, s.
    + destruct (ended_other_voice w u v Hne) as [Hvo' Hv'].
      split; [auto |]. exists vo, s. by rewrite Hvo'.
  - split; [done |]. by exists vo, s.
  - unfold reportGain. destruct (voices w !! u) as [uo |] eqn:Euo.
    + split; [done |]. destruct (decide (u = v)) as [-> | Hne].
      * eexists _, s. simpl. rewrite lookup_insert_eq.
        split; [done |]. assert (uo = vo) by congruence. subst uo. done.
      * exists vo, s. simpl. by rewrite lookup_insert_ne.
    + split; [done |]. by exists vo, s.
  - split; [done |]. by exists vo, s.
Qed.

Lemma Stolen_run (w : World) (es : list Event) (v : VoiceId) :
  reachable w → forallb (fun e => negb (isInit e)) es = true →
  Stolen w v → Stolen (run w es) v.
Proof.
  revert w. induction es as [| e es IH]; intros w Hw Hes Hst; [done |].
  simpl in Hes. apply andb_true_iff in Hes as [He Hes].
  apply negb_true_iff in He. simpl. apply IH; [| done |].
  - by apply reachable_step.
  - apply Stolen_step; [by apply reachable_Inv | done | done].
Qed.

Lemma evictedNode_connected (t : Q) (policy : Policy) (n : AudioItem) :
  _connected (evictedNode t policy n) = _connected n.
Proof.
  unfold evictedNode, Item.stop, Item.set_onended, fadeOut. simpl.
  destruct (source n); simpl; destruct (hasPlaybackControl n); done.
Qed.

(** A call of [play] that steals leaves its victim stolen, in a world that
    is still reached under the same registry. *)
Lemma steal_Stolen (w w2 : World) (name : string) (options : OneShotOptions)
    (nv : VoiceId) :
  reachable w →
  globalFull w = true ∨
    trackFull w (getPolicy w name) (trackSetOf w name) = true →
  play w name options = (Return (Some nv), w2) →
  ∃ victim,
    pickVictim w (pol_stealStrategy (getPolicy w name)) (trackSetOf w name)
      = Some victim ∧
    victim ∈ active w ∧ reachable w2 ∧ Stolen w2 victim.
Proof.
  intros Hw Hfull Hplay. pose proof (reachable_Inv w Hw) as HI.
  pose proof (reachable_Live w Hw) as HL.
  assert (Hw2 : reachable w2).
  { replace w2 with (step w (EPlay name options))
      by (simpl; by rewrite Hplay).
    by apply reachable_step. }
  apply play_returns_voice in Hplay as (w1 & E & -> & ->).
  pose proof (Slot_trackSetOf w HI name) as HS.
  destruct (ensureCapacity_cases w (getPolicy w name) (trackSetOf w name)
              (resolvedPriority w name options))
    as [H | [H | (victim & vo & _ & Hpick & _ & Hvo & H)]];
    rewrite H in E; simplify_eq.
  - destruct (ensureCapacity_true_same _ _ name _ _ HI HS H) as [Hg Ht].
    destruct Hfull; congruence.
  - exists victim.
    pose proof (pickVictim_active _ HI _ _ _ _ HS Hpick) as Hact.
    split; [done |]. split; [done |]. split; [done |].
    destruct (inv_active w HI _ Hact) as (vo' & Hvo' & Hm & _).
    assert (vo' = vo) by congruence. subst vo'.
    destruct (inv_voices w HI _ _ Hvo) as (Hlt & Hc & s & Hs & _).
    destruct (HL _ _ Hvo Hact) as (Hconn & _).
    pose (w1 := evict w (getPolicy w name) victim vo).
    assert (Hst1 : voices w1 !! victim =
                     Some (with_node (evictedNode (currentTime w)
                                        (getPolicy w name) (v_node vo)) vo) ∧
                   victim ∉ active w1).
    { unfold w1. rewrite evict_removed by done. simpl.
      rewrite lookup_insert_eq. split; [done |].
      rewrite elem_of_set_delete. tauto. }
    destruct Hst1 as [Hvo1 Hout1].
    destruct (ensureCapacity_Inv _ _ _ name _ _ _ HI HS H) as [HI1 _].
    fold w1 in HI1 |- *.
    destruct (inv_voices w1 HI1 _ _ Hvo1) as (Hlt1 & _).
    split.
    + simpl. rewrite elem_of_set_add. intros [Heq | Hin]; [lia | done].
    + eexists _, _. simpl. rewrite lookup_insert_ne by lia.
      split; [exact Hvo1 |]. simpl.
      rewrite evictedNode_connected,
              (evictedNode_source _ _ _ s) by done.
      done.
Qed.

(** X6.  Under one registry, when a call of [play] steals: [stop] clears
    the [ended] handler that was just set to [cleanup], so for the rest of
    the run the victim stays out of the global set, its source has no
    handler, its [ended] notification changes nothing, and its node is
    never disconnected. *)
Theorem stolen_node_is_never_disconnected (w w2 : World) (name : string)
    (options : OneShotOptions) (nv : VoiceId) :
  reachable w →
  globalFull w = true ∨
    trackFull w (getPolicy w name) (trackSetOf w name) = true →
  play w name options = (Return (Some nv), w2) →
  ∃ victim,
    pickVictim w (pol_stealStrategy (getPolicy w name)) (trackSetOf w name)
      = Some victim ∧
    victim ∈ active w ∧
    ∀ es, forallb (fun e => negb (isInit e)) es = true →
      Stolen (run w2 es) victim ∧
      ended victim (run w2 es) = run w2 es.
Proof.
  intros Hw Hfull Hplay.
  destruct (steal_Stolen w w2 name options nv Hw Hfull Hplay)
    as (victim & Hpick & Hact & Hw2 & Hst2).
  exists victim. split; [done |]. split; [done |].
  intros es Hes.
  pose proof (Stolen_run _ es victim Hw2 Hes Hst2) as Hst.
  split; [exact Hst |].
  destruct Hst as (_ & vo3 & s3 & Hvo3 & _ & Hs3 & Hh3).
  unfold ended. by rewrite Hvo3, Hs3, Hh3.
Qed.

Lemma stolen_node_is_never_disconnected_witness :
  ∃ victim,
    victim ∈ active oldestRun ∧
    Stolen (run (play oldestRun "a" noOptions).2 [EEnded 0; ETick 3]) victim.
Proof.
  destruct (stolen_node_is_never_disconnected oldestRun
              (play oldestRun "a" noOptions).2 "a" noOptions 2)
    as (victim & _ & Hin & H).
  - apply reachable_run. reflexivity.
  - left. vm_compute. reflexivity.
  - vm_compute. reflexivity.
  - exists victim. split; [exact Hin |].
    by destruct (H [EEnded 0; ETick 3] eq_refl).
Defined.

(** X23.  A stolen voice is never stolen twice: under one registry, once a
    call of [play] has evicted a victim, no later victim selection, for any
    track and under any strategy, returns that voice again, although its
    node may still be fading. *)
Theorem stolen_voice_is_never_picked_again (w w2 : World) (name : string)
    (options : OneShotOptions) (nv : VoiceId) :
  reachable w →
  globalFull w = true ∨
    trackFull w (getPolicy w name) (trackSetOf w name) = true →
  play w name options = (Return (Some nv), w2) →
  ∃ victim,
    pickVictim w (pol_stealStrategy (getPolicy w name)) (trackSetOf w name)
      = Some victim ∧
    ∀ es, forallb (fun e => negb (isInit e)) es = true →
      ∀ name' strategy,
        pickVictim (run w2 es) strategy (trackSetOf (run w2 es) name')
          ≠ Some victim.
Proof.
  intros Hw Hfull Hplay.
  destruct (steal_Stolen w w2 name options nv Hw Hfull Hplay)
    as (victim & Hpick & _ & Hw2 & Hst2).
  exists victim. split; [done |].
  intros es Hes name' strategy Hagain.
  destruct (Stolen_run _ es victim Hw2 Hes Hst2) as [Hout _].
  pose proof (reachable_Inv _ (reachable_run_from w2 es Hw2 Hes)) as HI.
  apply Hout.
  pose proof (Slot_trackSetOf _ HI name') as HS.
  exact (pickVictim_active _ HI _ _ _ _ HS Hagain).
Qed.

Lemma stolen_voice_is_never_picked_again_witness :
  pickVictim (play oldestRun "a" noOptions).2 (Some "stealOldest"%string)
             (trackSetOf (play oldestRun "a" noOptions).2 "a") ≠ Some 0.
Proof.
  destruct (stolen_voice_is_never_picked_again oldestRun
              (play oldestRun "a" noOptions).2 "a" noOptions 2)
    as (victim & Hpick & H).
  - apply reachable_run. reflexivity.
  - left. vm_compute. reflexivity.
  - vm_compute. reflexivity.
  - assert (victim = 0) as -> by (vm_compute in Hpick; congruence).
    apply (H [] eq_refl "a"%string (Some "stealOldest"%string)).
Defined.

(** ** The limit of a track *)

Lemma filter_set_delete (P : VoiceId → Prop) `{!∀ x, Decision (P x)}
    (v : VoiceId) (l : list VoiceId) :
  filter P (set_delete v l) = set_delete v (filter P l).
Proof.
  unfold set_delete. rewrite !list_filter_filter.
  apply list_filter_iff. intros x. tauto.
Qed.

Lemma filter_ext_in (P Q : VoiceId → Prop) `{!∀ x, Decision (P x)}
    `{!∀ x, Decision (Q x)} (l : list VoiceId) :
  (∀ x, x ∈ l → (P x ↔ Q x)) → filter P l = filter Q l.
Proof.
  induction l as [| a l IH]; intros Hext; [done |].
  rewrite !filter_cons.
  rewrite IH by (intros x Hx; apply Hext; by right).
  apply decide_ext. apply Hext. left.
Qed.

Lemma count_succ (n : nat) :
  (inject_Z (Z.of_nat (S n)) == inject_Z (Z.of_nat n) + 1)%Q.
Proof.
  rewrite Nat2Z.inj_succ. unfold Z.succ. by rewrite inject_Z_plus.
Qed.

Lemma count_le (n k : nat) :
  n ≤ k → (inject_Z (Z.of_nat n) <= inject_Z (Z.of_nat k))%Q.
Proof. intros H. rewrite <- Zle_Qle. lia. Qed.

Lemma nameOf_removed (w : World) (v : VoiceId) (vo : Voice) (n : AudioItem)
    (u : VoiceId) :
  voices w !! v = Some vo → nameOf (removed w v vo n) u = nameOf w u.
Proof.
  intros Hvo. unfold nameOf. simpl.
  destruct (decide (v = u)) as [<- | Hne].
  - by rewrite lookup_insert_eq, Hvo.
  - by rewrite lookup_insert_ne.
Qed.

Lemma namedActive_removed (w : World) (v : VoiceId) (vo : Voice)
    (n : AudioItem) (name : string) :
  voices w !! v = Some vo →
  namedActive (removed w v vo n) name = set_delete v (namedActive w name).
Proof.
  intros Hvo. unfold namedActive.
  change (active (removed w v vo n)) with (set_delete v (active w)).
  rewrite <- filter_set_delete. apply list_filter_iff.
  intros u. by rewrite nameOf_removed.
Qed.

Lemma namedActive_node (w : World) (v : VoiceId) (vo : Voice) (n : AudioItem)
    (name : string) :
  voices w !! v = Some vo →
  namedActive (with_voice v (with_node n vo) w) name = namedActive w name.
Proof.
  intros Hvo. unfold namedActive. simpl. apply list_filter_iff.
  intros u. unfold nameOf. simpl.
  destruct (decide (v = u)) as [<- | Hne].
  - by rewrite lookup_insert_eq, Hvo.
  - by rewrite lookup_insert_ne.
Qed.

Lemma namedActive_registerVoice (w : World) (name : string)
    (options : OneShotOptions) (policy : Policy) (now : Q) (ts : SetId)
    (name' : string) :
  Inv w →
  namedActive (registerVoice w name options policy now ts).2 name' =
    namedActive w name' ++
    (if decide (name = name') then [nextVoice w] else []).
Proof.
  intros HI. unfold namedActive.
  change (active (registerVoice w name options policy now ts).2)
    with (set_add (nextVoice w) (active w)).
  rewrite set_add_fresh by (intros u Hu; by apply Inv_active_lt).
  rewrite filter_app. f_equal.
  - apply filter_ext_in. intros u Hu.
    pose proof (Inv_active_lt w HI u Hu) as Hlt.
    unfold nameOf. simpl. rewrite lookup_insert_ne by lia. done.
  - assert (Hn : nameOf (registerVoice w name options policy now ts).2
                   (nextVoice w) = Some name).
    { unfold nameOf. simpl. by rewrite lookup_insert_eq. }
    destruct (decide (name = name')) as [-> | Hne].
    + by rewrite filter_cons_True.
    + rewrite filter_cons_False; [done |]. rewrite Hn. congruence.
Qed.

(** The Set [play] looks up for a track holds the active voices of that
    name. *)
Lemma trackCount_named (w : World) (name : string) :
  Inv w → trackCount w name = length (namedActive w name).
Proof.
  intros HI. unfold trackCount, trackSetOf.
  destruct (activeByTrack w !! name) as [s |] eqn:Es; simpl.
  - apply Permutation_length, NoDup_Permutation.
    + destruct (inv_track w HI _ _ Es) as (_ & _ & Hso & _).
      by apply sorted_NoDup.
    + apply NoDup_filter, sorted_NoDup, (inv_active_sorted w HI).
    + by apply namedActive_registered.
  - rewrite namedActive_unregistered by done.
    unfold set_at. by rewrite (inv_sets w HI).
Qed.

Lemma named_ended (u : VoiceId) (w : World) (name : string) :
  length (namedActive (ended u w) name) ≤ length (namedActive w name).
Proof.
  unfold ended. destruct (voices w !! u) as [uo |] eqn:Euo; [| done].
  destruct (source (v_node uo)) as [s |]; [| done].
  destruct (onended s) as [[| |] |]; [| | | done].
  - by rewrite namedActive_node.
  - rewrite (handleEnd_removed w u uo Euo), namedActive_removed by done.
    apply length_filter.
  - unfold cleanup. rewrite Euo. by rewrite namedActive_node.
Qed.

Lemma pickVictim_other (w : World) (strategy : option string) (ts : SetId) :
  strategy ≠ Some "stealOldest"%string →
  strategy ≠ Some "stealQuietest"%string →
  pickVictim w strategy ts = None.
Proof.
  intros H1 H2. unfold pickVictim. by rewrite !decide_False.
Qed.

Lemma named_play (w : World) (name : string) (options : OneShotOptions)
    (name' : string) (m : Q) :
  Inv w →
  pol_maxVoices (getPolicy w name') = Some m → (0 < m)%Q →
  pol_stealStrategy (getPolicy w name') ≠ Some "stealQuietest"%string →
  (inject_Z (Z.of_nat (length (namedActive w name'))) < m + 1)%Q →
  (inject_Z (Z.of_nat (length (namedActive (play w name options).2 name')))
     < m + 1)%Q.
Proof.
  intros HI Hm Hpos Hstr Hlt.
  pose proof (Slot_trackSetOf w HI name) as HS.
  assert (Hcap : ∀ w1,
            _ensureCapacity w (getPolicy w name) (trackSetOf w name)
                            (resolvedPriority w name options) = (true, w1) →
            length (namedActive w1 name') ≤ length (namedActive w name')).
  { intros w1 E.
    destruct (ensureCapacity_cases w (getPolicy w name) (trackSetOf w name)
                (resolvedPriority w name options))
      as [H | [H | (victim & vo & _ & Hpick & _ & Hvo & H)]];
      rewrite H in E; simplify_eq; [done |].
    pose proof (pickVictim_active _ HI _ _ _ _ HS Hpick) as Hact.
    destruct (inv_active w HI _ Hact) as (vo' & Hvo' & Hmap & _).
    assert (vo' = vo) by congruence. subst vo'.
    rewrite evict_removed, namedActive_removed by done.
    apply length_filter. }
  destruct (play w name options) as [[[nv |] |] w'] eqn:Hplay; simpl.
  - apply play_returns_voice in Hplay as (w1 & E & -> & ->).
    destruct (ensureCapacity_Inv _ _ _ name _ _ _ HI HS E) as [HI1 _].
    rewrite namedActive_registerVoice by done.
    pose proof (Hcap w1 E) as Hle.
    destruct (decide (name = name')) as [<- | Hne];
      [| rewrite app_nil_r; pose proof (count_le _ _ Hle); lra].
    rewrite length_app. simpl. rewrite Nat.add_1_r, count_succ.
    destruct (trackFull w (getPolicy w name) (trackSetOf w name)) eqn:Efull.
    + (* the track is full: the victim is its own earliest voice *)
      destruct (ensureCapacity_cases w (getPolicy w name) (trackSetOf w name)
                  (resolvedPriority w name options))
        as [H | [H | (victim & vo & _ & Hpick & _ & Hvo & H)]];
        rewrite H in E; simplify_eq.
      { destruct (ensureCapacity_true_same _ _ name _ _ HI HS H). congruence. }
      pose proof (pickVictim_active _ HI _ _ _ _ HS Hpick) as Hact.
      destruct (inv_active w HI _ Hact) as (vo' & Hvo' & Hmap & _).
      assert (vo' = vo) by congruence. subst vo'.
      rewrite evict_removed, namedActive_removed by done.
      unfold trackFull in Efull. rewrite Hm in Efull. simpl in Efull.
      apply ge_spec in Efull.
      destruct (set_at w (trackSetOf w name)) as [| x l] eqn:Eset.
      { change (m <= 0)%Q in Efull. lra. }
      assert (Hold : pol_stealStrategy (getPolicy w name)
                       = Some "stealOldest"%string).
      { destruct (decide (pol_stealStrategy (getPolicy w name)
                            = Some "stealOldest"%string)) as [| Hno];
          [done |].
        by rewrite pickVictim_other in Hpick. }
      unfold pickVictim in Hpick. rewrite Hold in Hpick.
      rewrite decide_True in Hpick by done. rewrite Eset in Hpick.
      simpl in Hpick. injection Hpick as ->.
      destruct HS as [Hts | (_ & Hnil & _)]; [| congruence].
      destruct (inv_track w HI _ _ Hts) as (_ & _ & _ & Hmem).
      destruct (Hmem victim) as [_ Hname]; [rewrite Eset; left |].
      assert (Hin : victim ∈ namedActive w name).
      { unfold namedActive. by apply list_elem_of_filter. }
      assert (Hnd : NoDup (namedActive w name)).
      { apply NoDup_filter, sorted_NoDup, (inv_active_sorted w HI). }
      pose proof (set_delete_length _ _ Hnd Hin) as Hlen.
      rewrite <- count_succ, Hlen. done.
    + unfold trackFull in Efull. rewrite Hm in Efull. simpl in Efull.
      apply not_true_iff_false in Efull. rewrite ge_spec in Efull.
      pose proof (trackCount_named w name HI) as Hcount.
      unfold trackCount in Hcount. rewrite Hcount in Efull.
      pose proof (count_le _ _ Hle). lra.
  - apply play_null_unchanged in Hplay. by subst.
  - apply (play_throws _ _ _ _ (inv_ready w HI)) in Hplay
      as [[_ ->] | [_ E]]; [done |].
    pose proof (count_le _ _ (Hcap w' E)). lra.
Qed.

Lemma getPolicy_step (w : World) (e : Event) (name : string) :
  isInit e = false → getPolicy (step w e) name = getPolicy w name.
Proof.
  intros He. destruct (step_setup w e He) as (_ & Hd & Ht).
  unfold getPolicy. by rewrite Hd, Ht.
Qed.

Lemma named_bound (w : World) :
  reachable w →
  ∀ name m,
    pol_maxVoices (getPolicy w name) = Some m → (0 < m)%Q →
    pol_stealStrategy (getPolicy w name) ≠ Some "stealQuietest"%string →
    (inject_Z (Z.of_nat (length (namedActive w name))) < m + 1)%Q.
Proof.
  apply (reachable_ind (fun w => ∀ name m,
    pol_maxVoices (getPolicy w name) = Some m → (0 < m)%Q →
    pol_stealStrategy (getPolicy w name) ≠ Some "stealQuietest"%string →
    (inject_Z (Z.of_nat (length (namedActive w name))) < m + 1)%Q)).
  - intros bufs t0 cfg name m _ Hpos _. change (0 < m + 1)%Q. lra.
  - intros w0 e Hw IH He name m. rewrite getPolicy_step by done.
    intros Hm Hpos Hstr. specialize (IH name m Hm Hpos Hstr).
    pose proof (reachable_Inv w0 Hw) as HI.
    destruct e as [cfg | n options | u | t | u x | n]; [done | | | | |]; simpl.
    + by apply named_play.
    + pose proof (count_le _ _ (named_ended u w0 name)). lra.
    + done.
    + unfold reportGain. destruct (voices w0 !! u) as [uo |] eqn:Euo;
        [| done].
      by rewrite namedActive_node.
    + done.
Qed.

(** X7.  Under one registry, a track whose resolved [maxVoices] is a
    positive number [m] and whose strategy is not 'stealQuietest' never
    holds [m + 1] voices or more: the Set [play] looks up for it holds the
    active voices of that name, fewer than [m + 1] of them, so at most [m]
    when [m] is a whole number. *)
Theorem track_limit_is_kept (w : World) (name : string) (m : Q) :
  reachable w →
  pol_maxVoices (getPolicy w name) = Some m → (0 < m)%Q →
  pol_stealStrategy (getPolicy w name) ≠ Some "stealQuietest"%string →
  trackCount w name = length (namedActive w name) ∧
  (inject_Z (Z.of_nat (trackCount w name)) < m + 1)%Q ∧
  ∀ k : nat, (m == inject_Z (Z.of_nat k))%Q → trackCount w name ≤ k.
Proof.
  intros Hw Hm Hpos Hstr. pose proof (reachable_Inv w Hw) as HI.
  pose proof (named_bound w Hw name m Hm Hpos Hstr) as Hb.
  rewrite trackCount_named by done. split; [done |]. split; [done |].
  intros k Hk. rewrite Hk, <- count_succ in Hb.
  rewrite <- Zlt_Qlt in Hb. lia.
Qed.

Lemma track_limit_is_kept_witness : trackCount oldestTrackRun "a" ≤ 2.
Proof.
  destruct (track_limit_is_kept oldestTrackRun "a" 2) as (_ & _ & H).
  - apply reachable_run. reflexivity.
  - vm_compute. reflexivity.
  - reflexivity.
  - vm_compute. discriminate.
  - apply (H 2). reflexivity.
Defined.

(** ** Strategies *)

(** X9.  Stealing happens under the two strategy names only: with any other
    resolved strategy ('ignore', a misspelt name, [undefined]) a call of
    [play] at a reached limit changes nothing and returns no voice; it
    returns null, unless the read of [manager.buffers[name]] throws. *)
Theorem unlisted_strategy_never_steals (w : World) (name : string)
    (options : OneShotOptions) :
  manager w = true →
  pol_stealStrategy (getPolicy w name) ≠ Some "stealOldest"%string →
  pol_stealStrategy (getPolicy w name) ≠ Some "stealQuietest"%string →
  globalFull w = true ∨
    trackFull w (getPolicy w name) (trackSetOf w name) = true →
  (play w name options).2 = w ∧
  (∀ v, (play w name options).1 ≠ Return (Some v)) ∧
  (lookupBuffer w name ≠ Faults → play w name options = (Return None, w)).
Proof.
  intros Hm Ho Hq Hfull.
  apply play_blocked_spec, play_blocked; [done |]. right.
  unfold _ensureCapacity.
  assert (Hgate : negb (globalFull w) &&
                  negb (trackFull w (getPolicy w name) (trackSetOf w name))
                  = false).
  { destruct Hfull as [-> | ->]; [done |]. by rewrite andb_false_r. }
  rewrite Hgate. case_decide; [done |].
  by rewrite pickVictim_other.
Qed.

Lemma unlisted_strategy_never_steals_witness :
  let w := run (init (stealingConfig 2 "stealoldest") (boot {["a"%string]} 0))
               [EPlay "a" noOptions; EPlay "a" noOptions] in
  length (active w) = 2 ∧ play w "a" noOptions = (Return None, w).
Proof.
  intros w. split; [reflexivity |].
  destruct (unlisted_strategy_never_steals w "a" noOptions) as (_ & _ & H).
  - reflexivity.
  - vm_compute. discriminate.
  - vm_compute. discriminate.
  - left. vm_compute. reflexivity.
  - apply H. vm_compute. discriminate.
Defined.

Lemma quietest_kept (w : World) (vs : list VoiceId) (m : option Q)
    (y : VoiceId) :
  is_Some (quietest w vs m (Some y)).
Proof.
  revert m y. induction vs as [| x l IH]; intros m y; simpl; [by eexists |].
  destruct (match m with None => true | Some m0 => JS.lt (score w x) m0 end);
    apply IH.
Qed.

Lemma quietest_first (w : World) (vs : list VoiceId) (m : option Q)
    (vic : option VoiceId) (v : VoiceId) :
  quietest w vs m vic = Some v →
  (vic = Some v ∧ ∀ u, u ∈ vs → ∃ x, m = Some x ∧ (x <= score w u)%Q) ∨
  ∃ l1 l2, vs = l1 ++ v :: l2 ∧
    (∀ u, u ∈ l1 → (score w v < score w u)%Q) ∧
    (∀ u, u ∈ l2 → (score w v <= score w u)%Q) ∧
    (∀ x, m = Some x → (score w v < x)%Q).
Proof.
  revert m vic. induction vs as [| y l IH]; simpl; intros m vic H.
  - left. split; [done |]. intros u Hu. by apply elem_of_nil in Hu.
  - destruct (match m with None => true | Some m0 => JS.lt (score w y) m0 end)
      eqn:Ec.
    + assert (Hm : ∀ x, m = Some x → (score w y < x)%Q).
      { intros x ->. by apply lt_spec. }
      right.
      destruct (IH _ _ H) as [[Hv Hl] | (l1 & l2 & -> & H1 & H2 & Hx)].
      * injection Hv as ->. exists [], l. split; [done |].
        split; [intros u Hu; by apply elem_of_nil in Hu |].
        split; [| done].
        intros u Hu. destruct (Hl u Hu) as (x & [= <-] & Hle). done.
      * specialize (Hx _ eq_refl). exists (y :: l1), l2. split; [done |].
        split; [| split; [done |]].
        -- intros u Hu. apply elem_of_cons in Hu as [-> | Hu]; auto.
        -- intros x Hmx. specialize (Hm x Hmx). lra.
    + destruct m as [x |]; [| discriminate]. apply lt_false in Ec.
      destruct (IH _ _ H) as [[Hv Hl] | (l1 & l2 & -> & H1 & H2 & Hx)].
      * left. split; [done |]. intros u Hu.
        apply elem_of_cons in Hu as [-> | Hu]; [by exists x | auto].
      * specialize (Hx _ eq_refl). right. exists (y :: l1), l2.
        split; [done |]. split; [| split; [done |]].
        -- intros u Hu. apply elem_of_cons in Hu as [-> | Hu]; [lra | auto].
        -- intros x' [= <-]. done.
Qed.

(** X10.  The 'stealQuietest' branch of [pickVictim] finds no victim only
    when no voice is active; otherwise it returns the first voice, in the
    order of acceptance, whose score is the least: every earlier voice has a
    strictly greater score and no later voice has a smaller one. *)
Theorem stealQuietest_picks_first_least (w : World) (ts : SetId) :
  match pickVictim w (Some "stealQuietest"%string) ts with
  | Some v =>
      ∃ l1 l2, active w = l1 ++ v :: l2 ∧
        (∀ u, u ∈ l1 → (score w v < score w u)%Q) ∧
        (∀ u, u ∈ l2 → (score w v <= score w u)%Q)
  | None => active w = []
  end.
Proof.
  unfold pickVictim. rewrite decide_False by done. rewrite decide_True by done.
  destruct (quietest w (active w) None None) as [v |] eqn:E.
  - destruct (quietest_first _ _ _ _ _ E)
      as [[Hv _] | (l1 & l2 & Hl & H1 & H2 & _)]; [done |].
    by exists l1, l2.
  - destruct (active w) as [| y l]; [done |]. simpl in E.
    destruct (quietest_kept w l (Some (score w y)) y) as [v Hv]. congruence.
Qed.

Lemma stealQuietest_victim_outranks_witness :
  (priorityOf threeVoices 2 <= priorityOf threeVoices 1 + (1 # 1000))%Q.
Proof.
  apply (stealQuietest_victim_outranks threeVoices
           (trackSetOf threeVoices "a") 1 2).
  - vm_compute. reflexivity.
  - vm_compute. set_solver.
  - vm_compute. split; discriminate.
  - vm_compute. split; discriminate.
Defined.

(** ** The node of a new voice *)

Lemma play_node (w w2 : World) (name : string) (options : OneShotOptions)
    (nv : VoiceId) :
  play w name options = (Return (Some nv), w2) →
  lastStartAt w2 !! name = Some (currentTime w) ∧
  ∃ vo, voices w2 !! nv = Some vo ∧ v_name vo = name ∧
    v_priority vo = resolvedPriority w name options ∧
    v_node vo =
      let n := Item.set_onended (Some HandleEnd)
                 (startNode (currentTime w) (getPolicy w name) options) in
      from_option (fun d => Item.source_stop (currentTime w + JS.max 0 d)%Q n)
                  n (opt_duration options).
Proof.
  intros Hplay. apply play_returns_voice in Hplay as (w1 & E & -> & ->).
  apply ensureCapacity_setup in E as ((_ & Ht & _) & _ & _).
  unfold registerVoice. cbn [snd lastStartAt voices].
  rewrite !lookup_insert_eq. split; [done |].
  eexists. split; [done |]. cbn [v_name v_priority v_node].
  rewrite Ht. done.
Qed.




(** ** Spatial voices *)

(** X14.  SpatialAudio.setPosition does nothing on a controllable node that
    is not playing, so the order of the two calls matters: a position given
    before [play()] is lost, the same position given after it is taken and
    leaves the other parameters of the panner alone. *)
Theorem setPosition_needs_playing (now : Q) (pos : Q * Q * Q) (n : AudioItem)
    (p : Panner) :
  hasPlaybackControl n = true → isPlaying n = false → panner n = Some p →
  Item.setPosition pos n = n ∧
  panner (Item.play now (Item.setPosition pos n)) = Some p ∧
  ∃ p', panner (Item.setPosition pos (Item.play now n)) = Some p' ∧
        position p' = Some pos ∧
        refDistance p' = refDistance p ∧ maxDistance p' = maxDistance p ∧
        rolloffFactor p' = rolloffFactor p ∧ cone p' = cone p.
Proof.
  intros Hc Hp Hpan.
  assert (Hskip : Item.setPosition pos n = n).
  { unfold Item.setPosition. by rewrite Hc, Hp. }
  split; [done |]. rewrite Hskip.
  unfold Item.play. rewrite Hp, Hc. simpl. split; [done |].
  unfold Item.setPosition. simpl. rewrite Hpan. simpl.
  eexists. split; [done |]. done.
Qed.

Lemma setPosition_needs_playing_witness :
  Item.setPosition (1, 2, 3)%Q (Item.create true) = Item.create true.
Proof.
  destruct (setPosition_needs_playing 0 (1, 2, 3)%Q (Item.create true)
              {| refDistance := None; maxDistance := None;
                 rolloffFactor := None; cone := None; position := None |})
    as (H & _); [reflexivity | reflexivity | reflexivity |].
  exact H.
Defined.

Lemma startNode_panner (now : Q) (policy : Policy) (options : OneShotOptions)
    (sp : OneShotSpatialOptions) :
  opt_spatial options = Some sp →
  ∃ p, panner (startNode now policy options) = Some p ∧
    position p = sp_position sp ∧
    refDistance p =
      JS.nullish (sp_refDistance sp)
                 (pol_spatialDefaults policy ≫= sp_refDistance) ∧
    maxDistance p =
      JS.nullish (sp_maxDistance sp)
                 (pol_spatialDefaults policy ≫= sp_maxDistance) ∧
    rolloffFactor p =
      JS.nullish (sp_rolloffFactor sp)
                 (pol_spatialDefaults policy ≫= sp_rolloffFactor) ∧
    cone p =
      match sp_coneInnerAngle sp, sp_coneOuterAngle sp, sp_coneOuterGain sp
      with
      | None, None, None =>
          sd ← pol_spatialDefaults policy;
          match sp_coneInnerAngle sd, sp_coneOuterAngle sd,
                sp_coneOuterGain sd with
          | None, None, None => None
          | i, a, g => Some (default 360%Q i, default 360%Q a, default 0%Q g)
          end
      | i, a, g => Some (default 360%Q i, default 360%Q a, default 0%Q g)
      end.
Proof.
  intros Hsp. unfold startNode. rewrite Hsp.
  destruct options as [vol rate det sp' pr mi du]; simpl in *.
  destruct vol, rate, det; simpl;
    (destruct (pol_spatialDefaults policy) as [sd |]; simpl;
     destruct (sp_position sp); simpl;
     (eexists; split; [reflexivity |]; simpl;
      split; [done |];
      split; [by destruct (sp_refDistance sp); try destruct (sp_refDistance sd) |];
      split; [by destruct (sp_maxDistance sp); try destruct (sp_maxDistance sd) |];
      split; [by destruct (sp_rolloffFactor sp);
                 try destruct (sp_rolloffFactor sd) |];
      by destruct (sp_coneInnerAngle sp), (sp_coneOuterAngle sp),
                  (sp_coneOuterGain sp))).
Qed.

(** X15.  For a spatial call of [play], the panner of the new voice: the
    position of the call is in place (it is given after the start); each
    distance parameter is the call's, or else the track policy's, or else
    left to the platform; and a call that names any cone parameter sets the
    whole cone from the call alone, an angle it leaves out becoming 360 and
    a gain it leaves out 0, whatever cone the policy gives. *)
Theorem spatial_call_options_win (w w2 : World) (name : string)
    (options : OneShotOptions) (nv : VoiceId) (sp : OneShotSpatialOptions) :
  play w name options = (Return (Some nv), w2) →
  opt_spatial options = Some sp →
  ∃ vo p, voices w2 !! nv = Some vo ∧ panner (v_node vo) = Some p ∧
    position p = sp_position sp ∧
    refDistance p =
      JS.nullish (sp_refDistance sp)
                 (pol_spatialDefaults (getPolicy w name) ≫= sp_refDistance) ∧
    maxDistance p =
      JS.nullish (sp_maxDistance sp)
                 (pol_spatialDefaults (getPolicy w name) ≫= sp_maxDistance) ∧
    rolloffFactor p =
      JS.nullish (sp_rolloffFactor sp)
                 (pol_spatialDefaults (getPolicy w name) ≫= sp_rolloffFactor) ∧
    (is_Some (sp_coneInnerAngle sp) ∨ is_Some (sp_coneOuterAngle sp) ∨
     is_Some (sp_coneOuterGain sp) →
     cone p = Some (default 360%Q (sp_coneInnerAngle sp),
                    default 360%Q (sp_coneOuterAngle sp),
                    default 0%Q (sp_coneOuterGain sp))).
Proof.
  intros Hplay Hsp.
  destruct (play_node _ _ _ _ _ Hplay) as (_ & vo & Hvo & _ & _ & Hnode).
  destruct (startNode_panner (currentTime w) (getPolicy w name) options sp Hsp)
    as (p & Hp & Hpos & Hr & Hm & Hf & Hcone).
  destruct (startNode_started (currentTime w) (getPolicy w name) options)
    as (_ & s & Hs).
  exists vo, p. split; [done |]. split.
  - rewrite Hnode. unfold Item.source_stop, Item.set_onended. rewrite Hs.
    destruct (opt_duration options); done.
  - repeat (split; [done |]).
    intros Hany. rewrite Hcone.
    destruct (sp_coneInnerAngle sp), (sp_coneOuterAngle sp),
             (sp_coneOuterGain sp); try done.
    destruct Hany as [[? [=]] | [[? [=]] | [? [=]]]].
Qed.

Lemma spatial_call_options_win_witness :
  let w := init coneConfig (boot {["a"%string]} 0) in
  ∃ vo p, voices (play w "a" coneCall).2 !! 0 = Some vo ∧
          panner (v_node vo) = Some p ∧
          position p = Some (1, 2, 3)%Q ∧ refDistance p = Some 20%Q ∧
          cone p = Some (45, 360, 0)%Q.
Proof.
  intros w.
  destruct (spatial_call_options_win w (play w "a" coneCall).2 "a" coneCall 0
              innerAngleOnly)
    as (vo & p & Hvo & Hp & Hpos & Hr & _ & _ & Hcone).
  - vm_compute. reflexivity.
  - reflexivity.
  - exists vo, p. repeat (split; [done |]).
    apply Hcone. left. by eexists.
Defined.

(** ** A voice stopped by its holder *)

Lemma play_voice_cases (w : World) (name : string) (options : OneShotOptions)
    (v : VoiceId) (vo : Voice) :
  Inv w → voices w !! v = Some vo →
  voices (play w name options).2 !! v = Some vo ∨
  ∃ t policy,
    voices (play w name options).2 !! v =
      Some (with_node (evictedNode t policy (v_node vo)) vo).
Proof.
  intros HI Hvo.
  assert (Hcap : ∀ w1,
            _ensureCapacity w (getPolicy w name) (trackSetOf w name)
                            (resolvedPriority w name options) = (true, w1) →
            voices w1 !! v = Some vo ∨
            ∃ t policy,
              voices w1 !! v =
                Some (with_node (evictedNode t policy (v_node vo)) vo)).
  { intros w1 E.
    destruct (ensureCapacity_cases w (getPolicy w name) (trackSetOf w name)
                (resolvedPriority w name options))
      as [H | [H | (victim & vo' & _ & _ & _ & Hvo' & H)]];
      rewrite H in E; simplify_eq; [by left |].
    unfold evict. destruct (unregister _ _ _) as [[? ?] ?]. simpl.
    destruct (decide (victim = v)) as [-> | Hne].
    + right. rewrite lookup_insert_eq.
      assert (vo' = vo) by congruence. subst vo'. by eexists _, _.
    + left. by rewrite lookup_insert_ne. }
  destruct (play w name options) as [[[nv |] |] w'] eqn:Hplay; simpl.
  - apply play_returns_voice in Hplay as (w1 & E & -> & ->).
    pose proof (ensureCapacity_setup _ _ _ _ _ _ E) as (_ & _ & Hnv).
    destruct (inv_voices w HI _ _ Hvo) as (Hlt & _).
    simpl. rewrite lookup_insert_ne by lia. by apply Hcap.
  - apply play_null_unchanged in Hplay. subst. by left.
  - apply (play_throws _ _ _ _ (inv_ready w HI)) in Hplay
      as [[_ ->] | [_ E]]; [by left |].
    by apply Hcap.
Qed.

Lemma NoHandler_step (w : World) (e : Event) (v : VoiceId) :
  Inv w → isInit e = false → NoHandler w v → NoHandler (step w e) v.
Proof.
  intros HI He (vo & s & Hvo & Hs & Hh).
  destruct e as [cfg | name options | u | t | u x | name];
    [done | | | | |]; simpl.
  - destruct (inv_voices w HI _ _ Hvo) as (_ & Hc & _).
    destruct (play_voice_cases w name options v vo HI Hvo)
      as [H | (t & policy & H)].
    + by exists vo, s.
    + eexists _, _. split; [exact H |]. simpl.
      rewrite (evictedNode_source _ _ _ s) by done. done.
  - destruct (decide (u = v)) as [-> | Hne].
    + unfold ended. rewrite Hvo, Hs, Hh. by exists vo, s.
    + destruct (ended_other_voice w u v Hne) as [Hvo' _].
      exists vo, s. by rewrite Hvo'.
  - by exists vo, s.
  - unfold reportGain. destruct (voices w !! u) as [uo |] eqn:Euo.
    + destruct (decide (u = v)) as [-> | Hne].
      * eexists _, s. simpl. rewrite lookup_insert_eq.
        split; [done |]. assert (uo = vo) by congruence. subst uo. done.
      * exists vo, s. simpl. by rewrite lookup_insert_ne.
    + by exists vo, s.
  - by exists vo, s.
Qed.

Lemma active_kept_step (w : World) (e : Event) (v : VoiceId) :
  isInit e = false → isPlay e = false → NoHandler w v →
  v ∈ active w → v ∈ active (step w e).
Proof.
  intros He Hp (vo & s & Hvo & Hs & Hh) Hv.
  destruct e as [cfg | name options | u | t | u x | name];
    try done; simpl.
  - destruct (decide (u = v)) as [-> | Hne].
    + unfold ended. by rewrite Hvo, Hs, Hh.
    + destruct (ended_active u w) as [-> | ->]; [done |].
      apply elem_of_set_delete. done.
  - unfold reportGain. by destruct (voices w !! u).
Qed.

Lemma NoHandler_run (w : World) (es : list Event) (v : VoiceId) :
  Inv w → forallb (fun e => negb (isInit e)) es = true →
  NoHandler w v → NoHandler (run w es) v.
Proof.
  revert w. induction es as [| e es IH]; intros w HI Hes Hn; [done |].
  simpl in Hes. apply andb_true_iff in Hes as [He Hes].
  apply negb_true_iff in He. simpl. apply IH; [| done |].
  - by apply Inv_step.
  - by apply NoHandler_step.
Qed.

Lemma active_kept_run (w : World) (es : list Event) (v : VoiceId) :
  Inv w →
  forallb (fun e => negb (isInit e) && negb (isPlay e)) es = true →
  NoHandler w v → v ∈ active w → v ∈ active (run w es).
Proof.
  revert w. induction es as [| e es IH]; intros w HI Hes Hn Hv; [done |].
  simpl in Hes. apply andb_true_iff in Hes as [He Hes].
  apply andb_true_iff in He as [He Hp].
  apply negb_true_iff in He. apply negb_true_iff in Hp.
  simpl. apply IH; [| done | |].
  - by apply Inv_step.
  - by apply NoHandler_step.
  - by apply active_kept_step.
Qed.

(** X16.  [AudioItem.stop] clears the [ended] handler of the source, so a
    voice whose holder calls [voice.node.stop()] loses its [handleEnd]:
    under the same registry its [ended] notification never changes anything
    again, and no notification, clock reading or load removes it from the
    global set; only a later [play] that steals it frees its slot. *)
Theorem stopped_voice_keeps_its_slot (w : World) (v : VoiceId) (delay : Q) :
  reachable w → v ∈ active w →
  let w1 := stopVoice v delay w in
  active w1 = active w ∧
  (∀ es, forallb (fun e => negb (isInit e)) es = true →
     ended v (run w1 es) = run w1 es) ∧
  (∀ es, forallb (fun e => negb (isInit e) && negb (isPlay e)) es = true →
     v ∈ active (run w1 es)).
Proof.
  intros Hw Hv w1. pose proof (reachable_Inv w Hw) as HI.
  destruct (inv_active w HI v Hv) as (vo & Hvo & _).
  destruct (inv_voices w HI _ _ Hvo) as (_ & Hc & s & Hs & _).
  assert (Hw1 : w1 = with_voice v
                  (with_node (Item.stop (currentTime w) delay (v_node vo)) vo)
                  w).
  { unfold w1, stopVoice. by rewrite Hvo. }
  assert (Hsrc : source (Item.stop (currentTime w) delay (v_node vo)) =
                 Some {| startTime := startTime s;
                         stopTime := Some (currentTime w + delay)%Q;
                         onended := None |}).
  { unfold Item.stop. rewrite Hc, Hs. done. }
  assert (HI1 : Inv w1).
  { rewrite Hw1. apply Inv_node; try done.
    - unfold Item.stop. by rewrite Hc.
    - eexists. split; [exact Hsrc | done]. }
  assert (Hn1 : NoHandler w1 v).
  { rewrite Hw1. eexists _, _. simpl. rewrite lookup_insert_eq.
    split; [done |]. simpl. split; [exact Hsrc | done]. }
  assert (Ha1 : active w1 = active w) by (by rewrite Hw1).
  split; [done |]. split.
  - intros es Hes.
    destruct (NoHandler_run w1 es v HI1 Hes Hn1) as (vo' & s' & Hvo' & Hs' & Hh').
    unfold ended. by rewrite Hvo', Hs', Hh'.
  - intros es Hes. apply active_kept_run; try done. by rewrite Ha1.
Qed.

Lemma stopped_voice_keeps_its_slot_witness :
  0 ∈ active (run (stopVoice 0 0 oldestRun) [ETick 5; EEnded 0; EEnded 1]).
Proof.
  destruct (stopped_voice_keeps_its_slot oldestRun 0 0) as (_ & _ & H).
  - apply reachable_run. reflexivity.
  - vm_compute. set_solver.
  - apply (H [ETick 5; EEnded 0; EEnded 1]). reflexivity.
Defined.

(** ** AudioManager *)

(** X17.  [AudioManager.get] hands [config.position] to [setPosition] on a
    node that has not started, where it is ignored: the spatial node it
    returns has no position, and starting the node does not bring the
    position back.  The distance parameters of the configuration are in
    place. *)
Theorem manager_get_loses_position (w : World) (name : string)
    (config : AudioConfig) (n : AudioItem) :
  Manager.get w name config true = Return (Some n) →
  isPlaying n = false ∧ source n = None ∧
  ∃ p, panner n = Some p ∧ position p = None ∧
       refDistance p = c_refDistance config ∧
       rolloffFactor p = c_rolloffFactor config ∧
       ∀ now, panner (Item.play now n) = Some p.
Proof.
  unfold Manager.get. destruct (readFaults w name); [done |].
  destruct (negb (hasValue w name)); [done |].
  intros [= <-].
  destruct config as [lp vol rate rd rf dm pos]; simpl.
  destruct vol, rate, pos; simpl;
    (split; [done |]; split; [done |]; eexists; split; [reflexivity |];
     simpl; split; [done |]; split; [by destruct rd |];
     split; [by destruct rf | done]).
Qed.

Lemma manager_get_loses_position_witness :
  match Manager.get (boot {["a"%string]} 0) "a" positionedConfig true with
  | Return (Some n) => ∃ p, panner (Item.play 0 n) = Some p ∧ position p = None
  | _ => False
  end.
Proof.
  destruct (Manager.get (boot {["a"%string]} 0) "a" positionedConfig true)
    as [[n |] |] eqn:E; [| by vm_compute in E | by vm_compute in E].
  destruct (manager_get_loses_position _ _ _ _ E)
    as (_ & _ & p & _ & Hpos & _ & _ & Hplay).
  exists p. split; [apply Hplay | exact Hpos].
Defined.

Lemma dotFree_app (a b : string) :
  Manager.dotFree (a +:+ b) = Manager.dotFree a && Manager.dotFree b.
Proof.
  induction a as [| c a IH]; simpl; [done |].
  rewrite IH. by rewrite andb_assoc.
Qed.

Lemma slashFree_app (a b : string) :
  Manager.slashFree (a +:+ b) = Manager.slashFree a && Manager.slashFree b.
Proof.
  induction a as [| c a IH]; simpl; [done |].
  rewrite IH. by rewrite andb_assoc.
Qed.

Lemma extensionAt_dotted (c : ascii) (a b : string) :
  Manager.extensionAt c (a +:+ String "."%char b) = false.
Proof.
  unfold Manager.extensionAt.
  destruct (Ascii.eqb c "."%char); [| done]. simpl.
  assert (H : Manager.dotFree (a +:+ String "."%char b) = false).
  { rewrite dotFree_app. simpl. by rewrite andb_false_r. }
  rewrite H. by destruct (a +:+ String "."%char b).
Qed.

Lemma stripExtension_cut (base ext : string) :
  Manager.dotFree ext = true → ext ≠ EmptyString →
  Manager.stripExtension (base +:+ String "."%char ext) = base.
Proof.
  intros Hd Hne. induction base as [| c base IH]; simpl.
  - unfold Manager.extensionAt. simpl. rewrite Hd.
    by destruct ext.
  - fold (base +:+ String "."%char ext).
    by rewrite extensionAt_dotted, IH.
Qed.

Lemma stripExtension_dotFree (s : string) :
  Manager.dotFree s = true → Manager.stripExtension s = s.
Proof.
  induction s as [| c s IH]; simpl; [done |].
  intros [Hc Hs]%andb_true_iff. unfold Manager.extensionAt.
  apply negb_true_iff in Hc. rewrite Hc. simpl. by rewrite IH.
Qed.

Lemma stripExtension_trailing_dot (s : string) :
  Manager.stripExtension (s +:+ ".") = s +:+ ".".
Proof.
  induction s as [| c s IH]; simpl.
  - unfold Manager.extensionAt. simpl. done.
  - fold (s +:+ "."). change "."%string with (String "."%char EmptyString).
    by rewrite extensionAt_dotted, IH.
Qed.

Lemma lastSegment_cut (dir file : string) :
  Manager.slashFree file = true →
  Manager.lastSegment (dir +:+ String "/"%char file) = file.
Proof.
  intros Hf. induction dir as [| c dir IH]; simpl.
  - by rewrite Hf.
  - fold (dir +:+ String "/"%char file).
    rewrite slashFree_app. simpl. by rewrite andb_false_r.
Qed.

Lemma lastSegment_slashFree (s : string) :
  Manager.slashFree s = true → Manager.lastSegment s = s.
Proof.
  destruct s as [| c s]; simpl; [done |].
  intros [Hc Hs]%andb_true_iff. rewrite Hs.
  apply negb_true_iff in Hc. by rewrite Hc.
Qed.

Lemma nameOfPath_cut (dir base ext : string) :
  Manager.slashFree base = true → Manager.slashFree ext = true →
  Manager.dotFree ext = true → ext ≠ EmptyString →
  Manager.nameOfPath (dir +:+ String "/"%char (base +:+ String "."%char ext))
    = base.
Proof.
  intros Hb He Hd Hne. unfold Manager.nameOfPath.
  rewrite lastSegment_cut by (rewrite slashFree_app, Hb; simpl; exact He).
  by apply stripExtension_cut.
Qed.

(** X18.  The name [loadAll] derives from a path: the last segment of the
    path, cut at its last dot when something follows that dot.  A file
    without a dot, or ending in a dot, keeps its whole name; a file that
    starts with its only dot gets the empty name. *)
Theorem nameOfPath_cuts_last_extension (dir base ext : string) :
  Manager.slashFree base = true → Manager.slashFree ext = true →
  Manager.dotFree ext = true →
  (ext ≠ EmptyString →
   Manager.nameOfPath (dir +:+ String "/"%char (base +:+ String "."%char ext))
     = base) ∧
  Manager.nameOfPath (dir +:+ String "/"%char ext) = ext ∧
  Manager.nameOfPath (dir +:+ String "/"%char (base +:+ ".")) = base +:+ "." ∧
  (ext ≠ EmptyString →
   Manager.nameOfPath (dir +:+ String "/"%char (String "."%char ext))
     = EmptyString).
Proof.
  intros Hb He Hd. unfold Manager.nameOfPath.
  assert (Hfile : ∀ tail, Manager.slashFree tail = true →
            Manager.slashFree (base +:+ String "."%char tail) = true).
  { intros tail Ht. rewrite slashFree_app, Hb. simpl. exact Ht. }
  repeat split.
  - intros Hne. by apply nameOfPath_cut.
  - rewrite lastSegment_cut by done. by apply stripExtension_dotFree.
  - rewrite lastSegment_cut by (by apply (Hfile EmptyString)).
    apply stripExtension_trailing_dot.
  - intros Hne. rewrite lastSegment_cut by (simpl; exact He).
    by apply (stripExtension_cut EmptyString).
Qed.

Lemma nameOfPath_cuts_last_extension_witness :
  Manager.nameOfPath "/sounds/jump.v2.mp3" = "jump.v2"%string.
Proof.
  destruct (nameOfPath_cuts_last_extension "/sounds" "jump.v2" "mp3")
    as (H & _); [reflexivity | reflexivity | reflexivity |].
  apply H. discriminate.
Defined.

(** X19.  Two loaded files whose paths differ only in the directory or in
    the extension get the same name, and [loadAll] keeps the buffer of the
    later one only; the name is one that can be assigned, as every name is
    while nothing was stored under '__proto__'. *)
Theorem loadAll_later_file_replaces (d1 d2 base e1 e2 : string)
    (b1 b2 : nat) (bufs : gmap string nat) :
  bufs !! "__proto__"%string = None ∨ base ∉ audioBufferAttributes →
  Manager.slashFree base = true →
  Manager.slashFree e1 = true → Manager.dotFree e1 = true →
  e1 ≠ EmptyString →
  Manager.slashFree e2 = true → Manager.dotFree e2 = true →
  e2 ≠ EmptyString →
  Manager.storeResults
    [(d1 +:+ String "/"%char (base +:+ String "."%char e1), b1);
     (d2 +:+ String "/"%char (base +:+ String "."%char e2), b2)] bufs
  = Some (<[base := b2]> bufs).
Proof.
  intros Hok Hb Hs1 Hd1 Hn1 Hs2 Hd2 Hn2. unfold Manager.storeResults.
  cbn [foldl fst snd]. rewrite !nameOfPath_cut by done.
  cbn [mbind option_bind]. unfold Manager.assign at 2.
  rewrite decide_False.
  - cbn [mbind option_bind]. unfold Manager.assign.
    rewrite decide_False by (rewrite lookup_insert_eq; by intros (_ & ? & _)).
    by rewrite insert_insert_eq.
  - intros ([x Hx] & _ & Hin). destruct Hok as [Hnone | Hno]; [congruence | done].
Qed.

Lemma loadAll_later_file_replaces_witness :
  Manager.storeResults [("/sfx/boom.mp3"%string, 1); ("/alt/boom.ogg"%string, 2)]
                       ∅
  = Some {[ "boom"%string := 2 ]}.
Proof.
  rewrite (loadAll_later_file_replaces "/sfx" "/alt" "boom" "mp3" "ogg" 1 2 ∅);
    try reflexivity; try discriminate.
  by left.
Defined.

(** ** AudioListenerController *)

(** X20.  [getEndTime] at a clock reading not before the last one returns a
    time between the reading and a tenth of a second after it, and records
    the reading; asked again at the same reading it returns the reading
    itself, so a second ramp requested in the same instant has no length. *)
Theorem getEndTime_bounds (now : Q) (l : ListenerController) :
  (lc_lastTime l <= now)%Q →
  let r := Listener.getEndTime now l in
  (now <= r.1 <= now + (1 # 10))%Q ∧
  (r.1 == now + lc_timeDelta r.2)%Q ∧
  lc_lastTime r.2 = now ∧
  ((Listener.getEndTime now r.2).1 == now)%Q ∧
  lc_edges r.2 = lc_edges l ∧ lc_filter r.2 = lc_filter l.
Proof.
  intros Hle. unfold Listener.getEndTime, Listener.getTimeDelta, Listener.min.
  simpl.
  destruct (Qle_bool (now - lc_lastTime l) (1 # 10)) eqn:E.
  - apply Qle_bool_iff in E. repeat split; try done; try lra.
    destruct (Qle_bool (now - now) (1 # 10)) eqn:E2; simpl; [lra |].
    assert (Qle_bool (now - now) (1 # 10) = true)
      by (apply Qle_bool_iff; lra).
    congruence.
  - repeat split; try done; try lra.
    destruct (Qle_bool (now - now) (1 # 10)) eqn:E2; simpl; [lra |].
    assert (Qle_bool (now - now) (1 # 10) = true)
      by (apply Qle_bool_iff; lra).
    congruence.
Qed.

Lemma getEndTime_bounds_witness :
  ((Listener.getEndTime 5 (Listener.create 3)).1 == 5 + (1 # 10))%Q.
Proof.
  destruct (getEndTime_bounds 5 (Listener.create 3)) as (_ & H & _).
  - vm_compute. discriminate.
  - rewrite H. reflexivity.
Defined.

Lemma disconnect_wiring_gain (f : nat) :
  Graph.disconnect (MasterGain, FilterNode f) (Listener.wiring (Some f))
    = Some [(FilterNode f, Destination)].
Proof.
  unfold Graph.disconnect, Listener.wiring.
  rewrite decide_True by (left).
  rewrite filter_cons_False by (intros H; by apply H).
  rewrite filter_cons_True by done. done.
Qed.

Lemma disconnect_single (e : GraphNode * GraphNode) :
  Graph.disconnect e [e] = Some [].
Proof.
  unfold Graph.disconnect. rewrite decide_True by (left).
  rewrite filter_cons_False by (intros H; by apply H). done.
Qed.

Lemma connect_wiring (f : nat) :
  Graph.connect (FilterNode f, Destination)
    (Graph.connect (MasterGain, FilterNode f) [])
  = Listener.wiring (Some f).
Proof.
  assert (H1 : Graph.connect (MasterGain, FilterNode f) []
               = [(MasterGain, FilterNode f)]).
  { unfold Graph.connect. rewrite decide_False; [done |].
    by intros ?%elem_of_nil. }
  rewrite H1. unfold Graph.connect, Listener.wiring.
  rewrite decide_False; [done |].
  intros H%list_elem_of_singleton. discriminate.
Qed.

Lemma setFilter_wired (value : nat) (l : ListenerController) :
  lc_edges l = Listener.wiring (lc_filter l) →
  Listener.setFilter value l =
    Some (Listener.with_wiring (Some value)
            (Listener.wiring (Some value)) l).
Proof.
  intros Hw. unfold Listener.setFilter. rewrite Hw.
  destruct (lc_filter l) as [f |].
  - rewrite disconnect_wiring_gain. simpl. rewrite disconnect_single. simpl.
    by rewrite connect_wiring.
  - unfold Listener.wiring at 1. rewrite disconnect_single. simpl.
    by rewrite connect_wiring.
Qed.

Lemma removeFilter_wired (l : ListenerController) :
  lc_edges l = Listener.wiring (lc_filter l) →
  ∃ l', Listener.removeFilter l = Some l' ∧ lc_filter l' = None ∧
        lc_edges l' = Listener.wiring None.
Proof.
  intros Hw. unfold Listener.removeFilter.
  destruct (lc_filter l) as [f |] eqn:Ef.
  - rewrite Hw, disconnect_wiring_gain. simpl. rewrite disconnect_single.
    simpl. eexists. split; [done |]. done.
  - exists l. by rewrite Ef, Hw.
Qed.

Lemma apply_wired (op : ListenerOp) (l : ListenerController) :
  lc_edges l = Listener.wiring (lc_filter l) →
  ∃ l', Listener.apply op l = Some l' ∧
        lc_edges l' = Listener.wiring (lc_filter l') ∧
        lc_filter l' = match op with
                       | SetFilter value => Some value
                       | RemoveFilter => None
                       end.
Proof.
  intros Hw. destruct op as [value |]; simpl.
  - rewrite setFilter_wired by done. by eexists.
  - destruct (removeFilter_wired l Hw) as (l' & -> & Hf & He).
    exists l'. by rewrite Hf, He.
Qed.

(** X21.  Whatever sequence of [setFilter] and [removeFilter] calls follows
    the construction of the listener, no call disconnects a connection that
    is not there (none throws), and afterwards the controller's gain
    reaches the destination directly when it has no filter, and through its
    current filter and nothing else when it has one; the current filter is
    the one of the last call. *)
Theorem listener_wiring_follows_filter (now : Q) (ops : list ListenerOp) :
  ∃ l, Listener.applyAll ops (Listener.create now) = Some l ∧
       lc_edges l = Listener.wiring (lc_filter l) ∧
       lc_filter l = match last ops with
                     | Some (SetFilter value) => Some value
                     | _ => None
                     end.
Proof.
  induction ops as [| op ops IH] using rev_ind.
  - by exists (Listener.create now).
  - destruct IH as (l & Hl & Hw & _).
    unfold Listener.applyAll in *. rewrite foldl_snoc, Hl. simpl.
    destruct (apply_wired op l Hw) as (l' & Hop & Hw' & Hf).
    exists l'. split; [done |]. split; [done |].
    rewrite last_snoc, Hf. by destruct op.
Qed.

Lemma getPolicy_merge_witness :
  pol_maxVoices (getPolicy (init ignoreConfig (boot ∅ 0)) "a") = Some 2%Q ∧
  pol_stealStrategy (getPolicy (init ignoreConfig (boot ∅ 0)) "a")
    = Some "ignore"%string.
Proof.
  pose proof (getPolicy_merge ignoreConfig (boot ∅ 0) "a") as H.
  cbv zeta in H. destruct H as (Hm & _ & _ & Hs & _).
  split.
  - rewrite Hm; [reflexivity | discriminate].
  - rewrite Hs; [reflexivity | discriminate].
Defined.

(** ** AudioVisibilityManager *)

Lemma createEmptySrc_bytes (seconds : nat) :
  VisibilityManager.createEmptySrc seconds =
    [82; 73; 70; 70]%Z ++
    VisibilityManager.bytes32 (36 + VisibilityManager.dataSize seconds) ++
    [87; 65; 86; 69; 102; 109; 116; 32; 16; 0; 0; 0; 1; 0; 1; 0;
     68; 172; 0; 0; 136; 88; 1; 0; 2; 0; 16; 0; 100; 97; 116; 97]%Z ++
    VisibilityManager.bytes32 (VisibilityManager.dataSize seconds) ++
    replicate (Z.to_nat (VisibilityManager.dataSize seconds)) 0%Z.
Proof.
  unfold VisibilityManager.createEmptySrc, VisibilityManager.dataSize,
    VisibilityManager.bytes32.
  set (n := (VisibilityManager.sampleRate * Z.of_nat seconds * 2)%Z).
  lazy -[Z.mul Z.add Z.to_nat Z.of_nat VisibilityManager.byteOf
         VisibilityManager.sampleRate n].
  repeat (apply (f_equal2 cons); [reflexivity |]).
  reflexivity.
Qed.

Lemma byteOf_range (k : nat) (v : Z) :
  (0 <= VisibilityManager.byteOf k v < 256)%Z.
Proof. unfold VisibilityManager.byteOf. apply Z.mod_pos_bound. lia. Qed.

Lemma le32_bytes32 (v : Z) :
  (0 <= v < 2 ^ 32)%Z →
  VisibilityManager.le32 (VisibilityManager.bytes32 v) = v.
Proof.
  intros Hv.
  unfold VisibilityManager.le32, VisibilityManager.bytes32,
    VisibilityManager.byteOf.
  change (256 ^ Z.of_nat 0)%Z with 1%Z. change (256 ^ Z.of_nat 1)%Z with 256%Z.
  change (256 ^ Z.of_nat 2)%Z with 65536%Z.
  change (256 ^ Z.of_nat 3)%Z with 16777216%Z.
  change (2 ^ 32)%Z with 4294967296%Z in Hv.
  Z.div_mod_to_equations. lia.
Qed.

(** X22.  The bytes [createEmptySrc] encodes, for any whole number of
    seconds: 44 bytes of header and two zero bytes per sample; every byte
    fits a character code below 256; the header reads RIFF, WAVE, a 16-byte
    PCM format chunk (one channel, 44100 Hz, 88200 bytes a second, blocks of
    2 bytes, 16 bits) and "data"; and as long as the sizes fit 32 bits the
    RIFF size is the file length less 8 and the data size the file length
    less 44. *)
Theorem emptyWav_is_consistent (seconds : nat) :
  let b := VisibilityManager.createEmptySrc seconds in
  Z.of_nat (length b) = (44 + 88200 * Z.of_nat seconds)%Z ∧
  Forall (fun x => (0 <= x < 256)%Z) b ∧
  take 4 b = [82; 73; 70; 70]%Z ∧
  take 32 (drop 8 b) =
    [87; 65; 86; 69; 102; 109; 116; 32; 16; 0; 0; 0; 1; 0; 1; 0;
     68; 172; 0; 0; 136; 88; 1; 0; 2; 0; 16; 0; 100; 97; 116; 97]%Z ∧
  (∀ x, x ∈ drop 44 b → x = 0%Z) ∧
  ((36 + 88200 * Z.of_nat seconds < 2 ^ 32)%Z →
   VisibilityManager.le32 (take 4 (drop 4 b)) = (Z.of_nat (length b) - 8)%Z ∧
   VisibilityManager.le32 (take 4 (drop 40 b)) = (Z.of_nat (length b) - 44)%Z).
Proof.
  intros b. subst b. rewrite createEmptySrc_bytes.
  assert (Hd : VisibilityManager.dataSize seconds
               = (88200 * Z.of_nat seconds)%Z)
    by (unfold VisibilityManager.dataSize, VisibilityManager.sampleRate; lia).
  set (c := VisibilityManager.bytes32 (36 + VisibilityManager.dataSize seconds)).
  set (d := VisibilityManager.bytes32 (VisibilityManager.dataSize seconds)).
  assert (Hc : length c = 4) by done.
  assert (Hdl : length d = 4) by done.
  split.
  { rewrite !length_app, length_replicate, Hc, Hdl. simpl length. lia. }
  split.
  { repeat (apply Forall_app; split).
    - repeat constructor; lia.
    - unfold c, VisibilityManager.bytes32.
      repeat constructor; apply byteOf_range.
    - repeat constructor; lia.
    - unfold d, VisibilityManager.bytes32.
      repeat constructor; apply byteOf_range.
    - apply Forall_replicate. lia. }
  split; [reflexivity |]. split; [reflexivity |]. split.
  { intros x Hx. cbn [app VisibilityManager.bytes32 drop c d] in Hx.
    by apply elem_of_replicate in Hx as [-> _]. }
  intros Hsmall.
  rewrite !length_app, length_replicate, Hc, Hdl. simpl length.
  cbn [app VisibilityManager.bytes32 drop take c d]. rewrite take_0.
  fold (VisibilityManager.bytes32 (36 + VisibilityManager.dataSize seconds)).
  fold (VisibilityManager.bytes32 (VisibilityManager.dataSize seconds)).
  change (2 ^ 32)%Z with 4294967296%Z in Hsmall.
  rewrite !le32_bytes32
    by (change (2 ^ 32)%Z with 4294967296%Z; rewrite Hd; lia).
  rewrite Hd. lia.
Qed.

(** ** The chain of an AudioItem *)

Lemma connect_fresh (l : GraphNode * GraphNode)
    (edges : list (GraphNode * GraphNode)) :
  l ∉ edges → Graph.connect l edges = edges ++ [l].
Proof. intros H. unfold Graph.connect. by rewrite decide_False. Qed.

Lemma connectAll_fresh (links edges : list (GraphNode * GraphNode)) :
  NoDup links → (∀ l, l ∈ links → l ∉ edges) →
  Graph.connectAll links edges = edges ++ links.
Proof.
  revert edges. induction links as [| l rest IH]; intros edges Hnd Hfresh.
  - by rewrite app_nil_r.
  - apply NoDup_cons in Hnd as [Hl Hnd]. simpl.
    rewrite connect_fresh by (apply Hfresh; left).
    rewrite IH; [by rewrite <- app_assoc | done |].
    intros x Hx Hin. apply elem_of_app in Hin as [Hin | Hin].
    + apply (Hfresh x); [by right | done].
    + apply list_elem_of_singleton in Hin. by subst.
Qed.

Lemma disconnectAll_missing (links edges : list (GraphNode * GraphNode))
    (l : GraphNode * GraphNode) :
  l ∈ links → l ∉ edges → Graph.disconnectAll links edges = None.
Proof.
  revert edges. induction links as [| x rest IH]; intros edges Hl Hout.
  - by apply elem_of_nil in Hl.
  - simpl. unfold Graph.disconnect at 1.
    destruct (decide (x ∈ edges)) as [Hx |]; [| done]. simpl.
    apply elem_of_cons in Hl as [-> | Hl]; [done |].
    apply IH; [done |]. rewrite list_elem_of_filter. tauto.
Qed.

Lemma disconnectAll_throws (links edges : list (GraphNode * GraphNode)) :
  ¬ NoDup links → Graph.disconnectAll links edges = None.
Proof.
  revert edges. induction links as [| x rest IH]; intros edges Hnd.
  - destruct Hnd. constructor.
  - simpl. unfold Graph.disconnect at 1.
    destruct (decide (x ∈ edges)) as [Hx |]; [| done]. simpl.
    destruct (decide (x ∈ rest)) as [Hin | Hout].
    + apply (disconnectAll_missing _ _ x); [done |].
      rewrite list_elem_of_filter. tauto.
    + apply IH. intros Hrest. apply Hnd. by constructor.
Qed.

Lemma disconnectAll_ok (links edges : list (GraphNode * GraphNode)) :
  NoDup links → (∀ l, l ∈ links → l ∈ edges) →
  Graph.disconnectAll links edges = Some (filter (fun x => x ∉ links) edges).
Proof.
  revert edges. induction links as [| x rest IH]; intros edges Hnd Hin.
  - simpl. f_equal. symmetry. induction edges as [| e edges IHe]; [done |].
    rewrite filter_cons_True by (by intros ?%elem_of_nil).
    f_equal. apply IHe. intros l Hl. by apply elem_of_nil in Hl.
  - apply NoDup_cons in Hnd as [Hx Hnd]. simpl. unfold Graph.disconnect at 1.
    rewrite decide_True by (apply Hin; left). simpl.
    rewrite IH; [| done |].
    + f_equal. rewrite list_filter_filter. apply list_filter_iff.
      intros e. rewrite elem_of_cons. tauto.
    + intros l Hl. apply list_elem_of_filter. split.
      * intros ->. done.
      * apply Hin. by right.
Qed.

Lemma filter_out_links (base links : list (GraphNode * GraphNode)) :
  (∀ l, l ∈ links → l ∉ base) →
  filter (fun x => x ∉ links) (base ++ links) = base.
Proof.
  intros Hfresh. rewrite filter_app.
  assert (H1 : filter (fun x => x ∉ links) base = base).
  { clear -Hfresh. induction base as [| b base IH]; [done |].
    rewrite filter_cons_True.
    - f_equal. apply IH. intros l Hl Hin. apply (Hfresh l Hl). by right.
    - intros Hb. apply (Hfresh b Hb). left. }
  assert (H2 : ∀ ks, (∀ k, k ∈ ks → k ∈ links) →
                 filter (fun x => x ∉ links) ks = []).
  { induction ks as [| k ks IH]; intros Hks; [done |].
    rewrite filter_cons_False by (intros Hk; apply Hk, Hks; left).
    apply IH. intros x Hx. apply Hks. by right. }
  rewrite H1, H2 by done. by rewrite app_nil_r.
Qed.

Lemma links_repeated (s f : nat) (fs : list nat) :
  ¬ NoDup (Chain.links s (f :: f :: f :: fs)).
Proof.
  unfold Chain.links. simpl. intros Hnd.
  apply NoDup_cons in Hnd as [_ Hnd]. apply NoDup_cons in Hnd as [Hx _].
  apply Hx. left.
Qed.

(** X24.  [connect()] on an item that has a source and is not connected
    makes the connections of its chain.  When no connection is asked for
    twice, a following [disconnect()] removes exactly those and gives the
    item back as it was.  When one is asked for twice (as with a filter that
    is listed three times in a row) the platform holds it once, and
    [disconnect()] throws on the second removal. *)
Theorem chain_connect_disconnect (g : ItemGraph) (s : nat) :
  ig_connected g = false → ig_source g = Some s →
  (∀ l, l ∈ Chain.links s (ig_filters g) → l ∉ ig_edges g) →
  ∃ g1, Chain.connect g = Some g1 ∧ ig_connected g1 = true ∧
    (NoDup (Chain.links s (ig_filters g)) →
       ig_edges g1 = ig_edges g ++ Chain.links s (ig_filters g) ∧
       Chain.disconnect g1 = Some g) ∧
    (¬ NoDup (Chain.links s (ig_filters g)) → Chain.disconnect g1 = None) ∧
    (∀ f fs, ig_filters g = f :: f :: f :: fs → Chain.disconnect g1 = None).
Proof.
  intros Hc Hs Hfresh. destruct g as [src fs c edges]. simpl in *. subst.
  eexists. split; [reflexivity |]. split; [reflexivity |].
  assert (Hthrow : ¬ NoDup (Chain.links s fs) →
            Chain.disconnect
              {| ig_source := Some s; ig_filters := fs; ig_connected := true;
                 ig_edges := Graph.connectAll (Chain.links s fs) edges |}
            = None).
  { intros Hnd. unfold Chain.disconnect. simpl.
    by rewrite disconnectAll_throws. }
  split; [| split; [exact Hthrow |]].
  - intros Hnd. rewrite connectAll_fresh by done. split; [done |].
    unfold Chain.disconnect. simpl.
    rewrite disconnectAll_ok; [| done |].
    + simpl. by rewrite filter_out_links.
    + intros l Hl. apply elem_of_app. by right.
  - intros f fs' ->. apply Hthrow, links_repeated.
Qed.

Lemma chain_connect_disconnect_witness :
  ∃ g1, Chain.connect {| ig_source := Some 0; ig_filters := [7; 7; 7];
                         ig_connected := false; ig_edges := [] |} = Some g1 ∧
        Chain.disconnect g1 = None.
Proof.
  destruct (chain_connect_disconnect
              {| ig_source := Some 0; ig_filters := [7; 7; 7];
                 ig_connected := false; ig_edges := [] |} 0)
    as (g1 & Hg1 & _ & _ & _ & H).
  - reflexivity.
  - reflexivity.
  - intros l _ Hl. by apply elem_of_nil in Hl.
  - exists g1. split; [exact Hg1 |]. by apply (H 7 []).
Defined.

(** X25.  [setFilters(value)] on a connected item whose connections are
    those of its chain, beside connections [base] of other nodes: when
    neither the old nor the new chain asks for a connection twice or for one
    of [base], the call does not throw and leaves the item connected
    through the new filters, [base] untouched. *)
Theorem setFilters_rewires (g : ItemGraph) (s : nat)
    (base : list (GraphNode * GraphNode)) (value : list nat) :
  ig_connected g = true → ig_source g = Some s →
  ig_edges g = base ++ Chain.links s (ig_filters g) →
  NoDup (Chain.links s (ig_filters g)) → NoDup (Chain.links s value) →
  (∀ l, l ∈ Chain.links s (ig_filters g) → l ∉ base) →
  (∀ l, l ∈ Chain.links s value → l ∉ base) →
  Chain.setFilters value g =
    Some {| ig_source := Some s; ig_filters := value; ig_connected := true;
            ig_edges := base ++ Chain.links s value |}.
Proof.
  intros Hc Hs He Hold Hnew Hbase Hbase'.
  destruct g as [src fs c edges]. simpl in *. subst.
  unfold Chain.setFilters, Chain.disconnect. simpl.
  rewrite disconnectAll_ok; [| done |].
  - simpl. rewrite filter_out_links by done.
    unfold Chain.connect, Chain.with_filters. simpl.
    by rewrite connectAll_fresh.
  - intros l Hl. apply elem_of_app. by right.
Qed.

Lemma setFilters_rewires_witness :
  Chain.setFilters [4; 5]
    {| ig_source := Some 0; ig_filters := [3]; ig_connected := true;
       ig_edges := [(OutputNode, MasterGain); (SourceNode 0, FilterNode 3);
                    (FilterNode 3, OutputNode)] |}
  = Some {| ig_source := Some 0; ig_filters := [4; 5]; ig_connected := true;
            ig_edges := [(OutputNode, MasterGain); (SourceNode 0, FilterNode 4);
                         (FilterNode 4, FilterNode 5);
                         (FilterNode 5, OutputNode)] |}.
Proof.
  apply (setFilters_rewires _ 0 [(OutputNode, MasterGain)] [4; 5]);
    try reflexivity.
  - apply (bool_decide_unpack _). by vm_compute.
  - apply (bool_decide_unpack _). by vm_compute.
  - intros l Hl Hin. apply list_elem_of_singleton in Hin. subst l.
    revert Hl. apply (bool_decide_unpack _). by vm_compute.
  - intros l Hl Hin. apply list_elem_of_singleton in Hin. subst l.
    revert Hl. apply (bool_decide_unpack _). by vm_compute.
Defined.
